(** * alphamuddle: the GADDAG lexicon index and the muddle solver

    A shallow embedding of [pygaddag.py] (classes [GADDAG] and [Node]) and of
    [solver.py] (class [Solver]), with the properties of both that the
    specification states.

    Conventions of the embedding.
    - A Python character is an [ascii]: the code points U+0000..U+00FF, on
      which [is_alpha] and [lower] agree with [str.isalpha] and [str.lower].
    - A word is a [list ascii], whether Python holds it as a [str] or as a
      list of one-character strings ([''.join] is the identity).
    - Nodes of the graph are mutable objects shared between parents.  They
      live in an arena ([list Node]); the identity of a node is its index.
    - A call either returns, raises, or runs out of the fuel that bounds the
      recursion of the crawlers: type [outcome]. *)

From Stdlib Require Import Ascii String List Arith Bool Lia.
From stdpp Require Import base option list strings.
Import ListNotations.

Local Open Scope char_scope.
Local Open Scope nat_scope.

(** ** Characters *)

Abbreviation word := (list ascii).

Definition between (lo hi n : nat) : bool := (lo <=? n) && (n <=? hi).

(** [str.isalpha] on one character. *)
Definition is_alpha (c : ascii) : bool :=
  let n := nat_of_ascii c in
  between 65 90 n || between 97 122 n
  || (n =? 170) || (n =? 181) || (n =? 186)
  || between 192 214 n || between 216 246 n || between 248 255 n.

(** [str.lower] on one character. *)
Definition lower (c : ascii) : ascii :=
  let n := nat_of_ascii c in
  if between 65 90 n || between 192 214 n || between 216 222 n
  then ascii_of_nat (n + 32) else c.

Definition lower_word (w : word) : word := map lower w.

(** [list(s)] for a string literal. *)
Definition chars (s : string) : word := list_ascii_of_string s.
Arguments chars s%_string.

Definition dash : ascii := "-".
Definition plus : ascii := "+".
Definition space : ascii := " ".

Definition eqc (a b : ascii) : bool := bool_decide (a = b).

Definition mem (c : ascii) (l : list ascii) : bool := bool_decide (c ∈ l).

(** [list.count]. *)
Definition count (c : ascii) (l : list ascii) : nat :=
  length (filter (fun x => x = c) l).

(** [list.remove]: drops the first occurrence, [None] for the ValueError. *)
Fixpoint remove_first (c : ascii) (l : list ascii) : option (list ascii) :=
  match l with
  | [] => None
  | x :: t => if eqc x c then Some t
              else option_map (cons x) (remove_first c t)
  end.

(** ** Outcomes of a call *)

Inductive exn := KeyError | TypeError | AttributeError | ValueError | IndexError.

Inductive outcome (A : Type) :=
| Ok (a : A)
| Raise (e : exn)
| NoFuel.
Arguments Ok {A} a.
Arguments Raise {A} e.
Arguments NoFuel {A}.

#[global] Instance outcome_ret : MRet outcome := fun A a => Ok a.

#[global] Instance outcome_bind : MBind outcome := fun A B k m =>
  match m with
  | Ok a => k a
  | Raise e => Raise e
  | NoFuel => NoFuel
  end.

(** Indexing a list, [IndexError] out of range. *)
Definition index {A} (l : list A) (i : nat) : outcome A :=
  match l !! i with
  | Some a => Ok a
  | None => Raise IndexError
  end.

(** [l[i] = x], [IndexError] out of range. *)
Definition assign {A} (l : list A) (i : nat) (x : A) : outcome (list A) :=
  if decide (i < length l) then Ok (<[i:=x]> l) else Raise IndexError.

(** ** class Node *)

Module Node.

(** [_edges] is a dict: keys are unique and iterate in insertion order. *)
Record t := mk { _edges : list (ascii * nat); _end : bool }.

Definition empty (e : bool) : t := mk [] e.

Fixpoint get (es : list (ascii * nat)) (c : ascii) : option nat :=
  match es with
  | [] => None
  | (k, v) :: r => if eqc k c then Some v else get r c
  end.

(** [d[c] = v] on a dict: an existing key keeps its place. *)
Fixpoint put (es : list (ascii * nat)) (c : ascii) (v : nat) : list (ascii * nat) :=
  match es with
  | [] => [(c, v)]
  | (k, x) :: r => if eqc k c then (k, v) :: r else (k, x) :: put r c v
  end.

(** [for char in self]: the labels. *)
Definition labels (n : t) : list ascii := map fst (_edges n).

(** [len(self)], which is also the truth value of a node. *)
Definition truthy (n : t) : bool :=
  match _edges n with [] => false | _ => true end.

(** The property [edges]: the set of labels, or None when there are none.
    Two such values are equal when the labels are the same set. *)
Definition same_edges (a b : t) : bool :=
  forallb (fun c => mem c (labels b)) (labels a)
  && forallb (fun c => mem c (labels a)) (labels b).

End Node.

(** The arena.  A reference that no object holds cannot be followed in
    Python; [node_at] reads such an index as a node without edges. *)
Abbreviation arena := (list Node.t).

Definition node_at (h : arena) (i : nat) : Node.t :=
  default (Node.empty false) (h !! i).

Definition edge (h : arena) (i : nat) (c : ascii) : option nat :=
  Node.get (Node._edges (node_at h i)) c.

Definition is_end (h : arena) (i : nat) : bool := Node._end (node_at h i).

(** [Node.follow]: [None] when an edge is missing. *)
Fixpoint follow (h : arena) (i : nat) (chars : word) : option nat :=
  match chars with
  | [] => Some i
  | c :: r => match edge h i c with
              | Some j => follow h j r
              | None => None
              end
  end.

(** [Node.set_edge]. *)
Definition set_edge (h : arena) (i : nat) (c : ascii) (dst : nat) : arena :=
  <[i := Node.mk (Node.put (Node._edges (node_at h i)) c dst)
                 (Node._end (node_at h i))]> h.

(** [Node.add_edge].  [dst = None] stands for the default argument: the
    fresh [Node(end)] is allocated at the end of the arena.  (Python builds
    that object even when the edge exists and then drops it; nothing can
    observe it, so the arena does not keep it.) *)
Definition add_edge (h : arena) (i : nat) (c : ascii) (dst : option nat)
    (e : bool) : arena * nat :=
  match edge h i c with
  | Some j => (h, j)
  | None =>
      match dst with
      | Some d => (set_edge h i c d, d)
      | None => let d := length h in
                (set_edge (h ++ [Node.empty e]) i c d, d)
      end
  end.

(** [Node.add_path]. *)
Fixpoint add_path (h : arena) (i : nat) (chars : word) : arena * nat :=
  match chars with
  | [] => (h, i)
  | c :: r => let '(h', j) := add_edge h i c None false in add_path h' j r
  end.

(** The setter of [end]. *)
Definition set_end (h : arena) (i : nat) (v : bool) : arena :=
  <[i := Node.mk (Node._edges (node_at h i)) v]> h.

(** [Node.add_end]. *)
Definition add_end (h : arena) (i : nat) (c : ascii) : arena :=
  match edge h i c with
  | Some j => set_end h j true
  | None => fst (add_edge h i c None true)
  end.

(** ** class GADDAG *)

Record GADDAG := mkGADDAG { nodes : arena; _root : nat; _changed : bool }.

(** [GADDAG()] *)
Definition new_gaddag : GADDAG := mkGADDAG [Node.empty false] 0 false.

(** [_has] *)
Definition _has (g : GADDAG) (w : word) : bool :=
  match follow (nodes g) (_root g) (rev w) with
  | None => false
  | Some n => match edge (nodes g) n plus with
              | None => false
              | Some p => is_end (nodes g) p
              end
  end.

(** [__contains__]: the operator [in]. *)
Definition __contains__ (g : GADDAG) (w : word) : bool := _has g (lower_word w).

(** [is_in] *)
Definition is_in (g : GADDAG) (w : word) : bool := _has g w.

(** One round of the loop of [_add_word] ("Create remaining paths"), for the
    split position [m]; [existing_node] is the node of the previous round.
    The arena is returned as the round leaves it, also when it raises. *)
Definition add_word_step (root : nat) (w : word) (h : arena)
    (existing_node : nat) (m : nat) : arena * outcome nat :=
  let '(h1, n1) := add_path h root (rev (take (S m) w)) in
  let '(h2, node) := add_edge h1 n1 plus None false in
  match w !! S m with
  | None => (h2, Raise IndexError)
  | Some char =>
      match edge h2 node char with
      | Some tgt =>
          if Node.truthy (node_at h2 tgt)
             && negb (Node.same_edges (node_at h2 tgt) (node_at h2 existing_node))
          then (h2, Raise AttributeError)
          else (set_edge h2 node char existing_node, Ok node)
      | None => (fst (add_edge h2 node char (Some existing_node) false), Ok node)
      end
  end.

Fixpoint add_word_loop (root : nat) (w : word) (h : arena) (node : nat)
    (ms : list nat) : arena * outcome nat :=
  match ms with
  | [] => (h, Ok node)
  | m :: r =>
      match add_word_step root w h node m with
      | (h', Ok node') => add_word_loop root w h' node' r
      | (h', o) => (h', o)
      end
  end.

(** [range(len(word) - 3, -1, -1)] *)
Definition split_positions (w : word) : list nat := rev (seq 0 (length w - 2)).

(** [_add_word]: the graph after the call and what the call did. *)
Definition _add_word (g : GADDAG) (w : word) : GADDAG * outcome bool :=
  if __contains__ g w then (g, Ok false)
  else
    let root := _root g in
    let '(h1, n) := add_path (nodes g) root (rev w) in
    let h2 := add_end h1 n plus in
    let '(h3, n') := add_path h2 root (rev (take (length w - 1) w)) in
    let '(h4, node) := add_edge h3 n' plus None false in
    match last w with
    | None => (mkGADDAG h4 root (_changed g), Raise IndexError)
    | Some c =>
        let h5 := add_end h4 node c in
        match add_word_loop root w h5 node (split_positions w) with
        | (h6, Ok _) => (mkGADDAG h6 root true, Ok true)
        | (h6, Raise e) => (mkGADDAG h6 root (_changed g), Raise e)
        | (h6, NoFuel) => (mkGADDAG h6 root (_changed g), NoFuel)
        end
    end.

(** [add] *)
Definition add (g : GADDAG) (content : word) : GADDAG * outcome bool :=
  _add_word g content.

(** A lexicon built word by word from the empty graph; the build stops at
    the first word whose insertion raises. *)
Fixpoint build_from (g : GADDAG) (ws : list word) : GADDAG * outcome unit :=
  match ws with
  | [] => (g, Ok tt)
  | w :: r =>
      match add g w with
      | (g', Ok _) => build_from g' r
      | (g', Raise e) => (g', Raise e)
      | (g', NoFuel) => (g', NoFuel)
      end
  end.

Definition build (ws : list word) : GADDAG * outcome unit :=
  build_from new_gaddag ws.

(** ** Queries

    A query returns either [set()] or a generator.  A generator runs when it
    is iterated, not when the query is called, so an exception of its body
    surfaces at the iteration; [run] is the body, on the graph as it was at
    the call. *)

Inductive sequence (A : Type) :=
| EmptySet
| Generator (run : nat -> outcome (list A)).
Arguments EmptySet {A}.
Arguments Generator {A} run.

(** [list(seq)] *)
Definition iterate {A} (fuel : nat) (s : sequence A) : outcome (list A) :=
  match s with
  | EmptySet => Ok []
  | Generator run => run fuel
  end.

(** A [for] loop whose body yields items and updates a state that the
    iterations share (the set [found_words]). *)
Fixpoint for_each {A S I} (body : A -> S -> outcome (list I * S))
    (l : list A) (s : S) : outcome (list I * S) :=
  match l with
  | [] => Ok ([], s)
  | a :: r =>
      '(ys, s1) ← body a s;
      '(zs, s2) ← for_each body r s1;
      mret (ys ++ zs, s2)
  end.

Definition seen (w : word) (found_words : list word) : bool :=
  bool_decide (w ∈ found_words).

(** [_crawl] on a node of the graph: the words yielded, in order, and the
    set [found_words] afterwards. *)
Fixpoint _crawl (fuel : nat) (h : arena) (node : nat) (partial_word : word)
    (found_words : list word) (wrapped : bool) : outcome (list word * list word) :=
  match fuel with
  | 0 => NoFuel
  | S fuel' =>
      let '(first, found1) :=
        if is_end h node && negb (seen partial_word found_words)
        then ([partial_word], partial_word :: found_words)
        else ([], found_words) in
      '(rest, found2) ←
        for_each (fun '(char, next_node) found =>
            if eqc char plus
            then _crawl fuel' h next_node partial_word found true
            else
              let new_partial_word :=
                if wrapped then partial_word ++ [char] else char :: partial_word in
              _crawl fuel' h next_node new_partial_word found wrapped)
          (Node._edges (node_at h node)) found1;
      mret (first ++ rest, found2)
  end.

(** [_crawl_end] on a node of the graph. *)
Fixpoint _crawl_end (fuel : nat) (h : arena) (node : nat) (partial_word : word)
    : outcome (list word) :=
  match fuel with
  | 0 => NoFuel
  | S fuel' =>
      let first :=
        match edge h node plus with
        | Some p => if is_end h p then [partial_word] else []
        | None => []
        end in
      '(rest, _) ←
        for_each (fun '(char, next_node) (_ : unit) =>
            if eqc char plus then Ok ([], tt)
            else ws ← _crawl_end fuel' h next_node (char :: partial_word);
                 mret (ws, tt))
          (Node._edges (node_at h node)) tt;
      mret (first ++ rest)
  end.

(** The body of a generator made by [_crawl(start_node, ...)], where
    [start_node] may be None: [None.is_end] is an AttributeError. *)
Definition crawl_body (h : arena) (start_node : option nat) (partial_word : word)
    (wrapped : bool) (fuel : nat) : outcome (list word) :=
  match start_node with
  | None => Raise AttributeError
  | Some n => r ← _crawl fuel h n partial_word [] wrapped; mret (fst r)
  end.

(** The body of a generator made by [_crawl_end(start_node, ...)]:
    [None["+"]] is a TypeError, on which the body returns. *)
Definition crawl_end_body (h : arena) (start_node : option nat) (partial_word : word)
    (fuel : nat) : outcome (list word) :=
  match start_node with
  | None => Ok []
  | Some n => _crawl_end fuel h n partial_word
  end.

(** [contains].  The call to [_crawl] only makes the generator, so the
    [except TypeError] around it catches nothing. *)
Definition contains (g : GADDAG) (sub : word) : sequence word :=
  let start_node := follow (nodes g) (_root g) (rev sub) in
  Generator (crawl_body (nodes g) start_node sub false).

(** [starts_with] *)
Definition starts_with (g : GADDAG) (prefix : word) : sequence word :=
  match follow (nodes g) (_root g) (rev prefix) with
  | None => EmptySet
  | Some n =>
      match edge (nodes g) n plus with
      | None => EmptySet
      | Some start_node =>
          Generator (crawl_body (nodes g) (Some start_node) prefix true)
      end
  end.

(** [ends_with] *)
Definition ends_with (g : GADDAG) (suffix : word) : sequence word :=
  let start_node := follow (nodes g) (_root g) (rev suffix) in
  Generator (crawl_end_body (nodes g) start_node suffix).

(** [get_newlist]: [flag] is the truth value of the third argument. *)
Definition get_newlist (char : ascii) (lst : list ascii) (flag : bool)
    : outcome (list ascii) :=
  if negb flag || bool_decide (lst = []) then Ok lst
  else if mem char lst
       then match remove_first char lst with
            | Some l => Ok l
            | None => Raise ValueError
            end
       else match remove_first space lst with
            | Some l => Ok l
            | None => Raise ValueError
            end.

Definition nonempty {A} (l : list A) : bool :=
  match l with [] => false | _ => true end.

(** [_crawl_lett]: yields pairs (letters added in front, word). *)
Fixpoint _crawl_lett (fuel : nat) (h : arena) (node : nat) (partial_word : word)
    (letters : list ascii) (no : nat) (found_words : list word) (wrapped : bool)
    : outcome (list (nat * word) * list word) :=
  match fuel with
  | 0 => NoFuel
  | S fuel' =>
      let '(first, found1) :=
        if is_end h node && negb (seen partial_word found_words)
        then ([(no, partial_word)], partial_word :: found_words)
        else ([], found_words) in
      '(rest, found2) ←
        for_each (fun '(char, next_node) found =>
            if eqc char plus
            then _crawl_lett fuel' h next_node partial_word letters no found true
            else if nonempty letters && (mem char letters || mem space letters)
            then
              new_letters ← get_newlist char letters (nonempty letters);
              if wrapped
              then _crawl_lett fuel' h next_node (partial_word ++ [char])
                     new_letters no found wrapped
              else _crawl_lett fuel' h next_node (char :: partial_word)
                     new_letters (S no) found wrapped
            else Ok ([], found))
          (Node._edges (node_at h node)) found1;
      mret (first ++ rest, found2)
  end.

(** [_crawl_end_lett] *)
Fixpoint _crawl_end_lett (fuel : nat) (h : arena) (node : nat) (partial_word : word)
    (letters : list ascii) : outcome (list word) :=
  match fuel with
  | 0 => NoFuel
  | S fuel' =>
      let first :=
        match edge h node plus with
        | Some p => if is_end h p then [partial_word] else []
        | None => []
        end in
      '(rest, _) ←
        for_each (fun '(char, next_node) (_ : unit) =>
            if negb (eqc char plus) && nonempty letters && mem char letters
            then new_letters ← get_newlist char letters true;
                 ws ← _crawl_end_lett fuel' h next_node (char :: partial_word)
                        new_letters;
                 mret (ws, tt)
            else Ok ([], tt))
          (Node._edges (node_at h node)) tt;
      mret (first ++ rest)
  end.

(** [contains_lett] *)
Definition contains_lett (g : GADDAG) (sub : word) (letters : list ascii)
    : sequence (nat * word) :=
  match follow (nodes g) (_root g) (rev sub) with
  | None => EmptySet
  | Some start_node =>
      Generator (fun fuel =>
        r ← _crawl_lett fuel (nodes g) start_node sub letters 0 [] false;
        mret (fst r))
  end.

(** [starts_with_lett] *)
Definition starts_with_lett (g : GADDAG) (prefix : word) (letters : list ascii)
    : sequence (nat * word) :=
  match follow (nodes g) (_root g) (rev prefix) with
  | None => EmptySet
  | Some n =>
      match edge (nodes g) n plus with
      | None => EmptySet
      | Some start_node =>
          Generator (fun fuel =>
            r ← _crawl_lett fuel (nodes g) start_node prefix letters 0 [] true;
            mret (fst r))
      end
  end.

(** [ends_with_lett] *)
Definition ends_with_lett (g : GADDAG) (suffix : word) (letters : list ascii)
    : sequence word :=
  let start_node := follow (nodes g) (_root g) (rev suffix) in
  Generator (fun fuel =>
    match start_node with
    | None => Ok []
    | Some n => _crawl_end_lett fuel (nodes g) n suffix letters
    end).

(** The dict [pattern] of [contains_lett_patt]: position to letter. *)
Fixpoint patt_get (pattern : list (nat * ascii)) (pos : nat) : option ascii :=
  match pattern with
  | [] => None
  | (k, v) :: r => if k =? pos then Some v else patt_get r pos
  end.

(** [_crawl_lett_patt]; a [letters] that is None behaves as the empty list. *)
Fixpoint _crawl_lett_patt (fuel : nat) (h : arena) (node : nat) (partial_word : word)
    (letters : list ascii) (pattern : list (nat * ascii)) (no pos : nat)
    (found_words : list word) (wrapped : bool)
    : outcome (list (nat * word) * list word) :=
  match fuel with
  | 0 => NoFuel
  | S fuel' =>
      let '(first, found1) :=
        if is_end h node && negb (seen partial_word found_words)
        then ([(no, partial_word)], partial_word :: found_words)
        else ([], found_words) in
      '(rest, found2) ←
        for_each (fun '(char, next_node) found =>
            let c0 := negb (nonempty letters)
                      || (mem char letters || mem space letters) in
            let c1 := bool_decide (is_Some (patt_get pattern pos)) in
            let c2 := bool_decide (patt_get pattern pos = Some char) in
            if eqc char plus
            then _crawl_lett_patt fuel' h next_node partial_word letters pattern
                   no pos found true
            else if wrapped && (c2 || (negb c1 && c0))
            then
              new_letters ← get_newlist char letters (nonempty letters && negb c2);
              _crawl_lett_patt fuel' h next_node (partial_word ++ [char])
                new_letters pattern no (S pos) found wrapped
            else if negb wrapped && c0
            then
              new_letters ← get_newlist char letters (nonempty letters);
              _crawl_lett_patt fuel' h next_node (char :: partial_word)
                new_letters pattern (S no) pos found wrapped
            else Ok ([], found))
          (Node._edges (node_at h node)) found1;
      mret (first ++ rest, found2)
  end.

(** [contains_lett_patt] *)
Definition contains_lett_patt (g : GADDAG) (sub : word) (letters : list ascii)
    (pattern : list (nat * ascii)) : sequence (nat * word) :=
  match follow (nodes g) (_root g) (rev sub) with
  | None => EmptySet
  | Some start_node =>
      Generator (fun fuel =>
        r ← _crawl_lett_patt fuel (nodes g) start_node sub letters pattern 0 0 [] false;
        mret (fst r))
  end.

(** [GADDAG.check_pattern] *)
Definition gaddag_check_pattern (partial_word pattern : word) : bool :=
  bool_decide (length partial_word = length pattern)
  && forallb (fun '(x, p) => eqc p dash || eqc x p) (zip partial_word pattern).

(** [_crawl_find_lett_patt] *)
Fixpoint _crawl_find_lett_patt (fuel : nat) (h : arena) (node : nat)
    (partial_word : word) (letters : list ascii) (pattern : word)
    (found_words : list word) (wrapped : bool)
    : outcome (list word * list word) :=
  match fuel with
  | 0 => NoFuel
  | S fuel' =>
      let '(first, found1) :=
        if is_end h node && negb (seen partial_word found_words)
           && gaddag_check_pattern partial_word pattern
        then ([partial_word], partial_word :: found_words)
        else ([], found_words) in
      '(rest, found2) ←
        for_each (fun '(char, next_node) found =>
            if eqc char plus
            then _crawl_find_lett_patt fuel' h next_node partial_word letters
                   pattern found true
            else if mem char letters && (length partial_word <? length pattern)
            then
              let new_partial_word :=
                if wrapped then partial_word ++ [char] else char :: partial_word in
              new_letters ← get_newlist char letters (nonempty letters);
              _crawl_find_lett_patt fuel' h next_node new_partial_word new_letters
                pattern found wrapped
            else Ok ([], found))
          (Node._edges (node_at h node)) found1;
      mret (first ++ rest, found2)
  end.

(** The loop of [find_lett_patt] that appends to [letters]. *)
Fixpoint append_alpha (letters : list ascii) (pattern : word) : list ascii :=
  match pattern with
  | [] => letters
  | char :: r =>
      append_alpha (if is_alpha char then letters ++ [char] else letters) r
  end.

(** [find_lett_patt].  The list [letters] is the caller's object and the
    call appends to it: the first component is that list after the call.
    The generator is made on the extended list. *)
Definition find_lett_patt (g : GADDAG) (letters : list ascii) (pattern : word)
    : list ascii * sequence word :=
  let letters' := append_alpha letters pattern in
  (letters',
   Generator (fun fuel =>
     r ← _crawl_find_lett_patt fuel (nodes g) (_root g) [] letters' pattern [] false;
     mret (fst r))).

(** ** Calls that change an object: state and outcome

    [M S A]: a call on an object whose state has type [S].  The state comes
    back as the call left it, also when the call raises. *)

Definition M (S A : Type) : Type := S -> S * outcome A.

#[global] Instance M_ret {S} : MRet (M S) := fun A a s => (s, Ok a).

#[global] Instance M_bind {S} : MBind (M S) := fun A B k m s =>
  match m s with
  | (s', Ok a) => k a s'
  | (s', Raise e) => (s', Raise e)
  | (s', NoFuel) => (s', NoFuel)
  end.

(** A computation that reads the state only. *)
Definition lift {S A} (f : S -> outcome A) : M S A := fun s => (s, f s).

Definition modify {S} (f : S -> S) : M S unit := fun s => (f s, Ok tt).

(** [for a in l: body(a)] *)
Fixpoint for_ {S A} (l : list A) (body : A -> M S unit) : M S unit :=
  match l with
  | [] => mret tt
  | a :: r => body a ≫= (fun _ => for_ r body)
  end.

(** [for a in l: x = body(a, x)] without a state: a left fold that stops at
    the first exception. *)
Fixpoint fold_outcome {A X} (body : X -> A -> outcome X) (l : list A) (x : X)
    : outcome X :=
  match l with
  | [] => Ok x
  | a :: r => x' ← body x a; fold_outcome body r x'
  end.

(** [[a for a in l if test(a)]] where [test] may raise. *)
Fixpoint filter_outcome {A} (test : A -> outcome bool) (l : list A)
    : outcome (list A) :=
  match l with
  | [] => Ok []
  | a :: r => b ← test a; r' ← filter_outcome test r;
              mret (if b : bool then a :: r' else r')
  end.

(** ** class Solver *)

Abbreviation grid := (list (list ascii)).

(** The state that [check_diagonal] works on: the store of row objects and
    the list object [letters]. *)
Abbreviation dstate := (list (list ascii) * list ascii)%type.

(** [g[r][c]] *)
Definition cell (g : grid) (r c : nat) : outcome ascii :=
  row ← index g r; index row c.

(** [g[r][c] = v] *)
Definition set_cell (g : grid) (r c : nat) (v : ascii) : outcome grid :=
  row ← index g r; row' ← assign row c v; mret (<[r := row']> g).

(** [for row in range(5): for col in range(5)] *)
Definition positions : list (nat * nat) :=
  r ← seq 0 5; c ← seq 0 5; [(r, c)].

(** An element of the list that [solve] returns: a grid, or the string
    ["ERROR"]. *)
Inductive entry :=
| ERROR
| Grid (g : grid).

(** [list.sort] on characters. *)
Fixpoint insert_sorted (c : ascii) (l : list ascii) : list ascii :=
  match l with
  | [] => [c]
  | x :: t => if nat_of_ascii c <=? nat_of_ascii x then c :: x :: t
              else x :: insert_sorted c t
  end.

Definition sort (l : list ascii) : list ascii := foldr insert_sorted [] l.

Module Solver.

(** The row lists of a pattern grid are objects that [start_grid] and
    [init_grid] share: [rows] is the store of these objects and a grid of
    the solver is the list of the addresses of its rows.  [init_grid] and
    [solutions] are None until [solve] runs. *)
Record t := mk {
  graph : GADDAG;
  rows : list (list ascii);
  letters : list ascii;
  occurrences : list (ascii * nat);
  start_grid : list nat;
  init_grid : option (list nat);
  singles : list ascii;
  even : list ascii;
  odd : list ascii;
  solutions : option (list entry)
}.

(** [Solver()], the lexicon being the graph that [safeload] read. *)
Definition init (g : GADDAG) : t := mk g [] [] [] [] None [] [] [] None.

(** The dict [occurrences]: [d[let] = d.get(let, 0) + 1]. *)
Fixpoint bump (d : list (ascii * nat)) (c : ascii) : list (ascii * nat) :=
  match d with
  | [] => [(c, 1)]
  | (k, n) :: r => if eqc k c then (k, S n) :: r else (k, n) :: bump r c
  end.

(** [if let in letters: letters.remove(let)] for every used letter. *)
Definition remove_used (pool used : list ascii) : list ascii :=
  foldl (fun l c => default l (remove_first c l)) pool used.

(** [set_problem]: [rack] is the argument [letters]. *)
Definition set_problem (s : t) (rack patterns : list word) : t :=
  let sorted := sort (lower_word (concat rack)) in
  let new_rows := map lower_word patterns in
  let occ := foldl bump [] sorted in
  let used := filter (fun c => is_alpha c = true) (concat new_rows) in
  mk (graph s)
     (rows s ++ new_rows)
     (remove_used sorted used)
     occ
     (seq (length (rows s)) (length patterns))
     (init_grid s)
     (map fst (filter (fun kn => snd kn = 1) occ))
     (map fst (filter (fun kn => snd kn ≠ 1 ∧ Nat.even (snd kn) = true) occ))
     (map fst (filter (fun kn => Nat.odd (snd kn) = true) occ))
     (solutions s).


(** [grid[r][c]] through the store. *)
Definition read (grid : list nat) (r c : nat) : M dstate ascii :=
  lift (fun s : dstate => a ← index grid r; row ← index (fst s) a; index row c).

(** [grid[r][c] = v]: a write into the row object. *)
Definition write (grid : list nat) (r c : nat) (v : ascii) : M dstate unit :=
  fun s : dstate =>
    match (a ← index grid r; row ← index (fst s) a; row' ← assign row c v;
           mret (<[a := row']> (fst s))) with
    | Ok st => ((st, snd s), Ok tt)
    | Raise e => (s, Raise e)
    | NoFuel => (s, NoFuel)
    end.

(** [letters.remove(c)] *)
Definition remove_letter (c : ascii) : M dstate unit :=
  fun s : dstate =>
    match remove_first c (snd s) with
    | Some l => ((fst s, l), Ok tt)
    | None => (s, Raise ValueError)
    end.

(** [grid[c][r] = grid[r][c]; letters.remove(grid[c][r])] *)
Definition mirror (grid : list nat) (r c : nat) : M dstate unit :=
  v ← read grid r c;
  _ ← write grid c r v;
  z ← read grid c r;
  remove_letter z.

(** The body of the two loops of [check_diagonal]. *)
Definition diagonal_step (grid : list nat) (rc : nat * nat) : M dstate unit :=
  let '(row, col) := rc in
  x ← read grid row col;
  b1 ← (if is_alpha x then y ← read grid col row; mret (eqc y dash)
        else mret false);
  if b1 : bool then mirror grid row col
  else
    y ← read grid col row;
    b2 ← (if is_alpha y then x' ← read grid row col; mret (eqc x' dash)
          else mret false);
    if b2 : bool then mirror grid col row else mret tt.

(** [check_diagonal]: [grid[:]] is a new outer list of the same row
    objects, so the grid returned has the addresses of the grid given.
    The ValueError of [letters.remove] is caught and empties [letters]. *)
Definition check_diagonal (grid : list nat) : M dstate (list nat) :=
  fun s : dstate =>
    let grid' := grid in
    match for_ positions (diagonal_step grid') s with
    | (s', Ok _) => (s', Ok grid')
    | (s', Raise ValueError) => ((fst s', []), Ok grid')
    | (s', Raise e) => (s', Raise e)
    | (s', NoFuel) => (s', NoFuel)
    end.

(** [check_singles] *)
Definition check_singles (singles_ : list ascii) (row : nat) (w : word) : bool :=
  forallb (fun '(pos, c) => negb (mem c singles_ && negb (pos =? row)))
          (imap (fun pos c => (pos, c)) w).

(** [get_letters] *)
Definition get_letters (w : word) (pool : list ascii) (row : nat) (pattern : word)
    : outcome (list ascii) :=
  fold_outcome (fun new_letters i =>
      wi ← index w i; pi ← index pattern i;
      if eqc wi pi then Ok new_letters
      else
        match remove_first wi new_letters with
        | None => Raise ValueError
        | Some l1 =>
            if i =? row then Ok l1
            else match remove_first wi l1 with
                 | None => Raise ValueError
                 | Some l2 => Ok l2
                 end
        end)
    (seq 0 5) pool.

(** [check_pattern] *)
Definition check_pattern (row : nat) (w : word) (pool : list ascii) (pattern : word)
    : outcome bool :=
  w1 ← fold_outcome (fun w' i =>
          wi ← index w' i; pi ← index pattern i;
          if eqc wi pi then assign w' i dash else Ok w')
        (seq 0 5) w;
  let w2 := w1 ++ w1 in
  c ← index w2 row;
  w3 ← match remove_first c w2 with
       | Some l => Ok l
       | None => Raise ValueError
       end;
  fold_outcome (fun ok i =>
      if ok : bool then
        wi ← index w3 i;
        mret (negb (is_alpha wi && (count wi pool <? count wi w3)))
      else Ok false)
    (seq 0 5) true.

(** [get_pattern] *)
Definition get_pattern (row : nat) (solution : grid) : outcome word :=
  index solution row.

(** [set_word] *)
Definition set_word (w : word) (row : nat) (solution : grid) : outcome grid :=
  fold_outcome (fun sol i =>
      wi ← index w i;
      sol1 ← set_cell sol row i wi;
      wi' ← index w i;
      set_cell sol1 i row wi')
    (seq 0 5) solution.

(** [transpose]: the zip of the rows stops at the shortest row. *)
Definition transpose (lst : grid) : grid :=
  match lst with
  | [] => []
  | r0 :: _ =>
      let n := foldr (fun r m => min (length r) m) (length r0) lst in
      map (fun j => map (fun r => nth j r dash) lst) (seq 0 n)
  end.

(** [check_muddle] *)
Definition check_muddle (muddle : grid) : bool :=
  if existsb (mem dash) muddle then false
  else
    let t_muddle := transpose muddle in
    bool_decide (length muddle = length t_muddle)
    && forallb (fun row => bool_decide (row ∈ t_muddle)) muddle.

(** The rows of a grid, read from the store.  An address that a grid holds
    is the address of a row. *)
Definition deref (st : list (list ascii)) (g : list nat) : grid :=
  map (fun a => default [] (st !! a)) g.

(** [solution[rw][col] = self.init_grid[rw][col]] where [rw >= row] and
    [col >= row]. *)
Definition reset_cell (row : nat) (init_ : grid) (solution : grid)
    (rc : nat * nat) : outcome grid :=
  let '(rw, col) := rc in
  if (row <=? rw) && (row <=? col)
  then v ← cell init_ rw col; set_cell solution rw col v
  else Ok solution.

Definition pure {S A} (o : outcome A) : M S A := fun s => (s, o).

(** [for a in l: x = body(x, a)] on an object. *)
Fixpoint fold_M {S A X} (body : X -> A -> M S X) (l : list A) (x : X) : M S X :=
  match l with
  | [] => mret x
  | a :: r => body x a ≫= fold_M body r
  end.

(** [traverse].  The state is the list [self.solutions].  The rows of
    [solution] are copies that no other name reaches, so the grid is passed
    as a value and comes back as the call left it; [init_] is the content
    of [self.init_grid], which [traverse] never writes.  At row 0 the loop
    rebinds [solution] to a new copy of [init_grid]. *)
Fixpoint traverse (graph_ : GADDAG) (singles_ : list ascii) (init_ : grid)
    (fuel : nat) (row : nat) (pool : list ascii) (solution : grid)
    : M (list entry) grid :=
  match fuel with
  | 0 => pure NoFuel
  | S fuel' =>
      if (4 <? row) && check_muddle solution
      then fun sols => (sols ++ [Grid solution], Ok solution)
      else
        solution1 ← pure (fold_outcome (reset_cell row init_) positions solution);
        pattern ← pure (get_pattern row solution1);
        found ← pure (iterate fuel' (snd (find_lett_patt graph_ pool pattern)));
        let possibles := filter (fun w => check_singles singles_ row w = true) found in
        possibles' ← pure (filter_outcome
                             (fun w => check_pattern row w pool pattern) possibles);
        fold_M (fun sol w =>
            let sol0 := if row =? 0 then init_ else sol in
            sol1 ← pure (set_word w row sol0);
            new_letters ← pure (get_letters w pool row pattern);
            traverse graph_ singles_ init_ fuel' (S row) new_letters sol1)
          possibles' solution1
  end.

Definition set_diagonal (s : t) (d : dstate) (g : option (list nat)) : t :=
  mk (graph s) (fst d) (snd d) (occurrences s) (start_grid s) g
     (singles s) (even s) (odd s) (solutions s).

Definition set_solutions (s : t) (l : list entry) : t :=
  mk (graph s) (rows s) (letters s) (occurrences s) (start_grid s) (init_grid s)
     (singles s) (even s) (odd s) (Some l).

(** [try_grid] *)
Definition try_grid (fuel : nat) : M t unit :=
  fun s =>
    match check_diagonal (start_grid s) (rows s, letters s) with
    | (d, Ok g) =>
        let s1 := set_diagonal s d (Some g) in
        if nonempty (letters s1)
        then
          let init_ := deref (rows s1) g in
          match traverse (graph s1) (singles s1) init_ fuel 0 (letters s1) init_
                  (default [] (solutions s1)) with
          | (sols, Ok _) => (set_solutions s1 sols, Ok tt)
          | (sols, Raise e) => (set_solutions s1 sols, Raise e)
          | (sols, NoFuel) => (set_solutions s1 sols, NoFuel)
          end
        else (set_solutions s1 [ERROR], Ok tt)
    | (d, Raise e) => (set_diagonal s d (init_grid s), Raise e)
    | (d, NoFuel) => (set_diagonal s d (init_grid s), NoFuel)
    end.

(** [solve] *)
Definition solve (fuel : nat) : M t (list entry) :=
  fun s =>
    match try_grid fuel (set_solutions s []) with
    | (s1, Ok _) => (s1, Ok (default [] (solutions s1)))
    | (s1, Raise e) => (s1, Raise e)
    | (s1, NoFuel) => (s1, NoFuel)
    end.

End Solver.

(** ** More of class GADDAG *)

(** [__iter__]: the generator [_crawl_end(self.root, [])]. *)
Definition __iter__ (g : GADDAG) : sequence word :=
  Generator (crawl_end_body (nodes g) (Some (_root g)) []).

(** [__len__].  [_len] is the attribute as the call finds it, 0 after
    [__init__]; the words are counted again when the graph has changed, and
    the call returns the attribute as it leaves it. *)
Definition __len__ (fuel : nat) (g : GADDAG) (_len : nat) : outcome nat :=
  if _changed g then ws ← iterate fuel (__iter__ g); mret (length ws)
  else Ok _len.

(** ** The queries with a length *)

(** [_crawl_no]: the int [no] is the length asked for.  What the crawl of
    an edge yields goes through the test [len(word) == no]; the word at
    the node itself does not. *)
Fixpoint _crawl_no (fuel : nat) (h : arena) (node : nat) (partial_word : word)
    (no : Z) (found_words : list word) (wrapped : bool)
    : outcome (list word * list word) :=
  match fuel with
  | 0 => NoFuel
  | S fuel' =>
      let '(first, found1) :=
        if is_end h node && negb (seen partial_word found_words)
        then ([partial_word], partial_word :: found_words)
        else ([], found_words) in
      '(rest, found2) ←
        for_each (fun '(char, next_node) found =>
            if eqc char plus
            then
              '(ws, found') ← _crawl_no fuel' h next_node partial_word no found true;
              mret (filter (fun w => Z.of_nat (length w) = no) ws, found')
            else if (Z.of_nat (length partial_word) <? no)%Z
            then
              let new_partial_word :=
                if wrapped then partial_word ++ [char] else char :: partial_word in
              '(ws, found') ← _crawl_no fuel' h next_node new_partial_word no
                                found wrapped;
              mret (filter (fun w => Z.of_nat (length w) = no) ws, found')
            else Ok ([], found))
          (Node._edges (node_at h node)) found1;
      mret (first ++ rest, found2)
  end.

(** [_crawl_end_no] *)
Fixpoint _crawl_end_no (fuel : nat) (h : arena) (node : nat) (partial_word : word)
    (no : Z) : outcome (list word) :=
  match fuel with
  | 0 => NoFuel
  | S fuel' =>
      let first :=
        match edge h node plus with
        | Some p => if is_end h p then [partial_word] else []
        | None => []
        end in
      '(rest, _) ←
        for_each (fun '(char, next_node) (_ : unit) =>
            if negb (eqc char plus) && (Z.of_nat (length partial_word) <? no)%Z
            then ws ← _crawl_end_no fuel' h next_node (char :: partial_word) no;
                 mret (filter (fun w => Z.of_nat (length w) = no) ws, tt)
            else Ok ([], tt))
          (Node._edges (node_at h node)) tt;
      mret (first ++ rest)
  end.

(** [starts_with_no] *)
Definition starts_with_no (g : GADDAG) (prefix : word) (no : Z) : sequence word :=
  match follow (nodes g) (_root g) (rev prefix) with
  | None => EmptySet
  | Some n =>
      match edge (nodes g) n plus with
      | None => EmptySet
      | Some start_node =>
          Generator (fun fuel =>
            r ← _crawl_no fuel (nodes g) start_node prefix no [] true;
            mret (fst r))
      end
  end.

(** [ends_with_no]: on a start node that is None the generator returns at
    the TypeError of [node["+"]]. *)
Definition ends_with_no (g : GADDAG) (suffix : word) (no : Z) : sequence word :=
  let start_node := follow (nodes g) (_root g) (rev suffix) in
  Generator (fun fuel =>
    match start_node with
    | None => Ok []
    | Some n => _crawl_end_no fuel (nodes g) n suffix no
    end).

(** * Definitions used by the statements *)

(** A lexicon with one symmetric square, and the rack of that square. *)
Definition heart_words : list word :=
  map chars ["heart"; "ember"; "abuse"; "resin"; "trend"]%string.

Definition heart_lexicon : GADDAG := fst (build heart_words).

Definition empty_pattern : list word :=
  map chars ["-----"; "-----"; "-----"; "-----"; "-----"]%string.

(** [g[r][c]] when both indices are in range. *)
Definition at_ (g : grid) (r c : nat) : option ascii :=
  match g !! r with
  | Some row => row !! c
  | None => None
  end.

(** The cell [(r, c)] of a grid of the solver, read through the store. *)
Definition cellv (st : list (list ascii)) (g : list nat) (r c : nat) : option ascii :=
  match g !! r with
  | Some a => at_ st a c
  | None => None
  end.

(** A pattern of five rows of five cells. *)
Definition five_by_five (p : list word) : Prop :=
  length p = 5 ∧ Forall (fun row => length row = 5) p.

(** A graph as a file may hold it: the node for the path ["a"; "+"] has an
    edge ["b"] to a node whose only edge is ["x"]. *)
Definition clash_graph : GADDAG :=
  mkGADDAG
    [ Node.mk [("a", 1)] false;
      Node.mk [(plus, 2)] false;
      Node.mk [("b", 3)] false;
      Node.mk [("x", 4)] false;
      Node.mk [] true ]
    0 false.



(** Every cell of the 5x5 square of a stored grid is there. *)
Definition shape5 (st : list (list ascii)) (g : list nat) : Prop :=
  forall r c, r < 5 -> c < 5 -> is_Some (cellv st g r c).

(** How [check_diagonal] may change the store and the letters: a cell
    keeps its content or goes from ["-"] to a letter, and no letter is
    gained. *)
Definition evolves (g : list nat) (s s' : dstate) : Prop :=
  (forall r c,
      cellv (fst s') g r c = cellv (fst s) g r c
      \/ (cellv (fst s) g r c = Some dash
          /\ exists x, cellv (fst s') g r c = Some x /\ is_alpha x = true))
  /\ (forall z, count z (snd s') <= count z (snd s))
  /\ (snd s = [] -> snd s' = []).

(** Some cell went from ["-"] to a letter. *)
Definition changed (g : list nat) (s s' : dstate) : Prop :=
  exists r c x,
    cellv (fst s) g r c = Some dash
    /\ cellv (fst s') g r c = Some x /\ is_alpha x = true.

(** The rack of the heart square with its two letters "a" replaced. *)
Definition rack_without_a : list word :=
  map chars ["hezrt"; "ember"; "zbuse"; "resin"; "trend"]%string.

Definition pattern_a_at_0_2 : list word :=
  map chars ["--a--"; "-----"; "-----"; "-----"; "-----"]%string.

(** The cells of the 5x5 square with both indices below [k]: each is there,
    equals its mirror cell, and off the diagonal holds no letter of
    [singles_]. *)
Definition settled (singles_ : list ascii) (k : nat) (sol : grid) : Prop :=
  forall r c, r < 5 -> c < 5 -> r < k -> c < k ->
    exists x, at_ sol r c = Some x /\ at_ sol c r = Some x
              /\ (r <> c -> x ∉ singles_).

(** What holds of every element of [self.solutions]. *)
Definition good (singles_ : list ascii) (e : entry) : Prop :=
  match e with
  | ERROR => True
  | Grid g => settled singles_ 5 g /\ (forall row, row ∈ g -> dash ∉ row)
  end.

(** [occurrences.get(x, 0)] *)
Fixpoint occ_get (d : list (ascii * nat)) (x : ascii) : nat :=
  match d with
  | [] => 0
  | (k, n) :: r => if eqc k x then n else occ_get r x
  end.

(** *** The shape of a graph that insertions build

    What a node of such a graph stands for: [Trie u] is the node at the end
    of the letters [u] from the root (a reversed prefix), [Plus p] is the
    node behind the edge ["+"] of [Trie (rev p)], and [Leaf] is an end node
    that [add_end] made behind a last letter. *)
Inductive kind :=
| Trie (u : word)
| Plus (p : word)
| Leaf.

Definition okedge (ki : kind) (c : ascii) (kj : kind) : Prop :=
  match ki with
  | Trie u => if decide (c = plus) then kj = Plus (rev u) else kj = Trie (u ++ [c])
  | Plus p => c <> plus /\ (kj = Plus (p ++ [c]) \/ kj = Leaf)
  | Leaf => False
  end.

(** [ks] gives every node of the arena its kind. *)
Record Inv (h : arena) (root : nat) (ks : list kind) : Prop := mkInv {
  inv_len : length ks = length h;
  inv_root : ks !! root = Some (Trie []);
  inv_nodup : forall i, NoDup (Node.labels (node_at h i));
  inv_edge : forall i c j, edge h i c = Some j ->
    exists ki kj, ks !! i = Some ki /\ ks !! j = Some kj /\ okedge ki c kj;
  inv_inj : forall i j k, ks !! i = Some k -> ks !! j = Some k -> k <> Leaf -> i = j;
  inv_trie : forall j u c, ks !! j = Some (Trie (u ++ [c])) ->
    exists i, ks !! i = Some (Trie u) /\ edge h i c = Some j;
  inv_plus : forall j p, ks !! j = Some (Plus p) ->
    exists i, ks !! i = Some (Trie (rev p)) /\ edge h i plus = Some j;
  inv_leaf : forall i p c j,
    ks !! i = Some (Plus p) -> edge h i c = Some j -> ks !! j = Some Leaf ->
    exists k, ks !! k = Some (Plus (p ++ [c])) /\ is_end h k = true
}.

(** How an insertion may change the arena: end marks stay, and an edge
    stays or, when it led to a node without edges, leads to an end node. *)
Definition ext (h h' : arena) : Prop :=
  (forall i, is_end h i = true -> is_end h' i = true)
  /\ (forall i c j, edge h i c = Some j ->
        edge h' i c = Some j
        \/ ((forall c', edge h j c' = None)
            /\ exists j', edge h' i c = Some j' /\ is_end h' j' = true)).

(** The characters [cs] lead from [n] to an end node. *)
Definition ends_at (h : arena) (n : nat) (cs : word) : Prop :=
  exists e, follow h n cs = Some e /\ is_end h e = true.

(** The invariant of the index for the word [w]: for every split position
    the path of the reversed prefix, the split marker and the suffix leads
    from the root to an end node. *)
Definition indexed (h : arena) (root : nat) (w : word) : Prop :=
  forall k, 1 <= k <= length w ->
    ends_at h root (rev (take k w) ++ plus :: drop k w).

(** The prefixes of [w] of length [k0] and more have their suffix path. *)
Definition chain (h : arena) (ks : list kind) (w : word) (k0 : nat) : Prop :=
  forall k, k0 <= k <= length w ->
    exists j, ks !! j = Some (Plus (take k w)) /\ ends_at h j (drop k w).

(** The word under construction in a crawl: [wrapped] tells whether the
    letters go behind or in front. *)
Definition extend (pw : word * bool) (c : ascii) : word * bool :=
  if eqc c plus then (fst pw, true)
  else if snd pw then (fst pw ++ [c], true) else (c :: fst pw, false).

Definition run (pw : word * bool) (cs : word) : word * bool :=
  foldl extend pw cs.

Definition kind_len (k : kind) : nat :=
  match k with
  | Trie u => length u
  | Plus p => length p
  | Leaf => 0
  end.

(** A measure that every edge decreases, [L] bounding the lengths. *)
Definition rank (L : nat) (k : kind) : nat :=
  match k with
  | Trie u => 2 * L + 2 - length u
  | Plus p => L + 1 - length p
  | Leaf => 0
  end.

(** The word [w] of the list [ws] was written into the graph: the [add]
    that met it returned True. *)
Definition inserted (ws : list word) (w : word) : Prop :=
  exists ws1 ws2,
    ws = ws1 ++ w :: ws2 /\ snd (add (fst (build ws1)) w) = Ok true.

(** An operation took the arena [h] with kinds [ks] to [h'] with [ks']. *)
Definition grows (root : nat) (h : arena) (ks : list kind)
    (h' : arena) (ks' : list kind) : Prop :=
  Inv h' root ks' /\ ext h h' /\ ks `prefix_of` ks'.

(** What a crawl that starts with the set [F] yields and leaves as the set:
    the words yielded are new, distinct, and exactly what the set gained. *)
Definition post (F ys F' : list word) : Prop :=
  (forall v, v ∈ F' <-> v ∈ F \/ v ∈ ys)
  /\ NoDup ys
  /\ (forall v, v ∈ ys -> v ∉ F).

(** The end marks of the graph stand for the words of [W]: a node that is
    marked as an end is behind the split marker, where it spells a word of
    [W], or it is a node without edges at the end of a suffix. *)
Definition marked (h : arena) (ks : list kind) (W : list word) : Prop :=
  forall j, is_end h j = true ->
    ks !! j = Some Leaf \/ exists p, ks !! j = Some (Plus p) /\ p ∈ W.

(** The graph [g] holds the lexicon [W]: its end marks stand for the words
    of [W], and every word of [W] is indexed at all its split positions. *)
Record lexicon (g : GADDAG) (ks : list kind) (W : list word) : Prop := mkLexicon {
  lex_inv : Inv (nodes g) (_root g) ks;
  lex_marked : marked (nodes g) ks W;
  lex_words : forall w, w ∈ W -> w <> [] /\ plus ∉ w;
  lex_indexed : forall w, w ∈ W -> indexed (nodes g) (_root g) w
}.

(** A word list as [add] takes it for a lexicon of lower-case words. *)
Definition lowercase_words (ws : list word) : Prop :=
  Forall (fun w => w <> [] /\ Forall (fun c => is_alpha c = true) w
                   /\ lower_word w = w) ws.

(** The position of a node in a crawl agrees with the word built so far. *)
Definition coherent (h : arena) (ks : list kind) (k : kind) (pw : word * bool) : Prop :=
  match k with
  | Trie u => pw = (rev u, false)
  | Plus p => pw = (p, true)
  | Leaf => snd pw = true
            /\ exists j, ks !! j = Some (Plus (fst pw)) /\ is_end h j = true
  end.

(** The letters of a path: its characters other than the split marker. *)
Definition path_letters (cs : word) : list ascii :=
  filter (fun c => c <> plus) cs.

(** The two conditions on a word list as tests. *)
Definition letters_wordsb (ws : list word) : bool :=
  forallb (fun w => nonempty w && forallb is_alpha w) ws.

Definition lowercase_wordsb (ws : list word) : bool :=
  forallb (fun w => nonempty w && forallb is_alpha w
                    && bool_decide (lower_word w = w)) ws.

(** [for x in R: pool.remove(x)]: the removals of [get_letters], one after
    the other. *)
Fixpoint remove_all (R pool : list ascii) : outcome (list ascii) :=
  match R with
  | [] => Ok pool
  | x :: R' =>
      match remove_first x pool with
      | None => Raise ValueError
      | Some l => remove_all R' l
      end
  end.

(** What [get_letters] removes for the position [i] of the word. *)
Definition removed_at (w pattern : word) (row i : nat) : list ascii :=
  match w !! i, pattern !! i with
  | Some a, Some p =>
      if eqc a p then [] else if i =? row then [a] else [a; a]
  | _, _ => []
  end.

(** The word as [check_pattern] marks it: ["-"] where it agrees with the
    pattern. *)
Definition dashed (w pattern : word) : word :=
  zip_with (fun a p => if eqc a p then dash else a) w pattern.

(** A solution under construction when [traverse] is at row [k], for the
    lexicon [W] and the grid [init_]: the rows and columns before [k] are
    filled and mirror each other, each row before [k] is a word of the
    lexicon, and on and above the diagonal these rows keep what [init_]
    has. *)
Record partial (W : list word) (init_ : grid) (k : nat) (sol : grid) : Prop :=
  mkPartial {
    part_shape : five_by_five sol;
    part_filled : forall r c, r < 5 -> c < 5 -> r < k \/ c < k ->
      exists x, at_ sol r c = Some x /\ at_ sol c r = Some x /\ x <> dash;
    part_words : forall r, r < k -> r < 5 -> exists w, sol !! r = Some w /\ w ∈ W;
    part_init : forall r c x, r < k -> r <= c -> c < 5 ->
      at_ init_ r c = Some x -> x <> dash -> at_ sol r c = Some x
  }.

(** What holds of every element of [self.solutions], for the lexicon. *)
Definition solved (W : list word) (init_ : grid) (e : entry) : Prop :=
  match e with
  | ERROR => True
  | Grid g => partial W init_ 5 g
  end.

(** *** What [check_diagonal] does to the grid *)

(** The letter that the cell [rc] hands to its mirror cell in
    [check_diagonal]: the cell holds a letter and its mirror cell holds
    ["-"]. *)
Definition want (cells : nat -> nat -> option ascii) (rc : nat * nat) : list ascii :=
  match cells (fst rc) (snd rc), cells (snd rc) (fst rc) with
  | Some x, Some y => if is_alpha x && eqc y dash then [x] else []
  | _, _ => []
  end.

(** The letters of the filled cells of a grid whose mirror cell is empty. *)
Definition mirror_letters (P : grid) : list ascii := positions ≫= want (at_ P).

(** The diagonal-normalized grid: a cell that holds ["-"] takes the letter
    of its mirror cell when that cell holds one, and every other cell is
    kept. *)
Definition normalize (P : grid) : grid :=
  imap (fun r row =>
    imap (fun c x =>
      match at_ P c r with
      | Some y => if eqc x dash && is_alpha y then y else x
      | None => x
      end) row) P.

(** How [check_diagonal] writes: a cell keeps its content, or it held
    ["-"] and takes the letter that its mirror cell held. *)
Definition mirrors (g : list nat) (s s' : dstate) : Prop :=
  forall r c,
    cellv (fst s') g r c = cellv (fst s) g r c
    \/ (cellv (fst s) g r c = Some dash
        /\ exists x, cellv (fst s) g c r = Some x /\ is_alpha x = true
                     /\ cellv (fst s') g r c = Some x).

(** C10 as stated: whenever the pattern has a filled cell with an empty
    mirror partner, [start_grid] holds the diagonal-normalized grid after
    [solve]. *)
Definition solve_normalizes_start_grid : Prop :=
  forall (s : Solver.t) (rack patterns : list word) (fuel r c : nat) (x : ascii),
    five_by_five patterns ->
    at_ (map lower_word patterns) r c = Some x ->
    is_alpha x = true ->
    at_ (map lower_word patterns) c r = Some dash ->
    let s2 := fst (Solver.solve fuel (Solver.set_problem s rack patterns)) in
    Solver.deref (Solver.rows s2) (Solver.start_grid s2)
    = normalize (map lower_word patterns).

(** A pattern with two letters to mirror, the first of which the rack
    [rack_without_a] does not have. *)
Definition pattern_ab_at_0 : list word :=
  map chars ["--ab-"; "-----"; "-----"; "-----"; "-----"]%string.

(** What a crawl with the length [no] yields and leaves as the set: the
    words yielded are new and distinct, the set keeps what it had, and
    what it gained and did not yield has another length. *)
Definition post_no (no : Z) (F ys F' : list word) : Prop :=
  NoDup ys
  /\ (forall v, v ∈ ys -> v ∉ F /\ v ∈ F')
  /\ (forall v, v ∈ F -> v ∈ F')
  /\ (forall v, v ∈ F' -> v ∈ F \/ v ∈ ys \/ Z.of_nat (length v) <> no).

(** * Properties *)

(** ** Lists of letters *)

Lemma remove_first_Some c l l' :
  remove_first c l = Some l' -> l ≡ₚ c :: l'.
Proof.
  revert l'. induction l as [|x t IH]; intros l'; simpl; [done|].
  unfold eqc. case_bool_decide as Hx.
  - intros [= <-]. by subst.
  - destruct (remove_first c t) as [t'|] eqn:E; simpl; [|done].
    intros [= <-]. rewrite (IH t' eq_refl). apply Permutation_swap.
Qed.

Lemma remove_first_is_Some c l : c ∈ l -> is_Some (remove_first c l).
Proof.
  induction l as [|x t IH]; intros Hin; [by apply elem_of_nil in Hin|].
  simpl. unfold eqc. case_bool_decide as Hx; [eauto|].
  apply elem_of_cons in Hin as [->|Hin]; [done|].
  destruct (IH Hin) as [t' ->]. simpl. eauto.
Qed.

Lemma remove_first_None c l : c ∉ l -> remove_first c l = None.
Proof.
  induction l as [|x t IH]; intros Hin; [done|].
  simpl. unfold eqc. apply not_elem_of_cons in Hin as [Hne Hin].
  case_bool_decide; [congruence|]. by rewrite IH.
Qed.

Lemma count_zero_not_in c l : count c l = 0 -> c ∉ l.
Proof.
  unfold count. intros H Hin.
  assert (c ∈ filter (fun x => x = c) l) as Hf by (apply list_elem_of_filter; done).
  destruct (filter (fun x => x = c) l); [by apply elem_of_nil in Hf | done].
Qed.

Lemma count_remove_first_le c z l l' :
  remove_first z l = Some l' -> count c l' <= count c l.
Proof.
  intros H%remove_first_Some. unfold count.
  rewrite (Permutation_length (filter_Permutation _ _ _ H)).
  rewrite filter_cons. case_decide; simpl; lia.
Qed.

(** ** C9: [find_lett_patt] appends to the caller's list *)

Lemma append_alpha_spec letters pattern :
  append_alpha letters pattern
  = letters ++ filter (fun c => is_alpha c = true) pattern.
Proof.
  revert letters. induction pattern as [|c r IH]; intros letters;
    cbn [append_alpha].
  - simpl. by rewrite app_nil_r.
  - rewrite IH, filter_cons. destruct (is_alpha c) eqn:E.
    + case_decide; [|done]. by rewrite <- app_assoc.
    + case_decide; [congruence|done].
Qed.

(** C9.  After [find_lett_patt(letters, pattern)], and before the generator
    it returns is iterated, the caller's list [letters] is the list it was
    with one copy of every alphabetic character of [pattern] appended, in
    the order of the pattern.  [traverse] passes the copy [letters[:]], so
    its own list of letters keeps its content. *)
Theorem find_lett_patt_appends_to_letters (g : GADDAG) (letters : list ascii)
    (pattern : word) :
  fst (find_lett_patt g letters pattern)
  = letters ++ filter (fun c => is_alpha c = true) pattern.
Proof. unfold find_lett_patt. simpl. apply append_alpha_spec. Qed.

(** ** C5: an anchor that walks off the graph *)

(** C5.  [contains] on an anchor whose reversed path leaves the graph
    returns a generator without raising, and iterating that generator
    raises AttributeError: it yields no empty sequence. *)
Theorem contains_off_graph_raises (g : GADDAG) (sub : word) (fuel : nat) :
  follow (nodes g) (_root g) (rev sub) = None ->
  (exists run, contains g sub = Generator run)
  /\ iterate fuel (contains g sub) = Raise AttributeError.
Proof.
  intros H. unfold contains. rewrite H. split; [eauto|]. reflexivity.
Qed.

Lemma contains_off_graph_raises_witness :
  follow (nodes new_gaddag) (_root new_gaddag) (rev (chars "z")) = None
  /\ iterate 5 (contains new_gaddag (chars "z")) = Raise AttributeError.
Proof.
  split; [reflexivity|].
  apply (contains_off_graph_raises new_gaddag (chars "z") 5). reflexivity.
Defined.

(** The other query families on such an anchor: an empty sequence at the
    call and at the iteration. *)
Lemma siblings_off_graph_empty (g : GADDAG) (anchor : word) (letters : list ascii)
    (pattern : list (nat * ascii)) (fuel : nat) :
  follow (nodes g) (_root g) (rev anchor) = None ->
  iterate fuel (starts_with g anchor) = Ok []
  /\ iterate fuel (ends_with g anchor) = Ok []
  /\ iterate fuel (contains_lett g anchor letters) = Ok []
  /\ iterate fuel (starts_with_lett g anchor letters) = Ok []
  /\ iterate fuel (ends_with_lett g anchor letters) = Ok []
  /\ iterate fuel (contains_lett_patt g anchor letters pattern) = Ok [].
Proof.
  intros H.
  unfold starts_with, ends_with, contains_lett, starts_with_lett,
    ends_with_lett, contains_lett_patt.
  rewrite H. simpl. auto 10.
Qed.

(** ** C8: the check of [_add_word] on an edge that is already there *)

Lemma same_edges_spec (a b : Node.t) :
  Node.same_edges a b = true
  <-> (forall c, c ∈ Node.labels a <-> c ∈ Node.labels b).
Proof.
  unfold Node.same_edges. rewrite andb_true_iff, !forallb_forall.
  unfold mem. split.
  - intros [H1 H2] c. split; intros Hc.
    + apply list_elem_of_In in Hc. apply H1 in Hc. by apply bool_decide_eq_true in Hc.
    + apply list_elem_of_In in Hc. apply H2 in Hc. by apply bool_decide_eq_true in Hc.
  - intros H. split; intros c Hc%list_elem_of_In; apply bool_decide_eq_true; by apply H.
Qed.





(** The whole insertion of "abc" into that graph raises, and the insertion
    of "abc" after "ab" into the empty graph returns True. *)
Example add_word_raises_on_clash :
  snd (_add_word (fst (_add_word clash_graph (chars "bc"))) (chars "abc"))
  = Raise AttributeError.
Proof. reflexivity. Qed.

Example add_abc_after_ab :
  snd (build [chars "ab"; chars "abc"]) = Ok tt
  /\ edge (nodes (fst (build [chars "ab"]))) 5 "b" = Some 6
  /\ edge (nodes (fst (build [chars "ab"; chars "abc"]))) 5 "b" = Some 3.
Proof. repeat split. Qed.

(** ** C2: membership after an insertion *)

(** C2.  The word "Ab" is added to the empty graph: [add] returns True, the
    test ["Ab" in gaddag] is False, and a second [add] of the word returns
    True again. *)
Theorem add_uppercase_not_contained :
  snd (add new_gaddag (chars "Ab")) = Ok true
  /\ __contains__ (fst (add new_gaddag (chars "Ab"))) (chars "Ab") = false
  /\ snd (add (fst (add new_gaddag (chars "Ab"))) (chars "Ab")) = Ok true.
Proof. repeat split. Qed.

(** ** [check_diagonal] on the store of rows *)

Lemma is_alpha_dash : is_alpha dash = false.
Proof. reflexivity. Qed.

Lemma M_bind_eq {S A B} (m : M S A) (k : A -> M S B) (s : S) :
  (m ≫= k) s
  = match m s with
    | (s', Ok a) => k a s'
    | (s', Raise e) => (s', Raise e)
    | (s', NoFuel) => (s', NoFuel)
    end.
Proof. reflexivity. Qed.

Lemma read_spec (g : list nat) (r c : nat) (s : dstate) :
  Solver.read g r c s
  = (s, match cellv (fst s) g r c with
        | Some x => Ok x
        | None => Raise IndexError
        end).
Proof.
  unfold Solver.read, lift, cellv, at_, index.
  destruct (g !! r) as [a|]; simpl; [|done].
  destruct (fst s !! a) as [row|]; simpl; [|done].
  by destruct (row !! c).
Qed.

Lemma write_spec (g : list nat) (r c : nat) (v old : ascii)
    (st : list (list ascii)) (l : list ascii) :
  NoDup g ->
  cellv st g r c = Some old ->
  exists st',
    Solver.write g r c v (st, l) = ((st', l), Ok tt)
    /\ cellv st' g r c = Some v
    /\ (forall r' c', (r', c') <> (r, c) -> cellv st' g r' c' = cellv st g r' c').
Proof.
  intros Hnd Hc. unfold cellv, at_ in Hc.
  destruct (g !! r) as [a|] eqn:Ea; [|done].
  destruct (st !! a) as [row|] eqn:Erow; [|done].
  pose proof (lookup_lt_Some _ _ _ Hc) as Hlen.
  pose proof (lookup_lt_Some _ _ _ Erow) as Hlen'.
  exists (<[a := <[c := v]> row]> st). split; [|split].
  - unfold Solver.write, index, assign. simpl. rewrite Ea. simpl.
    rewrite Erow. simpl. by case_decide.
  - unfold cellv, at_. rewrite Ea, list_lookup_insert_eq by done.
    by rewrite list_lookup_insert_eq.
  - intros r' c' Hne. unfold cellv, at_.
    destruct (g !! r') as [a'|] eqn:Ea'; [|done].
    destruct (decide (a' = a)) as [->|Hna].
    + assert (r' = r) as -> by (eapply NoDup_lookup; eauto).
      rewrite list_lookup_insert_eq, Erow by done.
      apply list_lookup_insert_ne. congruence.
    + by rewrite list_lookup_insert_ne.
Qed.

Lemma evolves_refl g s : evolves g s s.
Proof. repeat split; auto. Qed.

Lemma evolves_trans g s1 s2 s3 :
  evolves g s1 s2 -> evolves g s2 s3 -> evolves g s1 s3.
Proof.
  intros (C1 & L1 & E1) (C2 & L2 & E2). repeat split.
  - intros r c. destruct (C1 r c) as [H1|(H1 & x & H1' & Hx)],
      (C2 r c) as [H2|(H2 & y & H2' & Hy)].
    + left. congruence.
    + right. split; [congruence|eauto].
    + right. split; [done|]. exists x. split; [congruence|done].
    + rewrite H1' in H2. injection H2 as ->. by rewrite is_alpha_dash in Hx.
  - intros z. etrans; [apply L2|apply L1].
  - auto.
Qed.

Lemma evolves_shape5 g s s' :
  evolves g s s' -> shape5 (fst s) g -> shape5 (fst s') g.
Proof.
  intros (C & _) Hs r c Hr Hc. destruct (C r c) as [->|(_ & x & -> & _)]; eauto.
Qed.

Lemma changed_evolves_l g s1 s2 s3 :
  changed g s1 s2 -> evolves g s2 s3 -> changed g s1 s3.
Proof.
  intros (r & c & x & H1 & H2 & Hx) (C & _). exists r, c, x. split; [done|].
  destruct (C r c) as [->|(H2' & _)]; [done|].
  rewrite H2 in H2'. injection H2' as ->. by rewrite is_alpha_dash in Hx.
Qed.

Lemma changed_evolves_r g s1 s2 s3 :
  evolves g s1 s2 -> changed g s2 s3 -> changed g s1 s3.
Proof.
  intros (C & _) (r & c & x & H1 & H2 & Hx). exists r, c, x. split; [|done].
  destruct (C r c) as [<-|(H1' & y & H2' & Hy)]; [done|].
  rewrite H1 in H2'. injection H2' as <-. by rewrite is_alpha_dash in Hy.
Qed.

(** [mirror g r c]: the cell [(c, r)] takes the letter of [(r, c)], then
    the letter leaves [letters], or ValueError when it is not there. *)
Lemma mirror_spec (g : list nat) (r c : nat) (x : ascii) (s : dstate) :
  NoDup g ->
  cellv (fst s) g r c = Some x -> is_alpha x = true ->
  cellv (fst s) g c r = Some dash ->
  exists s' o,
    Solver.mirror g r c s = (s', o)
    /\ cellv (fst s') g c r = Some x
    /\ (forall r' c', (r', c') <> (c, r) ->
          cellv (fst s') g r' c' = cellv (fst s) g r' c')
    /\ ((o = Ok tt /\ remove_first x (snd s) = Some (snd s'))
        \/ (o = Raise ValueError /\ snd s' = snd s /\ remove_first x (snd s) = None)).
Proof.
  intros Hnd Hx Ha Hd. destruct s as [st l]. simpl in *.
  destruct (write_spec g c r x dash st l Hnd Hd) as (st' & Hw & Hc & Ho).
  assert (Solver.mirror g r c (st, l)
          = match remove_first x l with
            | Some l' => ((st', l'), Ok tt)
            | None => ((st', l), Raise ValueError)
            end) as ->.
  { unfold Solver.mirror. rewrite M_bind_eq, read_spec. simpl. rewrite Hx.
    rewrite M_bind_eq, Hw. rewrite M_bind_eq, read_spec. simpl. rewrite Hc.
    reflexivity. }
  destruct (remove_first x l) as [l'|] eqn:El.
  - exists (st', l'), (Ok tt). simpl. split_and!; auto.
  - exists (st', l), (Raise ValueError). simpl. split_and!; auto.
Qed.

Ltac mstep :=
  repeat first
    [ rewrite M_bind_eq
    | rewrite read_spec
    | progress (cbn beta iota delta [mret M_ret fst snd]) ].

Lemma diagonal_step_eq (g : list nat) (row col : nat) (x y : ascii) (s : dstate) :
  cellv (fst s) g row col = Some x ->
  cellv (fst s) g col row = Some y ->
  Solver.diagonal_step g (row, col) s
  = if is_alpha x && eqc y dash then Solver.mirror g row col s
    else if is_alpha y && eqc x dash then Solver.mirror g col row s
    else (s, Ok tt).
Proof.
  intros Hx Hy. unfold Solver.diagonal_step.
  rewrite M_bind_eq, read_spec, Hx.
  destruct (is_alpha x) eqn:Ax; mstep.
  - rewrite Hy. mstep.
    destruct (eqc y dash) eqn:Ey; [done|]. simpl.
    mstep. rewrite Hy. mstep.
    destruct (is_alpha y) eqn:Ay; mstep; [|done].
    rewrite Hx. mstep. by destruct (eqc x dash).
  - rewrite Hy. mstep.
    destruct (is_alpha y) eqn:Ay; mstep; [|done].
    rewrite Hx. mstep. by destruct (eqc x dash).
Qed.

Lemma count_zero_remove_first x l : count x l = 0 -> remove_first x l = None.
Proof. intros H. by apply remove_first_None, count_zero_not_in. Qed.

(** One round of the loops of [check_diagonal] on a 5x5 grid. *)
Lemma diagonal_step_spec (g : list nat) (row col : nat) (s : dstate) :
  NoDup g -> shape5 (fst s) g -> row < 5 -> col < 5 ->
  exists s' o,
    Solver.diagonal_step g (row, col) s = (s', o)
    /\ evolves g s s'
    /\ (forall r' c', (r', c') <> (row, col) -> (r', c') <> (col, row) ->
          cellv (fst s') g r' c' = cellv (fst s) g r' c')
    /\ (o = Ok tt \/ (o = Raise ValueError /\ changed g s s'))
    /\ (forall r c x,
          (row, col) = (r, c) \/ (row, col) = (c, r) ->
          cellv (fst s) g r c = Some x -> is_alpha x = true ->
          cellv (fst s) g c r = Some dash ->
          cellv (fst s') g c r = Some x
          /\ (count x (snd s) = 0 -> o = Raise ValueError)).
Proof.
  intros Hnd Hsh Hr Hc.
  destruct (Hsh row col Hr Hc) as [x Hx], (Hsh col row Hc Hr) as [y Hy].
  rewrite (diagonal_step_eq g row col x y s Hx Hy).
  assert (forall r c (z : ascii) (s' : dstate) o,
    cellv (fst s) g r c = Some z -> is_alpha z = true ->
    cellv (fst s) g c r = Some dash ->
    cellv (fst s') g c r = Some z ->
    (forall r' c', (r', c') <> (c, r) ->
        cellv (fst s') g r' c' = cellv (fst s) g r' c') ->
    ((o = Ok tt /\ remove_first z (snd s) = Some (snd s'))
     \/ (o = Raise ValueError /\ snd s' = snd s /\ remove_first z (snd s) = None)) ->
    evolves g s s'
    /\ (o = Ok tt \/ (o = Raise ValueError /\ changed g s s'))
    /\ (count z (snd s) = 0 -> o = Raise ValueError)) as Hmirror.
  { intros r c z s' o Hz Az Hd Hz' Hoth Ho. split; [|split].
    - split; [|split].
      + intros r' c'. destruct (decide ((r', c') = (c, r))) as [[= -> ->]|Hne].
        * right. eauto.
        * left. by apply Hoth.
      + intros w. destruct Ho as [[_ Hrm]|(_ & -> & _)]; [|done].
        by eapply count_remove_first_le.
      + intros Hnil. destruct Ho as [[_ Hrm]|(_ & -> & _)]; [|done].
        rewrite Hnil in Hrm. done.
    - destruct Ho as [[-> _]|(-> & _ & _)]; [by left|].
      right. split; [done|]. exists c, r, z. done.
    - intros H0%count_zero_remove_first.
      destruct Ho as [[_ Hrm]|(-> & _ & _)]; [congruence|done]. }
  destruct (is_alpha x && eqc y dash) eqn:EA.
  - apply andb_true_iff in EA as [Ax Ey].
    apply bool_decide_eq_true in Ey as ->.
    destruct (mirror_spec g row col x s Hnd Hx Ax Hy) as (s' & o & -> & Hc' & Hoth & Ho).
    destruct (Hmirror row col x s' o Hx Ax Hy Hc' Hoth Ho) as (He & Hou & Hcnt).
    exists s', o. split_and!; auto.
    intros r c z [[= <- <-]|[= <- <-]] Hz Az Hd.
    + rewrite Hx in Hz. injection Hz as <-. auto.
    + rewrite Hy in Hz. injection Hz as <-. by rewrite is_alpha_dash in Az.
  - destruct (is_alpha y && eqc x dash) eqn:EB.
    + apply andb_true_iff in EB as [Ay Ex].
      apply bool_decide_eq_true in Ex as ->.
      destruct (mirror_spec g col row y s Hnd Hy Ay Hx) as (s' & o & -> & Hc' & Hoth & Ho).
      destruct (Hmirror col row y s' o Hy Ay Hx Hc' Hoth Ho) as (He & Hou & Hcnt).
      exists s', o. split_and!; auto.
      intros r c z [[= <- <-]|[= <- <-]] Hz Az Hd.
      * rewrite Hx in Hz. injection Hz as <-. by rewrite is_alpha_dash in Az.
      * rewrite Hy in Hz. injection Hz as <-. auto.
    + exists s, (Ok tt). split_and!; auto using evolves_refl.
      intros r c z [[= <- <-]|[= <- <-]] Hz Az Hd.
      * rewrite Hx in Hz. injection Hz as <-. rewrite Hy in Hd. injection Hd as ->.
        rewrite Az in EA. done.
      * rewrite Hy in Hz. injection Hz as <-. rewrite Hx in Hd. injection Hd as ->.
        rewrite Az in EB. done.
Qed.
Lemma for_cons {S A} (a : A) (l : list A) (body : A -> M S unit) (s : S) :
  for_ (a :: l) body s
  = match body a s with
    | (s', Ok _) => for_ l body s'
    | (s', Raise e) => (s', Raise e)
    | (s', NoFuel) => (s', NoFuel)
    end.
Proof. reflexivity. Qed.

(** The two loops of [check_diagonal] on a 5x5 grid, from any position on. *)
Lemma diagonal_loop_spec (g : list nat) (ps : list (nat * nat)) (s : dstate) :
  NoDup g -> shape5 (fst s) g ->
  Forall (fun p => fst p < 5 /\ snd p < 5) ps ->
  exists s' o,
    for_ ps (Solver.diagonal_step g) s = (s', o)
    /\ evolves g s s'
    /\ (o = Ok tt \/ (o = Raise ValueError /\ changed g s s'))
    /\ (forall r c x,
          (r, c) ∈ ps \/ (c, r) ∈ ps ->
          cellv (fst s) g r c = Some x -> is_alpha x = true ->
          cellv (fst s) g c r = Some dash ->
          changed g s s'
          /\ (o = Ok tt -> cellv (fst s') g c r = Some x)
          /\ (count x (snd s) = 0 -> o = Raise ValueError)).
Proof.
  intros Hnd. revert s. induction ps as [|[row col] ps IH]; intros s Hsh Hps.
  - exists s, (Ok tt). split_and!; auto using evolves_refl.
    intros r c x [H|H]; by apply elem_of_nil in H.
  - apply Forall_cons in Hps as [[Hr Hc] Hps]. simpl in Hr, Hc.
    destruct (diagonal_step_spec g row col s Hnd Hsh Hr Hc)
      as (s1 & o1 & Hstep & Hev & Hoth & Ho1 & Htr).
    rewrite for_cons, Hstep.
    destruct Ho1 as [->|[-> Hch]].
    + destruct (IH s1 (evolves_shape5 _ _ _ Hev Hsh) Hps)
        as (s' & o & -> & Hev' & Ho & Htr').
      exists s', o. split_and!; eauto using evolves_trans.
      * destruct Ho as [->|[-> Hch]]; [by left|].
        right. eauto using changed_evolves_r.
      * intros r c x Hin Hx Ax Hd.
        destruct (decide ((row, col) = (r, c) \/ (row, col) = (c, r))) as [Hp|Hp].
        -- destruct (Htr r c x Hp Hx Ax Hd) as [Hx1 Hcnt].
           assert (changed g s s1) as Hch1 by (exists c, r, x; done).
           split_and!; eauto using changed_evolves_l.
           ++ intros _. destruct Hev' as (C & _).
              destruct (C c r) as [->|(Hd' & _)]; [done|].
              rewrite Hx1 in Hd'. injection Hd' as ->.
              by rewrite is_alpha_dash in Ax.
           ++ intros H0. by specialize (Hcnt H0).
        -- assert ((r, c) <> (row, col) /\ (r, c) <> (col, row)
                   /\ (c, r) <> (row, col) /\ (c, r) <> (col, row)) as (N1 & N2 & N3 & N4).
           { split_and!; intros [= -> ->]; apply Hp; auto. }
           assert ((r, c) ∈ ps \/ (c, r) ∈ ps) as Hin'.
           { destruct Hin as [Hin|Hin]; apply elem_of_cons in Hin as [Hin|Hin];
               try congruence; auto. }
           destruct (Htr' r c x Hin') as (Hch & Hok & Hcnt).
           { by rewrite Hoth. } { done. } { by rewrite Hoth. }
           split_and!; eauto using changed_evolves_r.
           intros H0. apply Hcnt. destruct Hev as (_ & L & _).
           specialize (L x). lia.
    + exists s1, (Raise ValueError). split_and!; auto.
      intros r c x _ _ _ _. split_and!; auto. done.
Qed.

Lemma positions_bound :
  Forall (fun p : nat * nat => fst p < 5 /\ snd p < 5) positions.
Proof. unfold positions. simpl. repeat constructor. Qed.

Lemma elem_of_positions r c : r < 5 -> c < 5 -> (r, c) ∈ positions.
Proof.
  intros Hr Hc. unfold positions.
  apply list_elem_of_bind. exists r. split; [|apply elem_of_seq; lia].
  apply list_elem_of_bind. exists c. split; [|apply elem_of_seq; lia].
  apply list_elem_of_here.
Qed.
(** [check_diagonal] on a 5x5 grid returns: it never lets an exception out.
    The letters are empty afterwards when they were empty before, and when
    a letter that a mirror cell needs is not among them. *)
Lemma check_diagonal_spec (g : list nat) (s : dstate) :
  NoDup g -> shape5 (fst s) g ->
  exists s',
    Solver.check_diagonal g s = (s', Ok g)
    /\ shape5 (fst s') g
    /\ (snd s = [] -> snd s' = [])
    /\ (forall r c x,
          r < 5 -> c < 5 ->
          cellv (fst s) g r c = Some x -> is_alpha x = true ->
          cellv (fst s) g c r = Some dash ->
          changed g s s'
          /\ (snd s' <> [] -> cellv (fst s') g c r = Some x)
          /\ (count x (snd s) = 0 -> snd s' = [])).
Proof.
  intros Hnd Hsh.
  destruct (diagonal_loop_spec g positions s Hnd Hsh positions_bound)
    as (s' & o & Hloop & Hev & Ho & Htr).
  unfold Solver.check_diagonal. rewrite Hloop.
  destruct Ho as [->|[-> Hch]].
  - exists s'. split_and!; auto.
    + eauto using evolves_shape5.
    + by destruct Hev as (_ & _ & ?).
    + intros r c x Hr Hc Hx Ax Hd.
      destruct (Htr r c x (or_introl (elem_of_positions r c Hr Hc)) Hx Ax Hd)
        as (? & Hok & Hcnt).
      split_and!; auto. intros H0. by specialize (Hcnt H0).
  - exists (fst s', []). split_and!; auto.
    + apply (evolves_shape5 _ _ _ Hev Hsh).
    + intros r c x Hr Hc Hx Ax Hd. split_and!; [|done|done].
      destruct Hch as (r' & c' & x' & ?). by exists r', c', x'.
Qed.

Lemma lookup_map {A B} (f : A -> B) (l : list A) (i : nat) :
  map f l !! i = f <$> (l !! i).
Proof. change (map f l) with (f <$> l). apply list_lookup_fmap. Qed.

Lemma at_deref (st : list (list ascii)) (g : list nat) (r c : nat) :
  at_ (Solver.deref st g) r c = cellv st g r c.
Proof.
  unfold at_, cellv, Solver.deref. rewrite lookup_map.
  destruct (g !! r) as [a|]; simpl; [|done].
  unfold at_. by destruct (st !! a).
Qed.

Section set_problem.
Variables (s : Solver.t) (rack patterns : list word).

Let s1 := Solver.set_problem s rack patterns.

Lemma set_problem_start_grid :
  Solver.start_grid s1 = seq (length (Solver.rows s)) (length patterns).
Proof. reflexivity. Qed.

Lemma set_problem_NoDup : NoDup (Solver.start_grid s1).
Proof. apply NoDup_seq. Qed.

Lemma set_problem_deref :
  Solver.deref (Solver.rows s1) (Solver.start_grid s1) = map lower_word patterns.
Proof.
  apply list_eq. intros i. unfold Solver.deref. rewrite lookup_map.
  simpl. destruct (decide (i < length patterns)) as [Hi|Hi].
  - rewrite lookup_seq_lt by done. simpl.
    rewrite lookup_app_r by lia.
    replace (length (Solver.rows s) + i - length (Solver.rows s)) with i by lia.
    rewrite lookup_map.
    destruct (patterns !! i) eqn:E; [done|].
    apply lookup_ge_None in E. lia.
  - rewrite lookup_seq_ge by lia. simpl. symmetry.
    apply lookup_ge_None. rewrite length_map. lia.
Qed.

Lemma set_problem_cellv r c :
  cellv (Solver.rows s1) (Solver.start_grid s1) r c
  = at_ (map lower_word patterns) r c.
Proof. by rewrite <- at_deref, set_problem_deref. Qed.

Lemma set_problem_shape5 :
  five_by_five patterns -> shape5 (Solver.rows s1) (Solver.start_grid s1).
Proof.
  intros [Hlen Hrows] r c Hr Hc. rewrite set_problem_cellv.
  unfold at_. rewrite lookup_map.
  destruct (patterns !! r) as [row|] eqn:E.
  - simpl. unfold lower_word. rewrite lookup_map.
    assert (length row = 5) as Hl.
    { eapply (proj1 (Forall_forall _ _) Hrows), list_elem_of_lookup_2, E. }
    destruct (row !! c) eqn:E'; [by eexists|].
    apply lookup_ge_None in E'. lia.
  - apply lookup_ge_None in E. lia.
Qed.
End set_problem.

(** [solve] when [check_diagonal] returns. *)
Lemma solve_state (fuel : nat) (s : Solver.t) (d : dstate) (g : list nat) :
  Solver.check_diagonal (Solver.start_grid s) (Solver.rows s, Solver.letters s)
  = (d, Ok g) ->
  Solver.rows (fst (Solver.solve fuel s)) = fst d
  /\ Solver.start_grid (fst (Solver.solve fuel s)) = Solver.start_grid s
  /\ Solver.init_grid (fst (Solver.solve fuel s)) = Some g
  /\ (snd d = [] -> snd (Solver.solve fuel s) = Ok [ERROR]).
Proof.
  intros Hcd. unfold Solver.solve, Solver.try_grid. simpl. rewrite Hcd. simpl.
  destruct (nonempty (snd d)) eqn:En.
  - destruct (Solver.traverse _ _ _ _ _ _ _ _) as [sols [a|e|]]; simpl;
      split_and!; try done; intros Hnil; by rewrite Hnil in En.
  - simpl. split_and!; done.
Qed.
Lemma at_bounds (p : list word) (r c : nat) (x : ascii) :
  five_by_five p -> at_ (map lower_word p) r c = Some x -> r < 5 /\ c < 5.
Proof.
  intros [Hlen Hrows] H. unfold at_ in H. rewrite lookup_map in H.
  destruct (p !! r) as [row|] eqn:E; [|done]. simpl in H.
  split.
  - apply lookup_lt_Some in E. lia.
  - apply lookup_lt_Some in H. unfold lower_word in H. rewrite length_map in H.
    assert (length row = 5) as Hl.
    { eapply (proj1 (Forall_forall _ _) Hrows), list_elem_of_lookup_2, E. }
    lia.
Qed.

(** ** C4: the sentinel for a letter that the mirror cell cannot get *)

(** C4.  The pattern has a letter [x] at [(r, c)] and ["-"] at [(c, r)],
    and the letters left after [set_problem] hold no [x].  Then [solve]
    returns the list [["ERROR"]]: it raises nothing, and the list is not
    the empty list of a search without solutions. *)
Theorem solve_returns_error_sentinel (s : Solver.t) (rack patterns : list word)
    (fuel r c : nat) (x : ascii) :
  five_by_five patterns ->
  at_ (map lower_word patterns) r c = Some x ->
  is_alpha x = true ->
  at_ (map lower_word patterns) c r = Some dash ->
  count x (Solver.letters (Solver.set_problem s rack patterns)) = 0 ->
  snd (Solver.solve fuel (Solver.set_problem s rack patterns)) = Ok [ERROR]
  /\ [ERROR] <> [].
Proof.
  intros H5 Hx Ax Hd Hcnt. split; [|done].
  destruct (at_bounds _ _ _ _ H5 Hx) as [Hr Hc].
  rewrite <- set_problem_cellv with (s := s) (rack := rack) in Hx, Hd.
  remember (Solver.set_problem s rack patterns) as s1 eqn:Es1.
  destruct (check_diagonal_spec (Solver.start_grid s1) (Solver.rows s1, Solver.letters s1))
    as (d & Hcd & _ & _ & Htr).
  { subst s1. apply set_problem_NoDup. } { subst s1. by apply set_problem_shape5. }
  destruct (Htr r c x Hr Hc Hx Ax Hd) as (_ & _ & Hnil).
  apply (solve_state fuel s1 d _ Hcd). by apply Hnil.
Qed.

Lemma solve_returns_error_sentinel_witness :
  snd (Solver.solve 9 (Solver.set_problem (Solver.init heart_lexicon)
                         rack_without_a pattern_a_at_0_2)) = Ok [ERROR]
  /\ [ERROR] <> [].
Proof.
  apply (solve_returns_error_sentinel (Solver.init heart_lexicon)
           rack_without_a pattern_a_at_0_2 9 0 2 "a").
  - split; [reflexivity|]. repeat constructor.
  - reflexivity.
  - reflexivity.
  - reflexivity.
  - vm_compute. reflexivity.
Defined.

(** ** [check_diagonal], cell by cell *)

Lemma bind_all_nil {A B} (f : A -> list B) (l : list A) :
  (forall a, a ∈ l -> f a = []) -> l ≫= f = [].
Proof.
  induction l as [|a l IH]; intros H; [done|].
  rewrite bind_cons, (H a) by apply list_elem_of_here.
  simpl. apply IH. intros b Hb. apply H. by apply list_elem_of_further.
Qed.

Lemma bind_ext_in {A B} (f f' : A -> list B) (l : list A) :
  (forall a, a ∈ l -> f a = f' a) -> l ≫= f = l ≫= f'.
Proof.
  induction l as [|a l IH]; intros H; [done|].
  rewrite !bind_cons, (H a) by apply list_elem_of_here.
  f_equal. apply IH. intros b Hb. apply H. by apply list_elem_of_further.
Qed.

(** The part of [l ≫= f] that comes from one element of a list without
    repeats. *)
Lemma bind_zero {A B} `{EqDecision A} (f : A -> list B) (p : A) (l : list A) :
  NoDup l -> p ∈ l ->
  l ≫= f ≡ₚ f p ++ (l ≫= fun z => if decide (z = p) then [] else f z).
Proof.
  induction l as [|a l IH]; intros Hnd Hin; [by apply elem_of_nil in Hin|].
  apply NoDup_cons in Hnd as [Ha Hnd]. rewrite !bind_cons.
  destruct (decide (a = p)) as [->|Hne].
  - simpl. apply Permutation_app_head. erewrite bind_ext_in; [done|].
    intros b Hb. simpl. destruct (decide (b = p)) as [->|]; done.
  - apply elem_of_cons in Hin as [->|Hin]; [done|].
    rewrite (IH Hnd Hin). apply Permutation_app_swap_app.
Qed.

Lemma NoDup_positions : NoDup positions.
Proof. apply (bool_decide_unpack _). vm_compute. reflexivity. Qed.

Lemma mirrors_refl g s : mirrors g s s.
Proof. intros r c. by left. Qed.

Lemma mirrors_trans g s1 s2 s3 :
  mirrors g s1 s2 -> mirrors g s2 s3 -> mirrors g s1 s3.
Proof.
  intros H12 H23 r c.
  destruct (H23 r c) as [E23|(D2 & x & M2 & Ax & E3)].
  - destruct (H12 r c) as [E12|(D1 & y & M1 & Ay & E2)].
    + left. congruence.
    + right. split; [done|]. exists y. split_and!; congruence.
  - right.
    assert (cellv (fst s1) g r c = Some dash) as D1.
    { destruct (H12 r c) as [E12|(D1 & _)]; [congruence|done]. }
    split; [done|]. exists x. split_and!; [|done|done].
    destruct (H12 c r) as [E12|(_ & y & M1 & Ay & _)]; [congruence|].
    rewrite D1 in M1. injection M1 as <-. by rewrite is_alpha_dash in Ay.
Qed.

Lemma is_alpha_not_dash x : is_alpha x = true -> eqc x dash = false.
Proof.
  intros Ax. unfold eqc. case_bool_decide as E; [|done].
  subst. by rewrite is_alpha_dash in Ax.
Qed.

(** One round of the loops of [check_diagonal]: what it writes, and the
    letter it takes from [letters]. *)
Lemma diagonal_step_want (g : list nat) (row col : nat) (s : dstate) :
  NoDup g -> shape5 (fst s) g -> row < 5 -> col < 5 ->
  exists s' o,
    Solver.diagonal_step g (row, col) s = (s', o)
    /\ mirrors g s s'
    /\ (forall r' c', (r', c') <> (row, col) -> (r', c') <> (col, row) ->
          cellv (fst s') g r' c' = cellv (fst s) g r' c')
    /\ want (cellv (fst s') g) (row, col) = []
    /\ want (cellv (fst s') g) (col, row) = []
    /\ ((want (cellv (fst s) g) (row, col) = []
         /\ want (cellv (fst s) g) (col, row) = []
         /\ s' = s /\ o = Ok tt)
        \/ exists z,
             want (cellv (fst s) g) (row, col) ++ want (cellv (fst s) g) (col, row) = [z]
             /\ row <> col
             /\ ((o = Ok tt /\ remove_first z (snd s) = Some (snd s'))
                 \/ (o = Raise ValueError /\ remove_first z (snd s) = None))).
Proof.
  intros Hnd Hsh Hr Hc.
  destruct (Hsh row col Hr Hc) as [x Hx], (Hsh col row Hc Hr) as [y Hy].
  rewrite (diagonal_step_eq g row col x y s Hx Hy).
  assert (forall r c (z : ascii),
    cellv (fst s) g r c = Some z -> is_alpha z = true ->
    cellv (fst s) g c r = Some dash ->
    exists s' o,
      Solver.mirror g r c s = (s', o)
      /\ mirrors g s s'
      /\ (forall r' c', (r', c') <> (r, c) -> (r', c') <> (c, r) ->
            cellv (fst s') g r' c' = cellv (fst s) g r' c')
      /\ want (cellv (fst s') g) (r, c) = []
      /\ want (cellv (fst s') g) (c, r) = []
      /\ want (cellv (fst s) g) (r, c) = [z]
      /\ want (cellv (fst s) g) (c, r) = []
      /\ r <> c
      /\ ((o = Ok tt /\ remove_first z (snd s) = Some (snd s'))
          \/ (o = Raise ValueError /\ remove_first z (snd s) = None))) as Hmirror.
  { intros r c z Hz Az Hd.
    assert (r <> c) as Hrc.
    { intros ->. rewrite Hz in Hd. injection Hd as ->. by rewrite is_alpha_dash in Az. }
    destruct (mirror_spec g r c z s Hnd Hz Az Hd) as (s' & o & Hm & Hc' & Hoth & Ho).
    assert (cellv (fst s') g r c = Some z) as Hz'.
    { rewrite Hoth; [done|]. intros [= -> _]. done. }
    exists s', o. split_and!; auto.
    - intros r' c'. destruct (decide ((r', c') = (c, r))) as [[= -> ->]|Hne].
      + right. eauto.
      + left. by apply Hoth.
    - unfold want. cbn [fst snd]. rewrite Hz', Hc'.
      by rewrite (is_alpha_not_dash z Az), andb_false_r.
    - unfold want. cbn [fst snd]. rewrite Hz', Hc'.
      by rewrite (is_alpha_not_dash z Az), andb_false_r.
    - unfold want. cbn [fst snd]. rewrite Hz, Hd, Az. done.
    - unfold want. cbn [fst snd]. rewrite Hz, Hd, is_alpha_dash. done.
    - destruct Ho as [[-> Hrm]|(-> & _ & Hrm)]; auto. }
  destruct (is_alpha x && eqc y dash) eqn:EA.
  - apply andb_true_iff in EA as [Ax Ey].
    apply bool_decide_eq_true in Ey as ->.
    destruct (Hmirror row col x Hx Ax Hy)
      as (s' & o & -> & Hm & Hoth & W1 & W2 & W3 & W4 & Hne & Ho).
    exists s', o. split_and!; auto.
    right. exists x. rewrite W3, W4. done.
  - destruct (is_alpha y && eqc x dash) eqn:EB.
    + apply andb_true_iff in EB as [Ay Ex].
      apply bool_decide_eq_true in Ex as ->.
      destruct (Hmirror col row y Hy Ay Hx)
        as (s' & o & -> & Hm & Hoth & W1 & W2 & W3 & W4 & Hne & Ho).
      exists s', o. split_and!; auto.
      right. exists y. rewrite W3, W4. done.
    + assert (want (cellv (fst s) g) (row, col) = []) as W1.
      { unfold want. cbn [fst snd]. by rewrite Hx, Hy, EA. }
      assert (want (cellv (fst s) g) (col, row) = []) as W2.
      { unfold want. cbn [fst snd]. by rewrite Hx, Hy, EB. }
      exists s, (Ok tt). split_and!; auto using mirrors_refl.
Qed.

Lemma want_same (f f' : nat -> nat -> option ascii) (r c : nat) :
  f r c = f' r c -> f c r = f' c r -> want f (r, c) = want f' (r, c).
Proof. intros H1 H2. unfold want. cbn [fst snd]. by rewrite H1, H2. Qed.

(** The letters that the cells still hand over, before and after a round
    that took the letter [z]. *)
Lemma want_round (f f' : nat -> nat -> option ascii) (row col : nat) (z : ascii) :
  row < 5 -> col < 5 -> row <> col ->
  (forall r' c', (r', c') <> (row, col) -> (r', c') <> (col, row) ->
     f' r' c' = f r' c') ->
  want f' (row, col) = [] -> want f' (col, row) = [] ->
  want f (row, col) ++ want f (col, row) = [z] ->
  positions ≫= want f ≡ₚ z :: (positions ≫= want f').
Proof.
  intros Hr Hc Hne Hoth W1 W2 Hz.
  rewrite (bind_zero (want f) (row, col) positions NoDup_positions)
    by (by apply elem_of_positions).
  rewrite (bind_zero _ (col, row) positions NoDup_positions)
    by (by apply elem_of_positions).
  rewrite decide_False by (intros [= -> _]; done).
  rewrite app_assoc, Hz. apply (Permutation_skip z).
  erewrite bind_ext_in; [done|]. intros [r c] _. cbn beta.
  destruct (decide ((r, c) = (col, row))) as [->|N2]; [done|].
  destruct (decide ((r, c) = (row, col))) as [->|N1]; [done|].
  symmetry. apply want_same; apply Hoth; try done.
  - intros [= -> ->]. done.
  - intros [= -> ->]. done.
Qed.

Lemma remove_first_None_inv c l : remove_first c l = None -> c ∉ l.
Proof.
  intros H Hin. destruct (remove_first_is_Some c l Hin) as [l' E]. congruence.
Qed.

(** The two loops of [check_diagonal], from any position on: they end
    without ValueError exactly when [letters] holds the letters that the
    filled cells hand to their empty mirror cells; then these letters have
    left [letters] and no cell has one to hand over any more. *)
Lemma diagonal_loop_exact (g : list nat) (ps : list (nat * nat)) (s : dstate) :
  NoDup g -> shape5 (fst s) g ->
  Forall (fun p => fst p < 5 /\ snd p < 5) ps ->
  (forall r c, want (cellv (fst s) g) (r, c) <> [] -> (r, c) ∈ ps \/ (c, r) ∈ ps) ->
  exists s' o,
    for_ ps (Solver.diagonal_step g) s = (s', o)
    /\ mirrors g s s'
    /\ ((positions ≫= want (cellv (fst s) g) ⊆+ snd s
         /\ o = Ok tt
         /\ snd s ≡ₚ (positions ≫= want (cellv (fst s) g)) ++ snd s'
         /\ forall r c, want (cellv (fst s') g) (r, c) = [])
        \/ (~ positions ≫= want (cellv (fst s) g) ⊆+ snd s
            /\ o = Raise ValueError)).
Proof.
  intros Hnd. revert s. induction ps as [|[row col] ps IH]; intros s Hsh Hps HQ.
  - exists s, (Ok tt). split_and!; auto using mirrors_refl.
    assert (forall r c, want (cellv (fst s) g) (r, c) = []) as Hnone.
    { intros r c. destruct (want (cellv (fst s) g) (r, c)) as [|z l] eqn:E; [done|].
      destruct (HQ r c) as [H|H]; [by rewrite E| |]; by apply elem_of_nil in H. }
    left. rewrite bind_all_nil by (intros [r c] _; apply Hnone).
    split_and!; auto. apply submseteq_nil_l.
  - apply Forall_cons in Hps as [[Hr Hc] Hps]. simpl in Hr, Hc.
    destruct (diagonal_step_want g row col s Hnd Hsh Hr Hc)
      as (s1 & o1 & Hstep & Hm & Hoth & W1 & W2 & Hcase).
    rewrite for_cons, Hstep.
    assert (shape5 (fst s1) g) as Hsh1.
    { intros r c Hr' Hc'. destruct (Hm r c) as [->|(_ & x & _ & _ & ->)]; eauto. }
    assert (forall r c, want (cellv (fst s1) g) (r, c) <> [] ->
              (r, c) ∈ ps \/ (c, r) ∈ ps) as HQ1.
    { intros r c Hw.
      destruct (decide ((r, c) = (row, col))) as [[= -> ->]|N1]; [done|].
      destruct (decide ((r, c) = (col, row))) as [[= -> ->]|N2]; [done|].
      assert (want (cellv (fst s1) g) (r, c) = want (cellv (fst s) g) (r, c)) as E.
      { apply want_same; apply Hoth; try done.
        - intros [= -> ->]. done.
        - intros [= -> ->]. done. }
      rewrite E in Hw.
      destruct (HQ r c Hw) as [H|H]; apply elem_of_cons in H as [H|H]; auto;
        injection H as -> ->; done. }
    destruct Hcase as [(E1 & E2 & -> & ->)|(z & Hz & Hne & Ho)].
    + destruct (IH s Hsh Hps HQ1) as (s' & o & -> & Hm' & Hres).
      exists s', o. split_and!; auto.
    + pose proof (want_round _ _ row col z Hr Hc Hne Hoth W1 W2 Hz) as HW.
      destruct Ho as [[-> Hrm]|[-> Hrm]].
      * apply remove_first_Some in Hrm.
        destruct (IH s1 Hsh1 Hps HQ1) as (s' & o & -> & Hm' & Hres).
        exists s', o. split_and!; eauto using mirrors_trans.
        destruct Hres as [(Hsub & -> & Hperm & Hnone)|(Hsub & ->)].
        -- left. split_and!; auto.
           ++ rewrite HW, Hrm. by apply submseteq_skip.
           ++ rewrite HW, Hrm. simpl. by apply Permutation_skip.
        -- right. split; [|done]. intros Hs. apply Hsub.
           rewrite HW, Hrm in Hs.
           by apply (submseteq_app_inv_l _ _ [z]) in Hs.
      * apply remove_first_None_inv in Hrm.
        exists s1, (Raise ValueError). split_and!; auto.
        right. split; [|done]. intros Hs. apply Hrm.
        eapply elem_of_submseteq; [|exact Hs].
        rewrite HW. apply list_elem_of_here.
Qed.

(** A store on which the grid has no cell outside the 5x5 square. *)
Lemma want_in_positions (f : nat -> nat -> option ascii) :
  (forall r c x, f r c = Some x -> r < 5 /\ c < 5) ->
  forall r c, want f (r, c) <> [] -> (r, c) ∈ positions \/ (c, r) ∈ positions.
Proof.
  intros Hb r c Hw. left. unfold want in Hw. cbn [fst snd] in Hw.
  destruct (f r c) as [x|] eqn:E; [|done].
  destruct (Hb r c x E). by apply elem_of_positions.
Qed.

(** [check_diagonal] on a 5x5 grid, exactly. *)
Lemma check_diagonal_exact (g : list nat) (s : dstate) :
  NoDup g -> shape5 (fst s) g ->
  (forall r c x, cellv (fst s) g r c = Some x -> r < 5 /\ c < 5) ->
  exists d,
    Solver.check_diagonal g s = (d, Ok g)
    /\ mirrors g s d
    /\ ((positions ≫= want (cellv (fst s) g) ⊆+ snd s
         /\ snd s ≡ₚ (positions ≫= want (cellv (fst s) g)) ++ snd d
         /\ forall r c, want (cellv (fst d) g) (r, c) = [])
        \/ (~ positions ≫= want (cellv (fst s) g) ⊆+ snd s /\ snd d = [])).
Proof.
  intros Hnd Hsh Hb.
  destruct (diagonal_loop_exact g positions s Hnd Hsh positions_bound
              (want_in_positions _ Hb)) as (s' & o & Hloop & Hm & Hres).
  unfold Solver.check_diagonal. rewrite Hloop.
  destruct Hres as [(Hsub & -> & Hperm & Hnone)|(Hsub & ->)].
  - exists s'. split_and!; auto.
  - exists (fst s', []). split_and!; auto.
Qed.

(** *** The normalized grid *)

Lemma at_normalize (P : grid) (r c : nat) :
  at_ (normalize P) r c
  = match at_ P r c with
    | Some x => match at_ P c r with
                | Some y => Some (if eqc x dash && is_alpha y then y else x)
                | None => Some x
                end
    | None => None
    end.
Proof.
  assert (at_ P r c = P !! r ≫= (fun row => row !! c)) as ->.
  { unfold at_. by destruct (P !! r). }
  unfold at_ at 1. unfold normalize. rewrite list_lookup_imap.
  destruct (P !! r) as [row|]; simpl; [|done].
  rewrite list_lookup_imap. destruct (row !! c) as [x|]; simpl; [|done].
  by destruct (at_ P c r).
Qed.

Lemma grid_ext (G N : grid) :
  length G = length N -> (forall r c, at_ G r c = at_ N r c) -> G = N.
Proof.
  intros Hlen H. apply list_eq. intros r.
  destruct (G !! r) as [a|] eqn:Ea, (N !! r) as [b|] eqn:Eb.
  - f_equal. apply list_eq. intros c. specialize (H r c).
    unfold at_ in H. by rewrite Ea, Eb in H.
  - apply lookup_lt_Some in Ea. apply lookup_ge_None in Eb. lia.
  - apply lookup_lt_Some in Eb. apply lookup_ge_None in Ea. lia.
  - done.
Qed.

(** Cells that changed as [check_diagonal] writes, none of which has a
    letter left to hand over, are the cells of the normalized grid. *)
Lemma mirrors_normalize (P : grid) (g : list nat) (s d : dstate) :
  (forall r c, cellv (fst s) g r c = at_ P r c) ->
  mirrors g s d ->
  (forall r c, want (cellv (fst d) g) (r, c) = []) ->
  forall r c, cellv (fst d) g r c = at_ (normalize P) r c.
Proof.
  intros HP Hm Hnone r c. rewrite at_normalize, <- !HP.
  destruct (Hm r c) as [E|(D & x & M & Ax & E)].
  - rewrite E. destruct (cellv (fst s) g r c) as [x|] eqn:Ex; [|done].
    destruct (cellv (fst s) g c r) as [y|] eqn:Ey; [|done].
    destruct (eqc x dash && is_alpha y) eqn:EB; [|done].
    apply andb_true_iff in EB as [Ed Ay]. apply bool_decide_eq_true in Ed as ->.
    assert (cellv (fst d) g c r = Some y) as Ey'.
    { destruct (Hm c r) as [->|(D & _)]; [done|].
      rewrite Ey in D. injection D as ->. by rewrite is_alpha_dash in Ay. }
    specialize (Hnone c r). unfold want in Hnone. cbn [fst snd] in Hnone.
    rewrite Ey', E, Ay in Hnone. done.
  - rewrite D, M, E, Ax. done.
Qed.

(** ** C10: [solve] writes into the rows of [start_grid] *)

(** C10 as stated fails.  The pattern has "a" and "b" in its first row and
    the rack has no "a": [check_diagonal] writes "a" into the cell [(2, 0)],
    the removal of "a" from the letters raises ValueError, and the cell
    [(3, 0)] keeps its ["-"], so [start_grid] is not the normalized grid. *)
Lemma not_solve_normalizes_start_grid : ~ solve_normalizes_start_grid.
Proof.
  intros H.
  specialize (H (Solver.init new_gaddag) rack_without_a pattern_ab_at_0 9 0 2 "a").
  assert (five_by_five pattern_ab_at_0) as H5.
  { split; [reflexivity|]. repeat constructor. }
  specialize (H H5 eq_refl eq_refl eq_refl).
  vm_compute in H. discriminate H.
Qed.

(** C10, amended.  [check_diagonal] returns a grid made of the row objects
    of the grid it is given, so after [solve] the attribute [init_grid] is
    [start_grid], row object for row object.  When the pattern has a letter
    at [(r, c)] and ["-"] at [(c, r)], the content of [start_grid] after
    [solve] is no longer the pattern that [set_problem] stored: a cell has
    kept its content, or it held ["-"] and holds the letter of its mirror
    cell.  When the letters that [set_problem] leaves hold the letters of
    the filled cells with an empty mirror cell, [start_grid] holds the
    normalized grid; when they do not, [solve] returns [["ERROR"]].  In
    particular [start_grid] holds the normalized grid whenever letters are
    left after [check_diagonal]. *)
Theorem solve_rewrites_start_grid (s : Solver.t) (rack patterns : list word)
    (fuel r c : nat) (x : ascii) :
  five_by_five patterns ->
  at_ (map lower_word patterns) r c = Some x ->
  is_alpha x = true ->
  at_ (map lower_word patterns) c r = Some dash ->
  let P := map lower_word patterns in
  let s1 := Solver.set_problem s rack patterns in
  let s2 := fst (Solver.solve fuel s1) in
  let G := Solver.deref (Solver.rows s2) (Solver.start_grid s2) in
  Solver.deref (Solver.rows s1) (Solver.start_grid s1) = P
  /\ Solver.start_grid s2 = Solver.start_grid s1
  /\ Solver.init_grid s2 = Some (Solver.start_grid s1)
  /\ G <> P
  /\ (forall r' c',
        at_ G r' c' = at_ P r' c'
        \/ (at_ P r' c' = Some dash
            /\ exists y, at_ P c' r' = Some y /\ is_alpha y = true
                         /\ at_ G r' c' = Some y))
  /\ (mirror_letters P ⊆+ Solver.letters s1 -> G = normalize P)
  /\ (~ mirror_letters P ⊆+ Solver.letters s1 ->
      snd (Solver.solve fuel s1) = Ok [ERROR])
  /\ (Solver.letters s2 <> [] -> G = normalize P).
Proof.
  intros H5 Hx Ax Hd. cbv zeta.
  destruct (at_bounds _ _ _ _ H5 Hx) as [Hr Hc].
  pose proof (set_problem_deref s rack patterns) as Hderef.
  pose proof (set_problem_cellv s rack patterns) as Hcellv.
  rewrite <- Hcellv in Hx, Hd.
  assert (length (Solver.start_grid (Solver.set_problem s rack patterns))
          = length patterns) as Hlen.
  { rewrite set_problem_start_grid. apply length_seq. }
  remember (Solver.set_problem s rack patterns) as s1 eqn:Es1.
  assert (NoDup (Solver.start_grid s1)) as Hnd by (subst s1; apply set_problem_NoDup).
  assert (shape5 (Solver.rows s1) (Solver.start_grid s1)) as Hsh
    by (subst s1; by apply set_problem_shape5).
  destruct (check_diagonal_spec (Solver.start_grid s1)
              (Solver.rows s1, Solver.letters s1) Hnd Hsh)
    as (d & Hcd & _ & _ & Htr).
  destruct (check_diagonal_exact (Solver.start_grid s1)
              (Solver.rows s1, Solver.letters s1) Hnd Hsh)
    as (d' & Hcd' & Hm & Hres).
  { intros r' c' y Hy. cbn [fst] in Hy. rewrite Hcellv in Hy.
    by apply (at_bounds patterns r' c' y). }
  rewrite Hcd in Hcd'. injection Hcd' as <-.
  cbn [fst snd] in Hm, Hres.
  destruct (Htr r c x Hr Hc Hx Ax Hd) as (Hch & _ & _).
  destruct (solve_state fuel s1 d _ Hcd) as (Hrows & Hsg & Hig & Herr).
  assert (Solver.letters (fst (Solver.solve fuel s1)) = snd d) as Hlet.
  { unfold Solver.solve, Solver.try_grid. simpl. rewrite Hcd. simpl.
    destruct (nonempty (snd d)); [|done].
    by destruct (Solver.traverse _ _ _ _ _ _ _ _) as [sols [a|e|]]. }
  assert (positions ≫= want (cellv (Solver.rows s1) (Solver.start_grid s1))
          = mirror_letters (map lower_word patterns)) as HW.
  { unfold mirror_letters. apply bind_ext_in. intros [r' c'] _.
    apply want_same; apply Hcellv. }
  rewrite HW in Hres.
  assert ((forall r' c', want (cellv (fst d) (Solver.start_grid s1)) (r', c') = []) ->
          Solver.deref (fst d) (Solver.start_grid s1)
          = normalize (map lower_word patterns)) as Hnorm.
  { intros Hnone. apply grid_ext.
    - unfold Solver.deref, normalize.
      rewrite length_map, length_imap, length_map. done.
    - intros r' c'. rewrite at_deref.
      by apply (mirrors_normalize _ _ (Solver.rows s1, Solver.letters s1) d). }
  rewrite Hsg, Hrows, Hlet.
  split_and!; auto.
  - destruct Hch as (r' & c' & x' & H1 & H2 & Ax').
    cbn [fst snd] in H1, H2.
    intros Heq. rewrite <- at_deref, Heq, <- Hderef, at_deref in H2.
    rewrite H1 in H2. injection H2 as <-.
    by rewrite is_alpha_dash in Ax'.
  - intros r' c'. rewrite at_deref, <- !Hcellv.
    destruct (Hm r' c') as [E|(D & y & M & Ay & E)]; [by left|].
    right. split; [done|]. by exists y.
  - intros Hsub. destruct Hres as [(_ & _ & Hnone)|(Hn & _)]; [auto|done].
  - intros Hsub. destruct Hres as [(Hs & _)|(_ & Hnil)]; [done|auto].
  - intros Hne. destruct Hres as [(_ & _ & Hnone)|(_ & Hnil)]; [auto|done].
Qed.

Lemma solve_rewrites_start_grid_witness :
  let patterns := map chars ["h-a--"; "-----"; "-----"; "-----"; "---n-"]%string in
  let P := map lower_word patterns in
  let s1 := Solver.set_problem (Solver.init heart_lexicon) heart_words patterns in
  let s2 := fst (Solver.solve 9 s1) in
  let G := Solver.deref (Solver.rows s2) (Solver.start_grid s2) in
  Solver.deref (Solver.rows s1) (Solver.start_grid s1) = P
  /\ Solver.start_grid s2 = Solver.start_grid s1
  /\ Solver.init_grid s2 = Some (Solver.start_grid s1)
  /\ G <> P
  /\ (forall r' c',
        at_ G r' c' = at_ P r' c'
        \/ (at_ P r' c' = Some dash
            /\ exists y, at_ P c' r' = Some y /\ is_alpha y = true
                         /\ at_ G r' c' = Some y))
  /\ (mirror_letters P ⊆+ Solver.letters s1 -> G = normalize P)
  /\ (~ mirror_letters P ⊆+ Solver.letters s1 ->
      snd (Solver.solve 9 s1) = Ok [ERROR])
  /\ (Solver.letters s2 <> [] -> G = normalize P).
Proof.
  apply (solve_rewrites_start_grid (Solver.init heart_lexicon) heart_words
           (map chars ["h-a--"; "-----"; "-----"; "-----"; "---n-"]%string)
           9 0 2 "a").
  - split; [reflexivity|]. repeat constructor.
  - reflexivity.
  - reflexivity.
  - reflexivity.
Defined.

(** ** C3: a pattern that is already resolved *)

Lemma insert_sorted_perm c l : insert_sorted c l ≡ₚ c :: l.
Proof.
  induction l as [|x t IH]; simpl; [done|].
  destruct (nat_of_ascii c <=? nat_of_ascii x); [done|].
  rewrite IH. apply Permutation_swap.
Qed.

Lemma sort_perm l : sort l ≡ₚ l.
Proof.
  unfold sort. induction l as [|x t IH]; simpl; [done|].
  by rewrite insert_sorted_perm, IH.
Qed.

Lemma remove_used_all (pool used : list ascii) :
  pool ≡ₚ used -> Solver.remove_used pool used = [].
Proof.
  unfold Solver.remove_used. revert pool.
  induction used as [|c u IH]; intros pool Hp; simpl.
  - by apply Permutation_nil_r in Hp.
  - assert (c ∈ pool) as Hin by (rewrite Hp; apply list_elem_of_here).
    destruct (remove_first_is_Some c pool Hin) as [p' Hp'].
    rewrite Hp'. simpl. apply IH.
    apply remove_first_Some in Hp'. rewrite Hp' in Hp.
    by apply Permutation_cons_inv in Hp.
Qed.

Lemma filter_all {A} (P : A -> Prop) `{!forall x, Decision (P x)} (l : list A) :
  Forall P l -> filter P l = l.
Proof.
  induction 1 as [|x t Hx Ht IH]; [done|].
  by rewrite filter_cons_True, IH.
Qed.

Lemma concat_lower (p : list word) :
  concat (map lower_word p) = lower_word (concat p).
Proof.
  unfold lower_word. induction p as [|r t IH]; simpl; [done|].
  by rewrite IH, map_app.
Qed.

(** C3.  The pattern is fully resolved (every cell a letter) and the rack
    is the letters of the pattern.  [set_problem] then leaves no letter,
    [try_grid] takes the empty list for the mark of [check_diagonal]'s
    failure, and [solve] returns [["ERROR"]] and not the grid. *)
Theorem solve_resolved_grid_is_error (s : Solver.t) (rack patterns : list word)
    (fuel : nat) :
  five_by_five patterns ->
  Forall (fun c => is_alpha c = true) (lower_word (concat patterns)) ->
  lower_word (concat rack) ≡ₚ lower_word (concat patterns) ->
  snd (Solver.solve fuel (Solver.set_problem s rack patterns)) = Ok [ERROR].
Proof.
  intros H5 Halpha Hperm.
  assert (Solver.letters (Solver.set_problem s rack patterns) = []) as Hnil.
  { simpl. apply remove_used_all.
    rewrite concat_lower, filter_all by done.
    by rewrite sort_perm. }
  remember (Solver.set_problem s rack patterns) as s1 eqn:Es1.
  destruct (check_diagonal_spec (Solver.start_grid s1) (Solver.rows s1, Solver.letters s1))
    as (d & Hcd & _ & Hkeep & _).
  { subst s1. apply set_problem_NoDup. } { subst s1. by apply set_problem_shape5. }
  apply (solve_state fuel s1 d _ Hcd). by apply Hkeep.
Qed.

Lemma solve_resolved_grid_is_error_witness :
  snd (Solver.solve 9 (Solver.set_problem (Solver.init heart_lexicon)
                         heart_words heart_words)) = Ok [ERROR].
Proof.
  apply (solve_resolved_grid_is_error (Solver.init heart_lexicon)
           heart_words heart_words 9).
  - split; [reflexivity|]. repeat constructor.
  - vm_compute. repeat constructor.
  - reflexivity.
Defined.

(** The same rack on the empty pattern: the square is found. *)
Example solve_heart_square :
  snd (Solver.solve 20 (Solver.set_problem (Solver.init heart_lexicon)
                          heart_words empty_pattern))
  = Ok [Grid heart_words].
Proof. vm_compute. reflexivity. Qed.
(** ** The search: what [traverse] keeps true of the grid *)

Lemma bind_Ok {A B} (m : outcome A) (k : A -> outcome B) (b : B) :
  m ≫= k = Ok b -> exists a, m = Ok a /\ k a = Ok b.
Proof. destruct m as [a|e|]; simpl; [eauto|done|done]. Qed.

Lemma index_Ok {A} (l : list A) (i : nat) (a : A) :
  index l i = Ok a <-> l !! i = Some a.
Proof. unfold index. destruct (l !! i); split; congruence. Qed.

Lemma fold_outcome_cons {A X} (body : X -> A -> outcome X) a l x y :
  fold_outcome body (a :: l) x = Ok y ->
  exists x', body x a = Ok x' /\ fold_outcome body l x' = Ok y.
Proof. simpl. apply bind_Ok. Qed.

Lemma set_cell_spec (sol sol' : grid) (r c : nat) (v : ascii) :
  set_cell sol r c v = Ok sol' ->
  at_ sol' r c = Some v
  /\ (forall r' c', (r', c') <> (r, c) -> at_ sol' r' c' = at_ sol r' c').
Proof.
  unfold set_cell. intros (row & Hrow%index_Ok & H)%bind_Ok.
  apply bind_Ok in H as (row' & Hrow' & [= <-]).
  unfold assign in Hrow'. case_decide as Hc; [|done]. injection Hrow' as <-.
  pose proof (lookup_lt_Some _ _ _ Hrow) as Hr.
  split.
  - unfold at_. rewrite list_lookup_insert_eq by done.
    by apply list_lookup_insert_eq.
  - intros r' c' Hne. unfold at_.
    destruct (decide (r' = r)) as [->|Hnr].
    + rewrite list_lookup_insert_eq, Hrow by done.
      apply list_lookup_insert_ne. congruence.
    + by rewrite list_lookup_insert_ne.
Qed.

(** The loop that resets the cells below and right of [row]. *)
Lemma reset_spec (row : nat) (init_ : grid) (ps : list (nat * nat)) (sol sol' : grid) :
  fold_outcome (Solver.reset_cell row init_) ps sol = Ok sol' ->
  forall r c, r < row \/ c < row -> at_ sol' r c = at_ sol r c.
Proof.
  revert sol. induction ps as [|[rw col] ps IH]; intros sol H r c Hrc.
  - by injection H as <-.
  - apply fold_outcome_cons in H as (sol1 & Hstep & Hrest).
    rewrite (IH _ Hrest r c Hrc). unfold Solver.reset_cell in Hstep.
    destruct ((row <=? rw) && (row <=? col)) eqn:E.
    + apply andb_true_iff in E as [E1%Nat.leb_le E2%Nat.leb_le].
      apply bind_Ok in Hstep as (v & _ & Hset).
      apply set_cell_spec in Hset as [_ Hoth]. apply Hoth.
      intros [= -> ->]. lia.
    + by injection Hstep as <-.
Qed.

(** The loop of [set_word] over the indices [idx]. *)
Lemma set_word_fold (w : word) (row : nat) (idx : list nat) (sol sol' : grid) :
  fold_outcome (fun sol i =>
      wi ← index w i;
      sol1 ← set_cell sol row i wi;
      wi' ← index w i;
      set_cell sol1 i row wi') idx sol = Ok sol' ->
  (forall r c, (r <> row \/ c ∉ idx) -> (c <> row \/ r ∉ idx) ->
      at_ sol' r c = at_ sol r c)
  /\ (NoDup idx -> forall i, i ∈ idx ->
      exists x, w !! i = Some x
                /\ at_ sol' row i = Some x /\ at_ sol' i row = Some x).
Proof.
  revert sol. induction idx as [|i idx IH]; intros sol H.
  - injection H as <-. split; [done|]. intros _ i Hi. by apply elem_of_nil in Hi.
  - apply fold_outcome_cons in H as (sol2 & Hstep & Hrest).
    apply bind_Ok in Hstep as (x & Hx%index_Ok & Hstep).
    apply bind_Ok in Hstep as (sol1 & Hset1 & Hstep).
    apply bind_Ok in Hstep as (x' & Hx'%index_Ok & Hset2).
    rewrite Hx in Hx'. injection Hx' as <-.
    apply set_cell_spec in Hset1 as [Hv1 Ho1].
    apply set_cell_spec in Hset2 as [Hv2 Ho2].
    destruct (IH _ Hrest) as [Hoth Hin].
    assert (at_ sol2 row i = Some x) as Hri.
    { destruct (decide (i = row)) as [->|Hne]; [done|].
      rewrite Ho2; [done|]. congruence. }
    split.
    + intros r c H1 H2. rewrite Hoth.
      * rewrite Ho2, Ho1; [done| |].
        -- intros [= -> ->]. destruct H1 as [H1|H1]; [done|].
           apply H1, list_elem_of_here.
        -- intros [= -> ->]. destruct H2 as [H2|H2]; [done|].
           apply H2, list_elem_of_here.
      * destruct H1 as [H1|H1]; [by left|]. right.
        intros Hc. apply H1. by apply list_elem_of_further.
      * destruct H2 as [H2|H2]; [by left|]. right.
        intros Hc. apply H2. by apply list_elem_of_further.
    + intros Hnd j Hj. apply NoDup_cons in Hnd as [Hni Hnd].
      apply elem_of_cons in Hj as [->|Hj]; [|by apply Hin].
      exists x. split; [done|].
      assert (i <> row \/ row ∉ idx) as Hj.
      { destruct (decide (i = row)) as [->|Hne]; [by right|by left]. }
      rewrite !Hoth by auto. done.
Qed.

Lemma set_word_spec (w : word) (row : nat) (sol sol' : grid) :
  Solver.set_word w row sol = Ok sol' ->
  (forall r c, r <> row -> c <> row -> at_ sol' r c = at_ sol r c)
  /\ (forall i, i < 5 ->
      exists x, w !! i = Some x
                /\ at_ sol' row i = Some x /\ at_ sol' i row = Some x).
Proof.
  intros H. apply set_word_fold in H as [Hoth Hin]. split.
  - intros r c Hr Hc. apply Hoth; by left.
  - intros i Hi. apply Hin; [apply NoDup_seq|]. apply elem_of_seq. lia.
Qed.

Lemma check_singles_spec (singles_ : list ascii) (row : nat) (w : word) :
  Solver.check_singles singles_ row w = true ->
  forall pos x, w !! pos = Some x -> pos <> row -> x ∉ singles_.
Proof.
  unfold Solver.check_singles. rewrite forallb_forall.
  intros H pos x Hx Hne Hin.
  specialize (H (pos, x)). simpl in H.
  assert (In (pos, x) (imap (fun pos c => (pos, c)) w)) as HI.
  { apply list_elem_of_In. by apply (elem_of_lookup_imap_2 (fun pos c => (pos, c))). }
  apply H in HI. apply negb_true_iff, andb_false_iff in HI as [HI|HI].
  - unfold mem in HI. by apply bool_decide_eq_false in HI.
  - apply negb_false_iff, Nat.eqb_eq in HI. done.
Qed.

Lemma settled_mono singles_ k k' sol :
  k' <= k -> settled singles_ k sol -> settled singles_ k' sol.
Proof. intros Hk H r c Hr Hc Hr' Hc'. apply H; lia. Qed.

Lemma settled_ext singles_ k sol sol' :
  (forall r c, r < k -> c < k -> at_ sol' r c = at_ sol r c) ->
  settled singles_ k sol -> settled singles_ k sol'.
Proof.
  intros Heq H r c Hr Hc Hr' Hc'. rewrite !Heq by done. by apply H.
Qed.

(** Writing a word that passed [check_singles] settles one more row. *)
Lemma settled_set_word singles_ (w : word) (row : nat) (sol sol' : grid) :
  Solver.check_singles singles_ row w = true ->
  settled singles_ row sol ->
  Solver.set_word w row sol = Ok sol' ->
  settled singles_ (S row) sol'.
Proof.
  intros Hcs Hs Hw. apply set_word_spec in Hw as [Hoth Hin].
  pose proof (check_singles_spec _ _ _ Hcs) as Hsing.
  intros r c Hr Hc Hr' Hc'.
  destruct (decide (r = row)) as [->|Hnr].
  - destruct (Hin c Hc) as (x & Hx & H1 & H2). exists x. split_and!; auto.
    intros Hne. eapply Hsing; eauto.
  - destruct (decide (c = row)) as [->|Hnc].
    + destruct (Hin r Hr) as (x & Hx & H1 & H2). exists x. split_and!; auto.
      intros Hne. eapply Hsing; eauto.
    + rewrite !Hoth by done. apply Hs; lia.
Qed.

Lemma check_muddle_no_dash (g : grid) :
  Solver.check_muddle g = true -> forall row, row ∈ g -> dash ∉ row.
Proof.
  unfold Solver.check_muddle.
  destruct (existsb (mem dash) g) eqn:E; [done|]. intros _ row Hrow Hd.
  assert (existsb (mem dash) g = true) as Ht; [|congruence].
  apply existsb_exists. exists row. split; [by apply list_elem_of_In|].
  by apply bool_decide_eq_true.
Qed.

Lemma filter_outcome_sub {A} (test : A -> outcome bool) (l l' : list A) :
  filter_outcome test l = Ok l' -> forall a, a ∈ l' -> a ∈ l.
Proof.
  revert l'. induction l as [|x t IH]; intros l' H a Ha.
  - injection H as <-. done.
  - simpl in H. apply bind_Ok in H as (b & _ & H).
    apply bind_Ok in H as (r' & Hr' & [= <-]).
    destruct b.
    + apply elem_of_cons in Ha as [->|Ha]; [apply list_elem_of_here|].
      apply list_elem_of_further. eauto.
    + apply list_elem_of_further. eauto.
Qed.
Lemma pure_bind {S A B} (o : outcome A) (k : A -> M S B) (s : S) :
  (Solver.pure o ≫= k) s
  = match o with
    | Ok a => k a s
    | Raise e => (s, Raise e)
    | NoFuel => (s, NoFuel)
    end.
Proof. rewrite M_bind_eq. unfold Solver.pure. by destruct o. Qed.

(** A loop on an object keeps what each round keeps. *)
Lemma fold_M_inv {S A X} (body : X -> A -> M S X) (I : X -> Prop) (J : S -> Prop)
    (l : list A) :
  (forall x a s s' o, a ∈ l -> I x -> J s -> body x a s = (s', o) ->
      J s' /\ (forall x', o = Ok x' -> I x')) ->
  forall x s s' o, I x -> J s -> Solver.fold_M body l x s = (s', o) ->
    J s' /\ (forall x', o = Ok x' -> I x').
Proof.
  induction l as [|a l IH]; intros Hbody x s s' o Hx Hs H.
  - injection H as <- <-. split; [done|]. by intros x' [= <-].
  - simpl in H. rewrite M_bind_eq in H.
    destruct (body x a s) as [s1 o1] eqn:E.
    destruct (Hbody x a s s1 o1 (list_elem_of_here _ _) Hx Hs E) as [Hs1 Hx1].
    destruct o1 as [x1|e|].
    + eapply (IH (fun x a s s' o Ha => Hbody x a s s' o (list_elem_of_further _ _ _ Ha)));
        [| |exact H]; auto.
    + injection H as <- <-. split; [done|]. done.
    + injection H as <- <-. split; [done|]. done.
Qed.

Lemma traverse_S (graph_ : GADDAG) (singles_ : list ascii) (init_ : grid)
    (fuel row : nat) (pool : list ascii) (solution : grid) :
  Solver.traverse graph_ singles_ init_ (S fuel) row pool solution
  = if (4 <? row) && Solver.check_muddle solution
    then fun sols => (sols ++ [Grid solution], Ok solution)
    else
      solution1 ← Solver.pure (fold_outcome (Solver.reset_cell row init_)
                                 positions solution);
      pattern ← Solver.pure (Solver.get_pattern row solution1);
      found ← Solver.pure (iterate fuel (snd (find_lett_patt graph_ pool pattern)));
      let possibles :=
        filter (fun w => Solver.check_singles singles_ row w = true) found in
      possibles' ← Solver.pure (filter_outcome
                      (fun w => Solver.check_pattern row w pool pattern) possibles);
      Solver.fold_M (fun sol w =>
          let sol0 := if row =? 0 then init_ else sol in
          sol1 ← Solver.pure (Solver.set_word w row sol0);
          new_letters ← Solver.pure (Solver.get_letters w pool row pattern);
          Solver.traverse graph_ singles_ init_ fuel (S row) new_letters sol1)
        possibles' solution1.
Proof. reflexivity. Qed.

(** [traverse] appends only grids that are settled and without ["-"], and
    leaves settled the rows above [row] of the grid it works on. *)
Lemma traverse_inv (graph_ : GADDAG) (singles_ : list ascii) (init_ : grid)
    (fuel : nat) :
  forall (row : nat) (pool : list ascii) (sol : grid) (sols sols' : list entry)
         (o : outcome grid),
    settled singles_ row sol ->
    Forall (good singles_) sols ->
    Solver.traverse graph_ singles_ init_ fuel row pool sol sols = (sols', o) ->
    Forall (good singles_) sols'
    /\ (forall sol', o = Ok sol' -> settled singles_ row sol').
Proof.
  induction fuel as [|fuel IH]; intros row pool sol sols sols' o Hset Hgood H.
  - injection H as <- <-. split; [done|]. done.
  - rewrite traverse_S in H.
    destruct ((4 <? row) && Solver.check_muddle sol) eqn:Ebase.
    + injection H as <- <-. apply andb_true_iff in Ebase as [Hrow%Nat.ltb_lt Hcm].
      split; [|by intros sol' [= <-]].
      apply Forall_app. split; [done|]. apply Forall_singleton. split.
      * eapply settled_mono; [|exact Hset]. lia.
      * by apply check_muddle_no_dash.
    + rewrite pure_bind in H.
      destruct (fold_outcome (Solver.reset_cell row init_) positions sol)
        as [sol1|e|] eqn:Ereset;
        cbn beta iota in H;
        [|injection H as <- <-; by split|injection H as <- <-; by split].
      rewrite pure_bind in H.
      destruct (Solver.get_pattern row sol1) as [pattern|e|];
        cbn beta iota in H;
        [|injection H as <- <-; by split|injection H as <- <-; by split].
      rewrite pure_bind in H.
      destruct (iterate fuel (find_lett_patt graph_ pool pattern).2) as [found|e|];
        cbn beta iota in H;
        [|injection H as <- <-; by split|injection H as <- <-; by split].
      cbv zeta in H. rewrite pure_bind in H.
      destruct (filter_outcome _ _) as [possibles|e|] eqn:Efilter;
        cbn beta iota in H;
        [|injection H as <- <-; by split|injection H as <- <-; by split].
      assert (settled singles_ row sol1) as Hset1.
      { eapply settled_ext; [|exact Hset].
        intros r c Hr Hc. eapply reset_spec; eauto. }
      revert H. apply fold_M_inv; [|done|done].
      intros x w s s' o' Hw Hx Hs Hbody.
      assert (Solver.check_singles singles_ row w = true) as Hcs.
      { eapply filter_outcome_sub in Hw; [|exact Efilter].
        by apply list_elem_of_filter in Hw as [Hw _]. }
      cbv zeta in Hbody. rewrite pure_bind in Hbody.
      destruct (Solver.set_word w row _) as [sol2|e|] eqn:Eset;
        cbn beta iota in Hbody;
        [|injection Hbody as <- <-; by split|injection Hbody as <- <-; by split].
      rewrite pure_bind in Hbody.
      destruct (Solver.get_letters w pool row pattern) as [new_letters|e|];
        cbn beta iota in Hbody;
        [|injection Hbody as <- <-; by split|injection Hbody as <- <-; by split].
      assert (settled singles_ (S row) sol2) as Hset2.
      { eapply settled_set_word; [exact Hcs| |exact Eset].
        destruct (row =? 0) eqn:E0; [|done].
        apply Nat.eqb_eq in E0 as ->. intros r c _ _ Hr. lia. }
      destruct (IH _ _ _ _ _ _ Hset2 Hs Hbody) as [Hs' Hx'].
      split; [done|]. intros x' ->.
      eapply settled_mono; [|by apply Hx']. lia.
Qed.

(** Every element of the list that [solve] returns is good. *)
Lemma solve_good (fuel : nat) (s : Solver.t) (sols : list entry) :
  snd (Solver.solve fuel s) = Ok sols -> Forall (good (Solver.singles s)) sols.
Proof.
  unfold Solver.solve, Solver.try_grid. simpl.
  destruct (Solver.check_diagonal _ _) as [d [g|e|]]; simpl; [|done|done].
  destruct (nonempty (snd d)).
  - destruct (Solver.traverse _ _ _ _ _ _ _ _) as [sols' o] eqn:E.
    apply traverse_inv in E as [Hg _].
    + destruct o; simpl; [|done|done]. by intros [= <-].
    + intros r c _ _ Hr. lia.
    + constructor.
  - simpl. intros [= <-]. by repeat constructor.
Qed.
(** ** C1: the grids that [solve] returns are symmetric and complete *)

Lemma at_elem (g : grid) (r c : nat) (x : ascii) :
  at_ g r c = Some x -> exists row, row ∈ g /\ x ∈ row.
Proof.
  unfold at_. destruct (g !! r) as [row|] eqn:E; [|done]. intros H.
  exists row. split; eapply list_elem_of_lookup_2; eauto.
Qed.

(** C1.  Every grid in the list that [solve] returns has, for all [r] and
    [c] in 0..4, the cells [(r, c)] and [(c, r)] equal, and no row of it
    holds the wildcard ["-"]. *)
Theorem solve_grids_symmetric (s : Solver.t) (rack patterns : list word)
    (fuel : nat) (sols : list entry) (g : grid) :
  snd (Solver.solve fuel (Solver.set_problem s rack patterns)) = Ok sols ->
  Grid g ∈ sols ->
  (forall r c, r < 5 -> c < 5 ->
     exists x, at_ g r c = Some x /\ at_ g c r = Some x /\ x <> dash)
  /\ (forall row, row ∈ g -> dash ∉ row).
Proof.
  intros Hsolve Hg. apply solve_good in Hsolve.
  apply (proj1 (Forall_forall _ _) Hsolve) in Hg as [Hset Hdash].
  split; [|done]. intros r c Hr Hc.
  destruct (Hset r c Hr Hc Hr Hc) as (x & H1 & H2 & _).
  exists x. split_and!; [done|done|]. intros ->.
  apply at_elem in H1 as (row & Hrow & Hx). by apply (Hdash row).
Qed.

Lemma solve_grids_symmetric_witness :
  (exists x, at_ heart_words 1 3 = Some x /\ at_ heart_words 3 1 = Some x
             /\ x <> dash)
  /\ dash ∉ chars "ember".
Proof.
  destruct (solve_grids_symmetric (Solver.init heart_lexicon) heart_words
              empty_pattern 20 [Grid heart_words] heart_words) as [H1 H2].
  - vm_compute. reflexivity.
  - constructor.
  - split.
    + apply H1; lia.
    + apply H2. vm_compute. repeat constructor.
Defined.

(** ** C7: letters that occur once stay on the diagonal *)

Lemma count_cons x a l :
  count x (a :: l) = (if decide (a = x) then 1 else 0) + count x l.
Proof. unfold count. rewrite filter_cons. by case_decide. Qed.

Lemma occ_get_bump d c x :
  occ_get (Solver.bump d c) x = occ_get d x + (if decide (c = x) then 1 else 0).
Proof.
  induction d as [|[k n] r IH]; simpl.
  - unfold eqc. case_bool_decide; case_decide; congruence.
  - unfold eqc in *. case_bool_decide as Hkc; simpl.
    + subst k. unfold eqc. case_bool_decide; case_decide; try congruence; lia.
    + unfold eqc. case_bool_decide; [|done].
      case_decide; [congruence|lia].
Qed.

Lemma occ_get_foldl l d x :
  occ_get (foldl Solver.bump d l) x = occ_get d x + count x l.
Proof.
  revert d. induction l as [|a l IH]; intros d; simpl.
  - unfold count. simpl. lia.
  - rewrite IH, occ_get_bump, count_cons. lia.
Qed.

Lemma occ_get_elem d x n : occ_get d x = n -> n <> 0 -> (x, n) ∈ d.
Proof.
  induction d as [|[k m] r IH]; simpl; intros H Hn; [congruence|].
  unfold eqc in H. case_bool_decide.
  - subst. apply list_elem_of_here.
  - apply list_elem_of_further. auto.
Qed.

Lemma count_perm x l l' : l ≡ₚ l' -> count x l = count x l'.
Proof.
  intros H. unfold count. by rewrite (Permutation_length (filter_Permutation _ _ _ H)).
Qed.

(** The letters of [singles] are those that the rack holds once. *)
Lemma set_problem_singles (s : Solver.t) (rack patterns : list word) (x : ascii) :
  count x (lower_word (concat rack)) = 1 ->
  x ∈ Solver.singles (Solver.set_problem s rack patterns).
Proof.
  intros Hc. simpl.
  change (map fst ?l) with (fst <$> l).
  apply (list_elem_of_fmap_2 fst _ (x, 1)).
  apply list_elem_of_filter. split; [done|].
  apply occ_get_elem; [|done].
  rewrite occ_get_foldl. simpl. by rewrite (count_perm _ _ _ (sort_perm _)).
Qed.

(** C7.  In a grid that [solve] returns, a cell off the main diagonal never
    holds a letter that the rack, lowercased, holds exactly once. *)
Theorem solve_singles_on_diagonal (s : Solver.t) (rack patterns : list word)
    (fuel : nat) (sols : list entry) (g : grid) (r c : nat) (x : ascii) :
  snd (Solver.solve fuel (Solver.set_problem s rack patterns)) = Ok sols ->
  Grid g ∈ sols ->
  r < 5 -> c < 5 -> r <> c ->
  at_ g r c = Some x ->
  count x (lower_word (concat rack)) <> 1.
Proof.
  intros Hsolve Hg Hr Hc Hne Hx Hcount. apply solve_good in Hsolve.
  apply (proj1 (Forall_forall _ _) Hsolve) in Hg as [Hset _].
  destruct (Hset r c Hr Hc Hr Hc) as (y & H1 & _ & Hs).
  rewrite Hx in H1. injection H1 as <-.
  apply (Hs Hne). by apply set_problem_singles.
Qed.

Lemma solve_singles_on_diagonal_witness :
  count "e" (lower_word (concat heart_words)) <> 1.
Proof.
  apply (solve_singles_on_diagonal (Solver.init heart_lexicon) heart_words
           empty_pattern 20 [Grid heart_words] heart_words 0 1 "e").
  - vm_compute. reflexivity.
  - constructor.
  - lia.
  - lia.
  - lia.
  - reflexivity.
Defined.

(** * The index that insertions build, and the crawl over it *)

(** ** The arena under the operations of [Node] *)

Lemma get_put es c v c' :
  Node.get (Node.put es c v) c' = if decide (c' = c) then Some v else Node.get es c'.
Proof.
  induction es as [|[k x] r IH]; simpl.
  - unfold eqc. case_bool_decide; case_decide; congruence.
  - unfold eqc in *. case_bool_decide as Hk; simpl; unfold eqc.
    + subst k. case_bool_decide; case_decide; congruence.
    + case_bool_decide; [|done]. case_decide; [congruence|done].
Qed.

Lemma get_Some_elem es c v : Node.get es c = Some v -> (c, v) ∈ es.
Proof.
  induction es as [|[k x] r IH]; simpl; [done|].
  unfold eqc. case_bool_decide.
  - intros [= ->]. subst. apply list_elem_of_here.
  - intros Hg. apply list_elem_of_further. auto.
Qed.

Lemma get_None_labels es c : Node.get es c = None <-> c ∉ map fst es.
Proof.
  induction es as [|[k x] r IH]; simpl.
  - split; [intros _ H; by apply elem_of_nil in H|done].
  - unfold eqc. case_bool_decide as Hk.
    + subst. split; [done|]. intros H. destruct H. apply list_elem_of_here.
    + rewrite IH. rewrite not_elem_of_cons. naive_solver.
Qed.

Lemma elem_get es c v : NoDup (map fst es) -> (c, v) ∈ es -> Node.get es c = Some v.
Proof.
  induction es as [|[k x] r IH]; simpl; intros Hnd Hin.
  - by apply elem_of_nil in Hin.
  - apply NoDup_cons in Hnd as [Hk Hnd]. unfold eqc.
    apply elem_of_cons in Hin as [[= -> ->]|Hin].
    + by case_bool_decide.
    + case_bool_decide as E; [|auto]. subst k. destruct Hk.
      change (map fst r) with (fst <$> r).
      by apply (list_elem_of_fmap_2 fst _ (c, v)).
Qed.

Lemma labels_put es c v :
  map fst (Node.put es c v)
  = if decide (c ∈ map fst es) then map fst es else map fst es ++ [c].
Proof.
  induction es as [|[k x] r IH]; cbn [Node.put map fst].
  - destruct (decide (c ∈ [])) as [H|H]; [by apply elem_of_nil in H|done].
  - unfold eqc. case_bool_decide as Hk; cbn [map fst].
    + subst. destruct (decide (c ∈ c :: map fst r)) as [H|H]; [done|].
      destruct H. apply list_elem_of_here.
    + rewrite IH.
      destruct (decide (c ∈ map fst r)) as [H1|H1],
        (decide (c ∈ k :: map fst r)) as [H2|H2]; try done.
      * destruct H2. by apply list_elem_of_further.
      * apply elem_of_cons in H2 as [->|H2]; done.
Qed.

Lemma NoDup_labels_put es c v :
  NoDup (map fst es) -> NoDup (map fst (Node.put es c v)).
Proof.
  intros H. rewrite labels_put. case_decide; [done|].
  apply NoDup_app. split_and!; [done| |apply NoDup_singleton].
  intros x Hx Hc. apply list_elem_of_singleton in Hc. by subst.
Qed.

Lemma node_at_insert (h : arena) (i j : nat) (n : Node.t) :
  i < length h ->
  node_at (<[i := n]> h) j = if decide (j = i) then n else node_at h j.
Proof.
  intros Hi. unfold node_at. case_decide as E.
  - subst. by rewrite list_lookup_insert_eq.
  - by rewrite list_lookup_insert_ne.
Qed.

Lemma node_at_app (h : arena) (n : Node.t) (j : nat) :
  node_at (h ++ [n]) j
  = if decide (j = length h) then n else node_at h j.
Proof.
  unfold node_at. case_decide as E.
  - subst. by rewrite lookup_app_r, Nat.sub_diag.
  - destruct (decide (j < length h)).
    + by rewrite lookup_app_l.
    + rewrite !(proj2 (lookup_ge_None _ _)); [done|lia|].
      rewrite length_app. simpl. lia.
Qed.

Lemma node_at_ge (h : arena) (j : nat) :
  length h <= j -> node_at h j = Node.empty false.
Proof. intros H. unfold node_at. by rewrite (proj2 (lookup_ge_None _ _)). Qed.

Lemma edge_ge (h : arena) (j : nat) (c : ascii) : length h <= j -> edge h j c = None.
Proof. intros H. unfold edge. by rewrite node_at_ge. Qed.

Lemma edge_lt (h : arena) (i j : nat) (c : ascii) : edge h i c = Some j -> i < length h.
Proof.
  intros H. destruct (decide (i < length h)); [done|].
  rewrite edge_ge in H by lia. done.
Qed.

Lemma edge_set_edge (h : arena) (i : nat) (c : ascii) (d i' : nat) (c' : ascii) :
  i < length h ->
  edge (set_edge h i c d) i' c'
  = if decide (i' = i /\ c' = c) then Some d else edge h i' c'.
Proof.
  intros Hi. unfold edge, set_edge. rewrite node_at_insert by done.
  case_decide as E1; simpl.
  - subst. rewrite get_put. case_decide; case_decide; naive_solver.
  - case_decide; naive_solver.
Qed.

Lemma is_end_set_edge (h : arena) (i : nat) (c : ascii) (d j : nat) :
  is_end (set_edge h i c d) j = is_end h j.
Proof.
  unfold is_end, set_edge. destruct (decide (i < length h)).
  - rewrite node_at_insert by done. case_decide; by subst.
  - by rewrite list_insert_ge by lia.
Qed.

Lemma labels_set_edge (h : arena) (i : nat) (c : ascii) (d j : nat) :
  NoDup (Node.labels (node_at h j)) ->
  NoDup (Node.labels (node_at (set_edge h i c d) j)).
Proof.
  unfold set_edge. destruct (decide (i < length h)).
  - rewrite node_at_insert by done. case_decide; [|done]. subst.
    unfold Node.labels. simpl. apply NoDup_labels_put.
  - by rewrite list_insert_ge by lia.
Qed.

Lemma length_set_edge (h : arena) i c d : length (set_edge h i c d) = length h.
Proof. unfold set_edge. apply length_insert. Qed.

Lemma edge_app (h : arena) (e : bool) (i : nat) (c : ascii) :
  edge (h ++ [Node.empty e]) i c = edge h i c.
Proof.
  unfold edge. rewrite node_at_app. case_decide; [|done].
  subst. by rewrite node_at_ge.
Qed.

Lemma is_end_app (h : arena) (e : bool) (j : nat) :
  is_end (h ++ [Node.empty e]) j
  = if decide (j = length h) then e else is_end h j.
Proof. unfold is_end. rewrite node_at_app. by case_decide. Qed.

Lemma edge_set_end (h : arena) (j : nat) (v : bool) (i : nat) (c : ascii) :
  edge (set_end h j v) i c = edge h i c.
Proof.
  unfold edge, set_end. destruct (decide (j < length h)).
  - rewrite node_at_insert by done. case_decide; by subst.
  - by rewrite list_insert_ge by lia.
Qed.

Lemma is_end_set_end (h : arena) (j : nat) (v : bool) (i : nat) :
  j < length h ->
  is_end (set_end h j v) i = if decide (i = j) then v else is_end h i.
Proof.
  intros Hj. unfold is_end, set_end. rewrite node_at_insert by done.
  by case_decide.
Qed.

Lemma labels_set_end (h : arena) (j : nat) (v : bool) (i : nat) :
  Node.labels (node_at (set_end h j v) i) = Node.labels (node_at h i).
Proof.
  unfold set_end. destruct (decide (j < length h)).
  - rewrite node_at_insert by done. case_decide; by subst.
  - by rewrite list_insert_ge by lia.
Qed.
Lemma lookup_snoc_Some {A} (l : list A) (x y : A) (j : nat) :
  (l ++ [x]) !! j = Some y ->
  (j < length l /\ l !! j = Some y) \/ (j = length l /\ y = x).
Proof.
  intros H. destruct (decide (j < length l)) as [Hj|Hj].
  - left. by rewrite lookup_app_l in H.
  - right. rewrite lookup_app_r in H by lia.
    destruct (j - length l) as [|n] eqn:E; simpl in H; [|done].
    injection H as <-. split; [lia|done].
Qed.

Lemma ks_lt h root ks j k : Inv h root ks -> ks !! j = Some k -> j < length h.
Proof. intros HI H. rewrite <- (inv_len _ _ _ HI). by eapply lookup_lt_Some. Qed.

(** A new node behind a new edge. *)
Lemma alloc_child (h : arena) (root : nat) (ks : list kind) (i : nat) (ki : kind)
    (c : ascii) (k : kind) (e : bool) :
  Inv h root ks ->
  ks !! i = Some ki -> edge h i c = None -> okedge ki c k ->
  (k = Leaf -> exists p j, ki = Plus p /\ ks !! j = Some (Plus (p ++ [c]))
                           /\ is_end h j = true) ->
  (k <> Leaf -> exists u, ki = Trie u) ->
  Inv (set_edge (h ++ [Node.empty e]) i c (length h)) root (ks ++ [k])
  /\ ext h (set_edge (h ++ [Node.empty e]) i c (length h))
  /\ edge (set_edge (h ++ [Node.empty e]) i c (length h)) i c = Some (length h)
  /\ is_end (set_edge (h ++ [Node.empty e]) i c (length h)) (length h) = e.
Proof.
  intros HI Hki Hnone Hok Hleaf Htrie.
  set (h' := set_edge (h ++ [Node.empty e]) i c (length h)).
  pose proof (ks_lt _ _ _ _ _ HI Hki) as Hi.
  assert (forall i' c', edge h' i' c'
            = if decide (i' = i /\ c' = c) then Some (length h) else edge h i' c') as E1.
  { intros i' c'. unfold h'. rewrite edge_set_edge, edge_app; [done|].
    rewrite length_app. simpl. lia. }
  assert (forall j, is_end h' j = if decide (j = length h) then e else is_end h j) as E2.
  { intros j. unfold h'. by rewrite is_end_set_edge, is_end_app. }
  assert (forall j k0, ks !! j = Some k0 -> (ks ++ [k]) !! j = Some k0) as K1.
  { intros j k0 H. by apply lookup_app_l_Some. }
  assert (forall j k0, (ks ++ [k]) !! j = Some k0 ->
            (j < length h /\ ks !! j = Some k0) \/ (j = length h /\ k0 = k)) as K2.
  { intros j k0 H. rewrite <- (inv_len _ _ _ HI). by apply lookup_snoc_Some. }
  assert ((ks ++ [k]) !! length h = Some k) as K3.
  { rewrite <- (inv_len _ _ _ HI), lookup_app_r, Nat.sub_diag; done. }
  assert (k <> Leaf -> forall j, ks !! j <> Some k) as Hfresh.
  { intros Hk j Hj. destruct (Htrie Hk) as [u ->]. simpl in Hok.
    case_decide as Hc; subst k.
    - destruct (inv_plus _ _ _ HI j _ Hj) as (i' & Hi' & He).
      rewrite rev_involutive in Hi'.
      assert (i' = i) as -> by (eapply (inv_inj _ _ _ HI); eauto; done).
      subst c. congruence.
    - destruct (inv_trie _ _ _ HI j _ _ Hj) as (i' & Hi' & He).
      assert (i' = i) as -> by (eapply (inv_inj _ _ _ HI); eauto; done).
      congruence. }
  split_and!.
  - constructor.
    + rewrite length_app. unfold h'. rewrite length_set_edge, length_app.
      by rewrite (inv_len _ _ _ HI).
    + apply K1, (inv_root _ _ _ HI).
    + intros j. unfold h'. apply labels_set_edge. rewrite node_at_app.
      case_decide; [apply NoDup_nil_2|apply (inv_nodup _ _ _ HI)].
    + intros i' c' j. rewrite E1. case_decide as E.
      * destruct E as [-> ->]. intros [= <-]. exists ki, k. split_and!; auto.
      * intros He. destruct (inv_edge _ _ _ HI _ _ _ He) as (k1 & k2 & ? & ? & ?).
        exists k1, k2. auto.
    + intros a b k0 Ha Hb Hk0.
      destruct (K2 _ _ Ha) as [[? Ha']|[-> Ea]], (K2 _ _ Hb) as [[? Hb']|[-> Eb]]; auto.
      * eapply (inv_inj _ _ _ HI); eauto.
      * subst k0. by destruct (Hfresh Hk0 a).
      * subst k0. by destruct (Hfresh Hk0 b).
    + intros j u c' Hj. destruct (K2 _ _ Hj) as [[? Hj']|[-> Hk]].
      * destruct (inv_trie _ _ _ HI _ _ _ Hj') as (i' & Hi' & He).
        exists i'. split; [auto|]. rewrite E1. case_decide as E; [|done].
        destruct E as [-> ->]. congruence.
      * subst k. destruct (Htrie ltac:(done)) as [u0 ->]. simpl in Hok.
        case_decide; [done|]. injection Hok as Hu.
        apply app_inj_tail in Hu as [-> ->].
        exists i. split; [auto|]. rewrite E1. by case_decide; [|naive_solver].
    + intros j p Hj. destruct (K2 _ _ Hj) as [[? Hj']|[-> Hk]].
      * destruct (inv_plus _ _ _ HI _ _ Hj') as (i' & Hi' & He).
        exists i'. split; [auto|]. rewrite E1. case_decide as E; [|done].
        destruct E as [-> <-]. congruence.
      * subst k. destruct (Htrie ltac:(done)) as [u0 ->]. simpl in Hok.
        case_decide as Hc; [|done]. injection Hok as ->. subst c.
        rewrite rev_involutive.
        exists i. split; [auto|]. rewrite E1. by case_decide; [|naive_solver].
    + intros i' p c' j Hi' He Hj. rewrite E1 in He. case_decide as E.
      * destruct E as [-> ->]. injection He as <-.
        destruct (K2 _ _ Hj) as [[? _]|[_ Hk]]; [lia|].
        destruct (K2 _ _ Hi') as [[_ Hi'']|[? _]]; [|lia].
        destruct (Hleaf (eq_sym Hk)) as (p' & j' & -> & Hj' & Hend).
        rewrite Hki in Hi''. injection Hi'' as ->.
        exists j'. split; [auto|]. rewrite E2. case_decide; [|done].
        apply (ks_lt _ _ _ _ _ HI) in Hj'. lia.
      * pose proof (edge_lt _ _ _ _ He) as Hlt.
        destruct (K2 _ _ Hi') as [[_ Hi'']|[? _]]; [|lia].
        destruct (inv_edge _ _ _ HI _ _ _ He) as (k1 & k2 & Hk1 & Hk2 & _).
        destruct (K2 _ _ Hj) as [[_ Hj'']|[-> _]];
          [|apply (ks_lt _ _ _ _ _ HI) in Hk2; lia].
        destruct (inv_leaf _ _ _ HI _ _ _ _ Hi'' He Hj'') as (j' & Hj' & Hend).
        exists j'. split; [auto|]. rewrite E2. case_decide; [|done].
        apply (ks_lt _ _ _ _ _ HI) in Hj'. lia.
  - split.
    + intros j Hj. rewrite E2. case_decide; [|done]. subst.
      unfold is_end in Hj. rewrite node_at_ge in Hj by lia. done.
    + intros i' c' j He. left. rewrite E1. case_decide as E; [|done].
      destruct E as [-> ->]. congruence.
  - rewrite E1. by case_decide; [|naive_solver].
  - rewrite E2. by case_decide.
Qed.
Lemma ext_refl h : ext h h.
Proof. split; auto. Qed.

Lemma ext_trans h1 h2 h3 : ext h1 h2 -> ext h2 h3 -> ext h1 h3.
Proof.
  intros [E1 F1] [E2 F2]. split; [auto|].
  intros i c j He. destruct (F1 i c j He) as [H1|[Hno (j' & H1 & Hend)]].
  - destruct (F2 i c j H1) as [H2|[Hno (j' & H2 & Hend)]]; [by left|].
    right. split; [|eauto]. intros c'.
    destruct (edge h1 j c') as [j1|] eqn:Ej; [|done].
    destruct (F1 j c' j1 Ej) as [H|(_ & j2 & H & _)]; rewrite Hno in H; done.
  - right. split; [done|].
    destruct (F2 i c j' H1) as [H2|[_ (j'' & H2 & Hend')]]; eauto.
Qed.

Lemma ends_at_ext h h' n cs : ext h h' -> ends_at h n cs -> ends_at h' n cs.
Proof.
  intros [E F] (e & Hf & He). revert n Hf.
  induction cs as [|c r IH]; intros n Hf; simpl in Hf.
  - injection Hf as ->. exists e. split; [done|auto].
  - destruct (edge h n c) as [n1|] eqn:En; [|done].
    destruct (F n c n1 En) as [H|[Hno (j' & H & Hend)]].
    + destruct (IH n1 Hf) as (e' & Hf' & He').
      exists e'. simpl. rewrite H. done.
    + destruct r as [|c' r]; simpl in Hf.
      * exists j'. simpl. rewrite H. done.
      * rewrite Hno in Hf. done.
Qed.

(** Marking a node as an end. *)
Lemma set_end_step (h : arena) (root : nat) (ks : list kind) (j : nat) :
  Inv h root ks -> j < length h ->
  Inv (set_end h j true) root ks
  /\ ext h (set_end h j true)
  /\ is_end (set_end h j true) j = true.
Proof.
  intros HI Hj.
  assert (forall i, is_end h i = true -> is_end (set_end h j true) i = true) as Hend.
  { intros i Hi. rewrite is_end_set_end by done. by case_decide. }
  split_and!.
  - constructor.
    + unfold set_end. rewrite length_insert. apply (inv_len _ _ _ HI).
    + apply (inv_root _ _ _ HI).
    + intros i. rewrite labels_set_end. apply (inv_nodup _ _ _ HI).
    + intros i c j'. rewrite edge_set_end. apply (inv_edge _ _ _ HI).
    + apply (inv_inj _ _ _ HI).
    + intros j' u c Hk. destruct (inv_trie _ _ _ HI _ _ _ Hk) as (i & ? & ?).
      exists i. by rewrite edge_set_end.
    + intros j' p Hk. destruct (inv_plus _ _ _ HI _ _ Hk) as (i & ? & ?).
      exists i. by rewrite edge_set_end.
    + intros i p c j' Hi He Hj'. rewrite edge_set_end in He.
      destruct (inv_leaf _ _ _ HI _ _ _ _ Hi He Hj') as (k & ? & ?).
      exists k. auto.
  - split; [done|]. intros i c j' He. left. by rewrite edge_set_end.
  - rewrite is_end_set_end by done. by case_decide.
Qed.

Lemma same_edges_refl (n : Node.t) : Node.same_edges n n = true.
Proof. by apply same_edges_spec. Qed.

Lemma no_edges_not_truthy (h : arena) (j : nat) :
  (forall c, edge h j c = None) -> Node.truthy (node_at h j) = false.
Proof.
  intros H. unfold Node.truthy. unfold edge in H.
  destruct (Node._edges (node_at h j)) as [|[c v] r]; [done|].
  specialize (H c). simpl in H. unfold eqc in H. by case_bool_decide.
Qed.

Lemma leaf_no_edges h root ks j c :
  Inv h root ks -> ks !! j = Some Leaf -> edge h j c = None.
Proof.
  intros HI Hj. destruct (edge h j c) as [j'|] eqn:E; [|done].
  destruct (inv_edge _ _ _ HI _ _ _ E) as (k1 & k2 & Hk1 & _ & Hok).
  rewrite Hj in Hk1. injection Hk1 as <-. done.
Qed.

(** Pointing the edge [c] of the node for the prefix [p] at the node for
    the prefix [p ++ [c]]: the check of [_add_word] passes. *)
Lemma link_step (h : arena) (root : nat) (ks : list kind) (i : nat) (p : word)
    (c : ascii) (ex : nat) :
  Inv h root ks ->
  ks !! i = Some (Plus p) -> c <> plus -> ks !! ex = Some (Plus (p ++ [c])) ->
  (forall tgt, edge h i c = Some tgt ->
     Node.truthy (node_at h tgt)
     && negb (Node.same_edges (node_at h tgt) (node_at h ex)) = false)
  /\ Inv (set_edge h i c ex) root ks
  /\ ext h (set_edge h i c ex)
  /\ edge (set_edge h i c ex) i c = Some ex.
Proof.
  intros HI Hi Hc Hex.
  pose proof (ks_lt _ _ _ _ _ HI Hi) as Hlt.
  assert (forall tgt, edge h i c = Some tgt ->
            tgt = ex \/ (ks !! tgt = Some Leaf /\ is_end h ex = true)) as Htgt.
  { intros tgt He.
    destruct (inv_edge _ _ _ HI _ _ _ He) as (k1 & k2 & Hk1 & Hk2 & Hok).
    rewrite Hi in Hk1. injection Hk1 as <-. destruct Hok as [_ [->| ->]].
    - left. eapply (inv_inj _ _ _ HI); eauto.
    - right. split; [done|].
      destruct (inv_leaf _ _ _ HI _ _ _ _ Hi He Hk2) as (k & Hk & Hend).
      assert (k = ex) as <- by (eapply (inv_inj _ _ _ HI); eauto; done). done. }
  split_and!.
  - intros tgt He. destruct (Htgt tgt He) as [->|[Hleaf _]].
    + by rewrite same_edges_refl, andb_false_r.
    + rewrite no_edges_not_truthy; [done|].
      intros c'. eapply leaf_no_edges; eauto.
  - constructor.
    + rewrite length_set_edge. apply (inv_len _ _ _ HI).
    + apply (inv_root _ _ _ HI).
    + intros j. apply labels_set_edge, (inv_nodup _ _ _ HI).
    + intros i' c' j. rewrite edge_set_edge by done. case_decide as E.
      * destruct E as [-> ->]. intros [= <-]. exists (Plus p), (Plus (p ++ [c])).
        split_and!; auto. simpl. auto.
      * apply (inv_edge _ _ _ HI).
    + apply (inv_inj _ _ _ HI).
    + intros j u c' Hk. destruct (inv_trie _ _ _ HI _ _ _ Hk) as (i' & Hi' & He).
      exists i'. split; [done|]. rewrite edge_set_edge by done.
      case_decide as E; [|done]. destruct E as [-> ->]. congruence.
    + intros j p' Hk. destruct (inv_plus _ _ _ HI _ _ Hk) as (i' & Hi' & He).
      exists i'. split; [done|]. rewrite edge_set_edge by done.
      case_decide as E; [|done]. destruct E as [-> _]. congruence.
    + intros i' p' c' j Hi' He Hj. rewrite edge_set_edge in He by done.
      case_decide as E.
      * destruct E as [-> ->]. injection He as <-. congruence.
      * destruct (inv_leaf _ _ _ HI _ _ _ _ Hi' He Hj) as (k & ? & ?).
        exists k. by rewrite is_end_set_edge.
  - split.
    + intros j. by rewrite is_end_set_edge.
    + intros i' c' j He. rewrite edge_set_edge by done. case_decide as E.
      * destruct E as [-> ->]. destruct (Htgt j He) as [->|[Hleaf Hend]]; [by left|].
        right. split; [intros c'; eapply leaf_no_edges; eauto|].
        exists ex. by rewrite is_end_set_edge.
      * by left.
  - rewrite edge_set_edge by done. by case_decide; [|naive_solver].
Qed.
Lemma grows_refl root h ks : Inv h root ks -> grows root h ks h ks.
Proof. intros H. split_and!; [done|apply ext_refl|done]. Qed.

Lemma grows_trans root h1 ks1 h2 ks2 h3 ks3 :
  grows root h1 ks1 h2 ks2 -> grows root h2 ks2 h3 ks3 -> grows root h1 ks1 h3 ks3.
Proof.
  intros (_ & E1 & P1) (I & E2 & P2). split_and!; [done| |].
  - eapply ext_trans; eauto.
  - etrans; eauto.
Qed.

Lemma grows_kind root h ks h' ks' j k :
  grows root h ks h' ks' -> ks !! j = Some k -> ks' !! j = Some k.
Proof. intros (_ & _ & P) H. eapply prefix_lookup_Some; eauto. Qed.

(** [add_edge] on a node of the trie. *)
Lemma add_edge_trie_step (h : arena) (root : nat) (ks : list kind) (i : nat)
    (u : word) (c : ascii) (k : kind) :
  Inv h root ks -> ks !! i = Some (Trie u) -> okedge (Trie u) c k ->
  exists ks',
    grows root h ks (fst (add_edge h i c None false)) ks'
    /\ ks' !! snd (add_edge h i c None false) = Some k.
Proof.
  intros HI Hi Hok. unfold add_edge.
  destruct (edge h i c) as [j|] eqn:E; simpl.
  - exists ks. split; [by apply grows_refl|].
    destruct (inv_edge _ _ _ HI _ _ _ E) as (k1 & k2 & Hk1 & Hk2 & Hok').
    rewrite Hi in Hk1. injection Hk1 as <-. simpl in Hok, Hok'.
    case_decide; congruence.
  - assert (k <> Leaf) as Hk by (simpl in Hok; case_decide; by subst).
    destruct (alloc_child h root ks i (Trie u) c k false HI Hi E Hok)
      as (HI' & Hext & He & _); [done|eauto|].
    exists (ks ++ [k]). split.
    + split_and!; [done|done|by apply prefix_app_r].
    + rewrite <- (inv_len _ _ _ HI), lookup_app_r, Nat.sub_diag; done.
Qed.

Lemma not_in_app_cons {A} (x a : A) (l : list A) : x ∉ a :: l -> x <> a /\ x ∉ l.
Proof. by apply not_elem_of_cons. Qed.

(** [add_path] from a node of the trie. *)
Lemma add_path_step (root : nat) (chars : word) :
  forall (h : arena) (ks : list kind) (i : nat) (u : word),
    Inv h root ks -> ks !! i = Some (Trie u) -> plus ∉ chars ->
    exists ks',
      grows root h ks (fst (add_path h i chars)) ks'
      /\ ks' !! snd (add_path h i chars) = Some (Trie (u ++ chars)).
Proof.
  induction chars as [|c r IH]; intros h ks i u HI Hi Hp; simpl.
  - exists ks. rewrite app_nil_r. split; [by apply grows_refl|done].
  - apply not_elem_of_cons in Hp as [Hc Hr].
    destruct (add_edge_trie_step h root ks i u c (Trie (u ++ [c])) HI Hi)
      as (ks1 & Hg1 & Hk1).
    { simpl. case_decide; congruence. }
    destruct (add_edge h i c None false) as [h1 j] eqn:E. simpl in Hg1, Hk1.
    destruct (IH h1 ks1 j (u ++ [c]) (proj1 Hg1) Hk1 Hr) as (ks2 & Hg2 & Hk2).
    exists ks2. split; [eapply grows_trans; eauto|].
    by rewrite <- app_assoc in Hk2.
Qed.

(** [add_end] with the split marker on a node of the trie. *)
Lemma add_end_plus_step (h : arena) (root : nat) (ks : list kind) (i : nat)
    (u : word) :
  Inv h root ks -> ks !! i = Some (Trie u) ->
  exists ks' j,
    grows root h ks (add_end h i plus) ks'
    /\ ks' !! j = Some (Plus (rev u)) /\ is_end (add_end h i plus) j = true
    /\ (forall j', is_end (add_end h i plus) j' = true ->
          is_end h j' = true \/ j' = j).
Proof.
  intros HI Hi. unfold add_end.
  destruct (edge h i plus) as [j|] eqn:E.
  - destruct (inv_edge _ _ _ HI _ _ _ E) as (k1 & k2 & Hk1 & Hk2 & Hok).
    rewrite Hi in Hk1. injection Hk1 as <-. unfold okedge in Hok.
    rewrite decide_True in Hok by done. subst k2.
    pose proof (ks_lt _ _ _ _ _ HI Hk2) as Hj.
    destruct (set_end_step h root ks j HI Hj) as (HI' & Hext & He).
    exists ks, j. split; [|split_and!; [done|done|]].
    + split_and!; done.
    + intros j'. rewrite is_end_set_end by done. case_decide; auto.
  - unfold add_edge. rewrite E. simpl.
    destruct (alloc_child h root ks i (Trie u) plus (Plus (rev u)) true HI Hi E)
      as (HI' & Hext & He & Hend);
      [unfold okedge; by rewrite decide_True|done|eauto|].
    exists (ks ++ [Plus (rev u)]), (length h). split; [|split_and!; [|done|]].
    + split_and!; [done|done|by apply prefix_app_r].
    + rewrite <- (inv_len _ _ _ HI), lookup_app_r, Nat.sub_diag; done.
    + intros j'. rewrite is_end_set_edge, is_end_app. case_decide; auto.
Qed.

(** [add_end] with the last letter of a word on the node of its prefix. *)
Lemma add_end_leaf_step (h : arena) (root : nat) (ks : list kind) (i : nat)
    (p : word) (c : ascii) (k : nat) :
  Inv h root ks -> ks !! i = Some (Plus p) -> c <> plus ->
  ks !! k = Some (Plus (p ++ [c])) -> is_end h k = true ->
  exists ks' j,
    grows root h ks (add_end h i c) ks'
    /\ edge (add_end h i c) i c = Some j /\ is_end (add_end h i c) j = true
    /\ (ks' !! j = Some (Plus (p ++ [c])) \/ ks' !! j = Some Leaf)
    /\ (forall j', is_end (add_end h i c) j' = true ->
          is_end h j' = true \/ j' = j).
Proof.
  intros HI Hi Hc Hk Hend. unfold add_end.
  destruct (edge h i c) as [j|] eqn:E.
  - destruct (inv_edge _ _ _ HI _ _ _ E) as (k1 & k2 & Hk1 & Hk2 & Hok).
    pose proof (ks_lt _ _ _ _ _ HI Hk2) as Hj.
    destruct (set_end_step h root ks j HI Hj) as (HI' & Hext & He).
    exists ks, j. split; [|split_and!; [|done| |]].
    + split_and!; done.
    + by rewrite edge_set_end.
    + rewrite Hi in Hk1. injection Hk1 as <-. destruct Hok as [_ [->| ->]]; auto.
    + intros j'. rewrite is_end_set_end by done. case_decide; auto.
  - unfold add_edge. rewrite E. simpl.
    destruct (alloc_child h root ks i (Plus p) c Leaf true HI Hi E)
      as (HI' & Hext & He & Hend'); [simpl; auto|eauto|done|].
    exists (ks ++ [Leaf]), (length h). split; [|split_and!; [done|done| |]].
    + split_and!; [done|done|by apply prefix_app_r].
    + right. rewrite <- (inv_len _ _ _ HI), lookup_app_r, Nat.sub_diag; done.
    + intros j'. rewrite is_end_set_edge, is_end_app. case_decide; auto.
Qed.
Lemma not_in_rev_take (c : ascii) (w : word) (k : nat) : c ∉ w -> c ∉ rev (take k w).
Proof.
  intros H Hin. apply H. apply list_elem_of_In, in_rev, list_elem_of_In in Hin.
  apply list_elem_of_lookup_1 in Hin as [i Hi].
  apply lookup_take_Some in Hi as [Hi _]. by eapply list_elem_of_lookup_2.
Qed.

(** One round of the loop of [_add_word] on a graph that insertions built:
    it does not raise, and it links the node of the prefix of length
    [S m] to the node of the prefix of length [S (S m)]. *)
Lemma add_word_round (root : nat) (w : word) (h : arena) (ks : list kind)
    (existing_node m : nat) :
  Inv h root ks -> plus ∉ w -> S (S m) <= length w ->
  ks !! existing_node = Some (Plus (take (S (S m)) w)) ->
  exists node ks' h' c,
    add_word_step root w h existing_node m = (h', Ok node)
    /\ grows root h ks h' ks'
    /\ ks' !! node = Some (Plus (take (S m) w))
    /\ w !! S m = Some c /\ edge h' node c = Some existing_node.
Proof.
  intros HI Hp Hm Hex. unfold add_word_step.
  destruct (add_path_step root (rev (take (S m) w)) h ks root [] HI
              (inv_root _ _ _ HI) (not_in_rev_take _ _ _ Hp)) as (ks1 & Hg1 & Hk1).
  destruct (add_path h root (rev (take (S m) w))) as [h1 n1]. simpl in Hg1, Hk1.
  destruct (add_edge_trie_step h1 root ks1 n1 _ plus
              (Plus (take (S m) w)) (proj1 Hg1) Hk1) as (ks2 & Hg2 & Hk2).
  { unfold okedge. rewrite decide_True by done. by rewrite rev_involutive. }
  destruct (add_edge h1 n1 plus None false) as [h2 node]. simpl in Hg2, Hk2.
  destruct (lookup_lt_is_Some_2 w (S m)) as [c Hc]; [lia|]. rewrite Hc.
  assert (c <> plus) as Hcp.
  { intros ->. apply Hp. by eapply list_elem_of_lookup_2. }
  pose proof (grows_trans _ _ _ _ _ _ _ Hg1 Hg2) as Hg12.
  destruct (link_step h2 root ks2 node (take (S m) w) c existing_node
              (proj1 Hg2) Hk2 Hcp) as (Hcheck & HI3 & Hext3 & He3).
  { apply (grows_kind _ _ _ _ _ _ _ Hg12) in Hex.
    by rewrite <- (take_S_r _ _ _ Hc). }
  assert (grows root h ks (set_edge h2 node c existing_node) ks2) as Hg.
  { eapply grows_trans; [exact Hg12|]. split_and!; done. }
  destruct (edge h2 node c) as [tgt|] eqn:E.
  - rewrite (Hcheck tgt eq_refl).
    exists node, ks2, (set_edge h2 node c existing_node), c. split_and!; auto.
  - unfold add_edge. rewrite E. simpl.
    exists node, ks2, (set_edge h2 node c existing_node), c. split_and!; auto.
Qed.

Lemma chain_grows root h ks h' ks' w k0 :
  grows root h ks h' ks' -> chain h ks w k0 -> chain h' ks' w k0.
Proof.
  intros Hg Hc k Hk. destruct (Hc k Hk) as (j & Hj & He).
  exists j. split; [eapply grows_kind; eauto|].
  eapply ends_at_ext; [apply Hg|done].
Qed.

Lemma chain_step root h ks w k node c :
  Inv h root ks ->
  chain h ks w (S k) -> S k <= length w ->
  ks !! node = Some (Plus (take k w)) ->
  w !! k = Some c ->
  (exists nxt, edge h node c = Some nxt
               /\ (ks !! nxt = Some (Plus (take (S k) w)) \/ ends_at h nxt (drop (S k) w))) ->
  chain h ks w k.
Proof.
  intros HI Hc Hk Hnode Hw (nxt & He & Hn) k' Hk'.
  destruct (decide (k' = k)) as [->|Hne]; [|apply Hc; lia].
  exists node. split; [done|].
  assert (ends_at h nxt (drop (S k) w)) as (e & Hf & Hend).
  { destruct Hn as [Hn|Hn]; [|done].
    destruct (Hc (S k)) as (j & Hj & Hj'); [lia|].
    assert (j = nxt) as <- by (eapply (inv_inj _ _ _ HI); eauto; done). done. }
  exists e. split; [|done].
  rewrite (drop_S _ _ _ Hw). simpl. by rewrite He.
Qed.

(** The loop of [_add_word] on a graph that insertions built. *)
Lemma add_word_loop_spec (root : nat) (w : word) :
  plus ∉ w ->
  forall (k : nat) (h : arena) (ks : list kind) (node : nat),
    k + 2 <= length w ->
    Inv h root ks ->
    ks !! node = Some (Plus (take (S k) w)) ->
    chain h ks w (S k) ->
    exists node' ks' h',
      add_word_loop root w h node (rev (seq 0 k)) = (h', Ok node')
      /\ grows root h ks h' ks'
      /\ chain h' ks' w 1.
Proof.
  intros Hp. induction k as [|k IH]; intros h ks node Hk HI Hnode Hch.
  - exists node, ks, h. split_and!; [done|by apply grows_refl|done].
  - rewrite seq_S, rev_app_distr. simpl.
    destruct (add_word_round root w h ks node k HI Hp) as
      (node' & ks1 & h1 & c & Hstep & Hg & Hnode' & Hc & He); [lia|done|].
    rewrite Hstep.
    destruct (IH h1 ks1 node') as (node2 & ks2 & h2 & Hloop & Hg2 & Hch2);
      [lia|apply Hg|done| |].
    + eapply (chain_step root); [apply Hg| |lia|exact Hnode'|exact Hc|].
      * eapply chain_grows; eauto.
      * exists node. split; [done|]. left. eapply grows_kind; eauto.
    + exists node2, ks2, h2. split_and!; [done| |done].
      eapply grows_trans; eauto.
Qed.
Lemma follow_app (h : arena) (n : nat) (a b : word) :
  follow h n (a ++ b) = match follow h n a with
                        | Some m => follow h m b
                        | None => None
                        end.
Proof.
  revert n. induction a as [|c r IH]; intros n; simpl; [done|].
  destruct (edge h n c); [apply IH|done].
Qed.

(** The letters of a node of the trie lead to it from the root. *)
Lemma follow_by_kind (h : arena) (root : nat) (ks : list kind) (u : word) :
  Inv h root ks ->
  forall i, ks !! i = Some (Trie u) -> follow h root u = Some i.
Proof.
  intros HI. induction u as [|c u IH] using rev_ind; intros i Hi.
  - simpl. f_equal. eapply (inv_inj _ _ _ HI); [apply (inv_root _ _ _ HI)|done|done].
  - destruct (inv_trie _ _ _ HI _ _ _ Hi) as (i' & Hi' & He).
    rewrite follow_app, (IH _ Hi'). simpl. by rewrite He.
Qed.

Lemma chain_indexed (h : arena) (root : nat) (ks : list kind) (w : word) :
  Inv h root ks -> chain h ks w 1 -> indexed h root w.
Proof.
  intros HI Hc k Hk. destruct (Hc k Hk) as (j & Hj & e & Hf & He).
  destruct (inv_plus _ _ _ HI _ _ Hj) as (i & Hi & Hedge).
  exists e. split; [|done].
  rewrite follow_app, (follow_by_kind _ _ _ _ HI _ Hi). simpl. by rewrite Hedge.
Qed.

Lemma indexed_ext h h' root w : ext h h' -> indexed h root w -> indexed h' root w.
Proof. intros He Hi k Hk. eapply ends_at_ext; eauto. Qed.

Lemma is_end_ge (h : arena) (j : nat) : length h <= j -> is_end h j = false.
Proof. intros H. unfold is_end. by rewrite node_at_ge. Qed.

Lemma is_end_add_edge (h : arena) (i : nat) (c : ascii) (dst : option nat) (j : nat) :
  is_end (fst (add_edge h i c dst false)) j = is_end h j.
Proof.
  unfold add_edge. destruct (edge h i c); [done|].
  destruct dst as [d|]; simpl.
  - apply is_end_set_edge.
  - rewrite is_end_set_edge, is_end_app. case_decide; [|done].
    subst. by rewrite is_end_ge.
Qed.

Lemma is_end_add_path (chars : word) (h : arena) (i j : nat) :
  is_end (fst (add_path h i chars)) j = is_end h j.
Proof.
  revert h i. induction chars as [|c r IH]; intros h i; simpl; [done|].
  pose proof (is_end_add_edge h i c None j) as H.
  destruct (add_edge h i c None false) as [h' i']. simpl in H.
  by rewrite IH.
Qed.

Lemma is_end_add_word_step (root : nat) (w : word) (h : arena) (ex m j : nat) :
  is_end (fst (add_word_step root w h ex m)) j = is_end h j.
Proof.
  unfold add_word_step.
  pose proof (is_end_add_path (rev (take (S m) w)) h root j) as H1.
  destruct (add_path h root (rev (take (S m) w))) as [h1 n1]. simpl in H1.
  pose proof (is_end_add_edge h1 n1 plus None j) as H2.
  destruct (add_edge h1 n1 plus None false) as [h2 node]. simpl in H2.
  destruct (w !! S m) as [c|]; simpl; [|congruence].
  destruct (edge h2 node c) as [tgt|] eqn:E.
  - destruct (_ && _); simpl; [congruence|].
    rewrite is_end_set_edge. congruence.
  - simpl. rewrite is_end_add_edge. congruence.
Qed.

Lemma is_end_add_word_loop (root : nat) (w : word) (ms : list nat) :
  forall (h : arena) (node j : nat),
    is_end (fst (add_word_loop root w h node ms)) j = is_end h j.
Proof.
  induction ms as [|m ms IH]; intros h node j; simpl; [done|].
  pose proof (is_end_add_word_step root w h node m j) as H.
  destruct (add_word_step root w h node m) as [h' [node'|e|]]; simpl in *;
    [|done|done].
  by rewrite IH.
Qed.

(** [_add_word] on a graph that insertions built, for a word that is not
    in it: the call returns True and the word is indexed. *)
Lemma add_word_spec (g : GADDAG) (ks : list kind) (w : word) :
  Inv (nodes g) (_root g) ks -> plus ∉ w -> w <> [] ->
  __contains__ g w = false ->
  exists g' ks',
    _add_word g w = (g', Ok true)
    /\ _root g' = _root g
    /\ grows (_root g) (nodes g) ks (nodes g') ks'
    /\ indexed (nodes g') (_root g) w
    /\ (forall j, is_end (nodes g') j = true ->
          is_end (nodes g) j = true
          \/ ks' !! j = Some (Plus w) \/ ks' !! j = Some Leaf).
Proof.
  intros HI Hp Hne Hnot. unfold _add_word. rewrite Hnot.
  set (root := _root g) in *. set (n := length w).
  assert (1 <= n) as Hn.
  { unfold n. destruct w; [done|simpl; lia]. }
  (* the path of the whole word, reversed, and its end *)
  destruct (add_path_step root (rev w) (nodes g) ks root [] HI (inv_root _ _ _ HI))
    as (ks1 & Hg1 & Hk1).
  { intros Hin. apply Hp. by apply list_elem_of_In, in_rev, list_elem_of_In. }
  pose proof (is_end_add_path (rev w) (nodes g) root) as H10.
  destruct (add_path (nodes g) root (rev w)) as [h1 n1]. simpl in Hg1, Hk1, H10.
  destruct (add_end_plus_step h1 root ks1 n1 _ (proj1 Hg1) Hk1)
    as (ks2 & jw & Hg2 & Hjw & Hend2 & Hm2).
  rewrite rev_involutive in Hjw.
  (* the path of the word without its last letter *)
  destruct (add_path_step root (rev (take (n - 1) w)) (add_end h1 n1 plus) ks2 root []
              (proj1 Hg2) (inv_root _ _ _ (proj1 Hg2)) (not_in_rev_take _ _ _ Hp))
    as (ks3 & Hg3 & Hk3).
  fold n.
  pose proof (is_end_add_path (rev (take (n - 1) w)) (add_end h1 n1 plus) root) as H32.
  destruct (add_path (add_end h1 n1 plus) root (rev (take (n - 1) w))) as [h3 n3].
  simpl in Hg3, Hk3, H32.
  destruct (add_edge_trie_step h3 root ks3 n3 _ plus (Plus (take (n - 1) w))
              (proj1 Hg3) Hk3) as (ks4 & Hg4 & Hk4).
  { unfold okedge. rewrite decide_True by done. by rewrite rev_involutive. }
  pose proof (is_end_add_edge h3 n3 plus None) as H43.
  destruct (add_edge h3 n3 plus None false) as [h4 node]. simpl in Hg4, Hk4, H43.
  destruct (lookup_lt_is_Some_2 w (n - 1)) as [c Hc]; [unfold n in *; lia|].
  assert (last w = Some c) as ->.
  { rewrite last_lookup. by replace (Init.Nat.pred (length w)) with (n - 1) by (unfold n; lia). }
  assert (c <> plus) as Hcp.
  { intros ->. apply Hp. by eapply list_elem_of_lookup_2. }
  assert (take (n - 1) w ++ [c] = w) as Hw.
  { rewrite <- (take_S_r _ _ _ Hc). replace (S (n - 1)) with n by lia.
    by apply take_ge. }
  pose proof (grows_trans _ _ _ _ _ _ _ Hg3 Hg4) as Hg34.
  destruct (add_end_leaf_step h4 root ks4 node (take (n - 1) w) c jw
              (proj1 Hg4) Hk4 Hcp) as (ks5 & j & Hg5 & He5 & Hend5 & Hkj & Hm5).
  { rewrite Hw. exact (grows_kind _ _ _ _ _ _ _ Hg34 Hjw). }
  { apply (proj1 (proj1 (proj2 Hg34))). done. }
  pose proof (grows_trans _ _ _ _ _ _ _ Hg34 Hg5) as Hg25.
  assert (chain (add_end h4 node c) ks5 w (n - 1)) as Hch.
  { eapply (chain_step root) with (node := node) (c := c);
      [apply (proj1 Hg5)| |lia|exact (grows_kind _ _ _ _ _ _ _ Hg5 Hk4)|done|].
    - intros k Hk. assert (k = n) as -> by (unfold n in *; lia).
      exists jw. split.
      + rewrite take_ge by done. exact (grows_kind _ _ _ _ _ _ _ Hg25 Hjw).
      + exists jw. rewrite drop_ge by done. split; [done|].
        apply (proj1 (proj1 (proj2 Hg25))). done.
    - exists j. split; [done|]. right. exists j.
      replace (S (n - 1)) with n by lia. rewrite drop_ge by done. done. }
  pose proof (grows_trans _ _ _ _ _ _ _
                (grows_trans _ _ _ _ _ _ _ Hg1 Hg2) Hg25) as Hg15.
  assert (forall j', is_end (add_end h4 node c) j' = true ->
            is_end (nodes g) j' = true
            \/ ks5 !! j' = Some (Plus w) \/ ks5 !! j' = Some Leaf) as Hmarks.
  { intros j' Hj'. destruct (Hm5 j' Hj') as [H4| ->].
    - rewrite H43, H32 in H4. destruct (Hm2 j' H4) as [H1| ->].
      + left. by rewrite <- H10.
      + right. left. exact (grows_kind _ _ _ _ _ _ _ Hg25 Hjw).
    - right. rewrite Hw in Hkj. tauto. }
  unfold split_positions. fold n.
  destruct (decide (2 <= n)) as [H2|H2].
  - destruct (add_word_loop_spec root w Hp (n - 2) (add_end h4 node c) ks5 node)
      as (node' & ks6 & h6 & Hloop & Hg6 & Hch6);
      [unfold n in *; lia|apply (proj1 Hg5)| | |].
    + replace (S (n - 2)) with (n - 1) by lia. exact (grows_kind _ _ _ _ _ _ _ Hg5 Hk4).
    + by replace (S (n - 2)) with (n - 1) by lia.
    + pose proof (is_end_add_word_loop root w (rev (seq 0 (n - 2)))
                    (add_end h4 node c) node) as Hloop_end.
      rewrite Hloop in Hloop_end. simpl in Hloop_end.
      rewrite Hloop. eexists _, ks6. split_and!; [done|done| | |].
      * simpl. eapply grows_trans; eauto.
      * simpl. eapply chain_indexed; [apply (proj1 Hg6)|done].
      * simpl. intros j' Hj'. rewrite Hloop_end in Hj'.
        destruct (Hmarks j' Hj') as [?|[?|?]]; [by left| |].
        -- right. left. exact (grows_kind _ _ _ _ _ _ _ Hg6 H).
        -- right. right. exact (grows_kind _ _ _ _ _ _ _ Hg6 H).
  - replace (n - 2) with 0 by lia. simpl.
    eexists _, ks5. split_and!; [done|done|done| |].
    + simpl. eapply chain_indexed; [apply (proj1 Hg5)|].
      intros k Hk. apply Hch. lia.
    + simpl. done.
Qed.
Lemma Inv_new_gaddag : Inv (nodes new_gaddag) (_root new_gaddag) [Trie []].
Proof.
  assert (forall i c, edge (nodes new_gaddag) i c = None) as Hno.
  { intros [|[|i]] c; reflexivity. }
  constructor; simpl.
  - done.
  - done.
  - intros [|[|i]]; apply NoDup_nil_2.
  - intros i c j H. by rewrite Hno in H.
  - intros [|i] [|j] k Hi Hj _; by simplify_list_eq.
  - intros [|j] u c Hj; simplify_list_eq. by destruct u.
  - intros [|j] p Hj; by simplify_list_eq.
  - intros i p c j _ H. by rewrite Hno in H.
Qed.

Lemma build_from_cons g w ws :
  build_from g (w :: ws)
  = match add g w with
    | (g', Ok _) => build_from g' ws
    | (g', Raise e) => (g', Raise e)
    | (g', NoFuel) => (g', NoFuel)
    end.
Proof. reflexivity. Qed.

(** A build from nonempty words without the split marker returns, and a
    word that some [add] wrote is indexed in the graph built. *)
Lemma build_from_spec (ws : list word) :
  forall (g : GADDAG) (ks : list kind),
    Inv (nodes g) (_root g) ks ->
    Forall (fun w => w <> [] /\ plus ∉ w) ws ->
    exists g' ks',
      build_from g ws = (g', Ok tt)
      /\ _root g' = _root g
      /\ grows (_root g) (nodes g) ks (nodes g') ks'
      /\ (forall ws1 w ws2,
            ws = ws1 ++ w :: ws2 ->
            snd (add (fst (build_from g ws1)) w) = Ok true ->
            indexed (nodes g') (_root g) w).
Proof.
  induction ws as [|w ws IH]; intros g ks HI Hws.
  - exists g, ks. split_and!; [done|done|by apply grows_refl|].
    intros [|] ? ? H; done.
  - apply Forall_cons in Hws as [[Hne Hp] Hws].
    rewrite build_from_cons. unfold add at 1.
    destruct (__contains__ g w) eqn:Ein.
    + assert (_add_word g w = (g, Ok false)) as Hadd.
      { unfold _add_word. by rewrite Ein. }
      rewrite Hadd.
      destruct (IH g ks HI Hws) as (g' & ks' & Hb & Hr & Hg & Hidx).
      exists g', ks'. split_and!; [done|done|done|].
      intros [|w1 ws1] w0 ws2 Heq Hins; simpl in Heq; injection Heq as -> ->.
      * simpl in Hins. unfold add in Hins. rewrite Hadd in Hins. done.
      * rewrite build_from_cons in Hins. unfold add at 2 in Hins.
        rewrite Hadd in Hins. eapply Hidx; eauto.
    + destruct (add_word_spec g ks w HI Hp Hne Ein) as (g1 & ks1 & Hadd & Hr1 & Hg1 & Hidx1 & _).
      rewrite Hadd.
      destruct (IH g1 ks1) as (g' & ks' & Hb & Hr & Hg & Hidx);
        [rewrite Hr1; apply (proj1 Hg1)|done|].
      rewrite Hr1 in Hg, Hidx.
      exists g', ks'. split_and!; [done|congruence|eapply grows_trans; eauto|].
      intros [|w1 ws1] w0 ws2 Heq Hins; simpl in Heq; injection Heq as -> ->.
      * eapply indexed_ext; [apply Hg|done].
      * rewrite build_from_cons in Hins. unfold add at 2 in Hins.
        rewrite Hadd in Hins. eapply Hidx; eauto.
Qed.

Lemma is_alpha_plus : is_alpha plus = false.
Proof. reflexivity. Qed.

Lemma letters_no_plus (w : word) : Forall (fun c => is_alpha c = true) w -> plus ∉ w.
Proof.
  intros H Hin. apply (proj1 (Forall_forall _ _) H) in Hin.
  by rewrite is_alpha_plus in Hin.
Qed.
(** ** The crawl *)

Lemma post_app F ys1 F1 ys2 F2 :
  post F ys1 F1 -> post F1 ys2 F2 -> post F (ys1 ++ ys2) F2.
Proof.
  intros (M1 & N1 & D1) (M2 & N2 & D2). split_and!.
  - intros v. rewrite M2, M1, elem_of_app. tauto.
  - apply NoDup_app. split_and!; [done| |done].
    intros v Hv1 Hv2. apply (D2 v Hv2), M1. by right.
  - intros v [Hv|Hv]%elem_of_app; [by apply D1|].
    intros HF. apply (D2 v Hv), M1. by left.
Qed.

Lemma post_nil F : post F [] F.
Proof.
  split_and!; [|apply NoDup_nil_2|].
  - intros v. split; [by left|]. intros [|H]; [done|by apply elem_of_nil in H].
  - intros v H. by apply elem_of_nil in H.
Qed.

Lemma for_each_cons {A S I} (body : A -> S -> outcome (list I * S)) a l s :
  for_each body (a :: l) s
  = match body a s with
    | Ok (ys, s1) =>
        match for_each body l s1 with
        | Ok (zs, s2) => Ok (ys ++ zs, s2)
        | Raise e => Raise e
        | NoFuel => NoFuel
        end
    | Raise e => Raise e
    | NoFuel => NoFuel
    end.
Proof.
  simpl. destruct (body a s) as [[ys s1]|e|]; simpl; [|done|done].
  by destruct (for_each body l s1) as [[zs s2]|e|].
Qed.

(** A loop of crawls: the yields compose, and what each crawl had to find
    is in the final set. *)
Lemma for_each_post {A} (body : A -> list word -> outcome (list word * list word))
    (T : A -> word -> Prop) (l : list A) :
  (forall a s ys s', a ∈ l -> body a s = Ok (ys, s') ->
      post s ys s' /\ (forall v, T a v -> v ∈ s')) ->
  forall s ys s', for_each body l s = Ok (ys, s') ->
    post s ys s' /\ (forall a v, a ∈ l -> T a v -> v ∈ s').
Proof.
  induction l as [|a l IH]; intros Hbody s ys s' H.
  - injection H as <- <-. split; [apply post_nil|].
    intros a v Ha. by apply elem_of_nil in Ha.
  - rewrite for_each_cons in H.
    destruct (body a s) as [[ys1 s1]|e|] eqn:E1; [|done|done].
    destruct (for_each body l s1) as [[ys2 s2]|e|] eqn:E2; [|done|done].
    injection H as <- <-.
    destruct (Hbody a s ys1 s1 (list_elem_of_here _ _) E1) as [P1 T1].
    destruct (IH (fun a s ys s' Ha => Hbody a s ys s' (list_elem_of_further _ _ _ Ha))
                s1 ys2 s2 E2) as [P2 T2].
    split; [eapply post_app; eauto|].
    intros a' v [->|Ha]%elem_of_cons Hv.
    + apply (proj1 P2). left. by apply T1.
    + eapply T2; eauto.
Qed.

Lemma for_each_Ok {A S I} (body : A -> S -> outcome (list I * S)) (l : list A) :
  (forall a s, a ∈ l -> exists r, body a s = Ok r) ->
  forall s, exists r, for_each body l s = Ok r.
Proof.
  induction l as [|a l IH]; intros Hbody s.
  - by eexists.
  - rewrite for_each_cons.
    destruct (Hbody a s (list_elem_of_here _ _)) as [[ys s1] ->].
    destruct (IH (fun a s Ha => Hbody a s (list_elem_of_further _ _ _ Ha)) s1)
      as [[zs s2] ->].
    by eexists.
Qed.

Lemma for_each_ext {A S I} (body1 body2 : A -> S -> outcome (list I * S))
    (l : list A) (s : S) :
  (forall a s, body1 a s = body2 a s) ->
  for_each body1 l s = for_each body2 l s.
Proof.
  intros H. revert s. induction l as [|a l IH]; intros s; [done|].
  rewrite !for_each_cons, H. destruct (body2 a s) as [[ys s1]|e|]; [|done|done].
  by rewrite IH.
Qed.

Lemma crawl_S (fuel : nat) (h : arena) (node : nat) (partial_word : word)
    (found_words : list word) (wrapped : bool) :
  _crawl (S fuel) h node partial_word found_words wrapped
  = let '(first, found1) :=
      if is_end h node && negb (seen partial_word found_words)
      then ([partial_word], partial_word :: found_words)
      else ([], found_words) in
    '(rest, found2) ←
      for_each (fun '(char, next_node) found =>
          _crawl fuel h next_node (fst (extend (partial_word, wrapped) char)) found
            (snd (extend (partial_word, wrapped) char)))
        (Node._edges (node_at h node)) found1;
    mret (first ++ rest, found2).
Proof.
  cbn [_crawl].
  assert (forall found1,
    for_each (fun '(char, next_node) found =>
        if eqc char plus
        then _crawl fuel h next_node partial_word found true
        else _crawl fuel h next_node
               (if wrapped then partial_word ++ [char] else char :: partial_word)
               found wrapped)
      (Node._edges (node_at h node)) found1
    = for_each (fun '(char, next_node) found =>
          _crawl fuel h next_node (fst (extend (partial_word, wrapped) char)) found
            (snd (extend (partial_word, wrapped) char)))
        (Node._edges (node_at h node)) found1) as Hext.
  { intros found1. apply for_each_ext. intros [char next_node] found.
    unfold extend. simpl. destruct (eqc char plus); [done|]. by destruct wrapped. }
  destruct (is_end h node && negb (seen partial_word found_words));
    by rewrite Hext.
Qed.
Lemma run_cons pw c cs : run pw (c :: cs) = run (extend pw c) cs.
Proof. reflexivity. Qed.

(** A crawl yields new and distinct words, and its set ends with every
    word whose path leads from the node to an end node. *)
Lemma crawl_post (h : arena) (fuel : nat) :
  forall (node : nat) (p : word) (F : list word) (b : bool) (ys F' : list word),
    _crawl fuel h node p F b = Ok (ys, F') ->
    post F ys F'
    /\ (forall cs e, follow h node cs = Some e -> is_end h e = true ->
          fst (run (p, b) cs) ∈ F').
Proof.
  induction fuel as [|fuel IH]; intros node p F b ys F' H; [done|].
  rewrite crawl_S in H.
  destruct (if is_end h node && negb (seen p F) then ([p], p :: F) else ([], F))
    as [first found1] eqn:Efirst.
  assert (post F first found1 /\ (is_end h node = true -> p ∈ found1)) as [P1 Hp].
  { destruct (is_end h node) eqn:Eend; simpl in Efirst.
    - unfold seen in Efirst. case_bool_decide as Hseen; simpl in Efirst;
        injection Efirst as <- <-.
      + split; [apply post_nil|done].
      + split; [|intros _; apply list_elem_of_here].
        split_and!.
        * intros v. rewrite elem_of_cons, list_elem_of_singleton. tauto.
        * apply NoDup_singleton.
        * intros v ->%list_elem_of_singleton. done.
    - injection Efirst as <- <-. split; [apply post_nil|done]. }
  apply bind_Ok in H as ([rest found2] & Hfor & [= <- <-]).
  eapply (for_each_post _
            (fun a v => exists cs e,
               follow h (snd a) cs = Some e /\ is_end h e = true
               /\ v = fst (run (extend (p, b) (fst a)) cs))) in Hfor.
  - destruct Hfor as [P2 T2]. split; [eapply post_app; eauto|].
    intros [|c cs] e Hf He.
    + injection Hf as <-. apply (proj1 P2). left. by apply Hp.
    + simpl in Hf. destruct (edge h node c) as [next|] eqn:Eedge; [|done].
      apply (T2 (c, next)); [by apply get_Some_elem|].
      exists cs, e. split_and!; done.
  - intros [c next] s ys' s' _ Hbody. simpl.
    destruct (IH _ _ _ _ _ _ Hbody) as [P R]. split; [done|].
    intros v (cs & e & Hf & He & ->).
    specialize (R cs e Hf He).
    by destruct (extend (p, b) c).
Qed.

Lemma rank_edge (h : arena) (root : nat) (ks : list kind) (L i j : nat) (c : ascii)
    (ki kj : kind) :
  Inv h root ks -> Forall (fun k => kind_len k <= L) ks ->
  edge h i c = Some j -> ks !! i = Some ki -> ks !! j = Some kj ->
  rank L kj < rank L ki.
Proof.
  intros HI HL He Hi Hj.
  destruct (inv_edge _ _ _ HI _ _ _ He) as (k1 & k2 & Hk1 & Hk2 & Hok).
  rewrite Hi in Hk1. rewrite Hj in Hk2. injection Hk1 as <-. injection Hk2 as <-.
  pose proof (proj1 (Forall_forall _ _) HL ki (list_elem_of_lookup_2 _ _ _ Hi)) as Li.
  pose proof (proj1 (Forall_forall _ _) HL kj (list_elem_of_lookup_2 _ _ _ Hj)) as Lj.
  destruct ki as [u|p|]; simpl in Hok.
  - case_decide; subst kj; simpl in *.
    + rewrite length_rev in *. lia.
    + rewrite length_app in *. simpl in *. lia.
  - destruct Hok as [_ [->| ->]]; simpl in *.
    + rewrite length_app in *. simpl in *. lia.
    + lia.
  - done.
Qed.

(** With fuel above the rank of the node, the crawl returns. *)
Lemma crawl_returns (h : arena) (root : nat) (ks : list kind) (L : nat) :
  Inv h root ks -> Forall (fun k => kind_len k <= L) ks ->
  forall (fuel node : nat) (k : kind) (p : word) (F : list word) (b : bool),
    ks !! node = Some k -> rank L k < fuel ->
    exists r, _crawl fuel h node p F b = Ok r.
Proof.
  intros HI HL. induction fuel as [|fuel IH]; intros node k p F b Hk Hr; [lia|].
  rewrite crawl_S.
  destruct (if is_end h node && negb (seen p F) then ([p], p :: F) else ([], F))
    as [first found1].
  destruct (for_each_Ok
              (fun '(char, next_node) found =>
                 _crawl fuel h next_node (fst (extend (p, b) char)) found
                   (snd (extend (p, b) char)))
              (Node._edges (node_at h node))) with (s := found1) as [[rest found2] ->].
  - intros [c next] s Hin.
    assert (edge h node c = Some next) as He.
    { apply elem_get; [apply (inv_nodup _ _ _ HI)|done]. }
    destruct (inv_edge _ _ _ HI _ _ _ He) as (k1 & k2 & Hk1 & Hk2 & _).
    eapply (IH next k2); [done|].
    pose proof (rank_edge _ _ _ L _ _ _ _ _ HI HL He Hk Hk2). lia.
  - by eexists.
Qed.

Lemma rank_le (L : nat) (k : kind) : rank L k <= 2 * L + 2.
Proof. destruct k; simpl; lia. Qed.

Lemma kinds_bounded (ks : list kind) :
  Forall (fun k => kind_len k <= max_list (kind_len <$> ks)) ks.
Proof.
  apply Forall_forall. intros k Hk. apply max_list_elem_of_le.
  by apply list_elem_of_fmap_2.
Qed.

Lemma follow_kind (h : arena) (root : nat) (ks : list kind) (cs : word) :
  Inv h root ks ->
  forall i j ki, ks !! i = Some ki -> follow h i cs = Some j ->
    exists kj, ks !! j = Some kj.
Proof.
  intros HI. induction cs as [|c r IH]; intros i j ki Hi Hf; simpl in Hf.
  - injection Hf as <-. eauto.
  - destruct (edge h i c) as [n|] eqn:E; [|done].
    destruct (inv_edge _ _ _ HI _ _ _ E) as (k1 & k2 & _ & Hk2 & _). eauto.
Qed.

Lemma run_prepend (pre p : word) :
  plus ∉ pre -> run (p, false) (rev pre) = (pre ++ p, false).
Proof.
  revert p. induction pre as [|a pre IH] using rev_ind; intros p Hp; [done|].
  rewrite rev_app_distr. change (rev [a] ++ rev pre) with (a :: rev pre).
  rewrite run_cons.
  apply not_elem_of_app in Hp as [Hpre Ha].
  unfold extend at 1. unfold eqc. case_bool_decide as E.
  - subst a. destruct Ha. apply list_elem_of_here.
  - simpl. rewrite IH by done. by rewrite <- app_assoc.
Qed.

Lemma run_append (suf p : word) :
  plus ∉ suf -> run (p, true) suf = (p ++ suf, true).
Proof.
  revert p. induction suf as [|a suf IH]; intros p Hp.
  - by rewrite app_nil_r.
  - apply not_elem_of_cons in Hp as [Ha Hs]. rewrite run_cons.
    unfold extend at 1. unfold eqc. case_bool_decide as E; [congruence|].
    simpl. rewrite IH by done. by rewrite <- app_assoc.
Qed.

Lemma run_app pw a b : run pw (a ++ b) = run (run pw a) b.
Proof. apply foldl_app. Qed.

Lemma count_NoDup (w : word) (ys : list word) :
  NoDup ys -> w ∈ ys -> length (filter (fun v => v = w) ys) = 1.
Proof.
  induction 1 as [|y ys Hy Hnd IH]; intros Hin; [by apply elem_of_nil in Hin|].
  rewrite filter_cons. case_decide as E.
  - subst y. simpl. f_equal.
    destruct (filter (fun v => v = w) ys) as [|z r] eqn:Ef; [done|].
    assert (z ∈ filter (fun v => v = w) ys) as Hz by (rewrite Ef; apply list_elem_of_here).
    apply list_elem_of_filter in Hz as [-> Hz]. done.
  - apply elem_of_cons in Hin as [->|Hin]; [done|]. by apply IH.
Qed.
(** ** C6: [contains] yields every inserted word with the substring once *)

(** C6.  The graph is built from a list of nonempty words of letters, [w]
    is a word that the build wrote into it, and [s] is a nonempty substring
    of [w] ([w = pre ++ s ++ suf]).  Then the build returns, and with enough
    fuel the iteration of [contains(s)] returns a sequence in which [w]
    occurs exactly once, wherever else and however often [s] occurs in [w]
    and however many paths lead to the end of [w]. *)
Theorem contains_yields_inserted_once (ws : list word) (w s pre suf : word) :
  Forall (fun v => v <> [] /\ Forall (fun c => is_alpha c = true) v) ws ->
  inserted ws w ->
  s <> [] ->
  w = pre ++ s ++ suf ->
  snd (build ws) = Ok tt
  /\ exists n, forall fuel, n <= fuel ->
       exists ys,
         iterate fuel (contains (fst (build ws)) s) = Ok ys
         /\ length (filter (fun v => v = w) ys) = 1.
Proof.
  intros Hws (ws1 & ws2 & Hsplit & Hins) Hs Hw.
  assert (Forall (fun v => v <> [] /\ plus ∉ v) ws) as Hws'.
  { eapply Forall_impl; [exact Hws|]. intros v [? ?]. split; [done|].
    by apply letters_no_plus. }
  assert (plus ∉ w) as Hpw.
  { apply (proj1 (Forall_forall _ _) Hws' w).
    rewrite Hsplit. apply elem_of_app. right. apply list_elem_of_here. }
  destruct (build_from_spec ws new_gaddag [Trie []] Inv_new_gaddag Hws')
    as (g' & ks' & Hb & Hroot & Hg & Hidx).
  unfold build. rewrite Hb. simpl. split; [done|].
  specialize (Hidx ws1 w ws2 Hsplit Hins). simpl in Hidx.
  destruct Hg as (HI & _ & _). simpl in HI.
  set (L := max_list (kind_len <$> ks')).
  exists (2 * L + 3). intros fuel Hfuel.
  (* the path of the split behind [s] *)
  destruct (Hidx (length (pre ++ s))) as (e & Hf & He).
  { subst w. rewrite !length_app. destruct s; [done|]. simpl. lia. }
  assert (w = (pre ++ s) ++ suf) as Hw' by (by rewrite Hw, <- app_assoc).
  rewrite Hw' in Hf at 1 2.
  rewrite take_app_length, drop_app_length, rev_app_distr, <- app_assoc in Hf.
  rewrite follow_app in Hf.
  destruct (follow (nodes g') 0 (rev s)) as [n0|] eqn:Estart; [|done].
  assert (_root g' = 0) as Hr0 by done.
  unfold contains. rewrite Hr0, Estart. unfold iterate, crawl_body.
  destruct (follow_kind _ _ _ _ HI 0 n0 _ (inv_root _ _ _ HI) Estart) as [k0 Hk0].
  destruct (crawl_returns _ _ _ L HI (kinds_bounded ks') fuel n0 k0 s [] false Hk0)
    as [[ys F'] Hcrawl].
  { pose proof (rank_le L k0). lia. }
  rewrite Hcrawl. simpl. exists ys. split; [done|].
  destruct (crawl_post _ _ _ _ _ _ _ _ Hcrawl) as [(M & Hnd & _) Hreach].
  specialize (Hreach _ _ Hf He).
  assert (plus ∉ pre /\ plus ∉ suf) as [Hpre Hsuf].
  { subst w. rewrite !not_elem_of_app in Hpw. tauto. }
  rewrite run_app, run_prepend, run_cons in Hreach by done.
  unfold extend at 1 in Hreach. simpl in Hreach.
  rewrite run_append in Hreach by done. simpl in Hreach.
  rewrite <- Hw' in Hreach.
  apply count_NoDup; [done|].
  apply M in Hreach as [H|H]; [by apply elem_of_nil in H|done].
Qed.

Lemma contains_yields_inserted_once_witness :
  snd (build heart_words) = Ok tt
  /\ exists n, forall fuel, n <= fuel ->
       exists ys,
         iterate fuel (contains (fst (build heart_words)) (chars "ar")) = Ok ys
         /\ length (filter (fun v => v = chars "heart") ys) = 1.
Proof.
  apply (contains_yields_inserted_once heart_words (chars "heart") (chars "ar")
           (chars "he") (chars "t")).
  - vm_compute. repeat constructor; discriminate.
  - exists [], (map chars ["ember"; "abuse"; "resin"; "trend"]%string).
    split; reflexivity.
  - discriminate.
  - reflexivity.
Defined.

(** The crawl on the lexicon of the heart square: "e" occurs twice in
    "ember" and the word is yielded once. *)
Example contains_e_heart_lexicon :
  iterate 20 (contains heart_lexicon (chars "e"))
  = Ok heart_words.
Proof. vm_compute. reflexivity. Qed.
(** ** The lexicon that a build leaves *)

Lemma has_ends_at (g : GADDAG) (w : word) :
  _has g w = true <-> ends_at (nodes g) (_root g) (rev w ++ [plus]).
Proof.
  unfold _has, ends_at. split.
  - intros H. destruct (follow (nodes g) (_root g) (rev w)) as [n|] eqn:F; [|done].
    destruct (edge (nodes g) n plus) as [p|] eqn:E; [|done].
    exists p. rewrite follow_app, F. simpl. by rewrite E.
  - intros (e & F & He). rewrite follow_app in F.
    destruct (follow (nodes g) (_root g) (rev w)) as [n|]; [|done].
    simpl in F. destruct (edge (nodes g) n plus) as [p|]; [|done].
    by injection F as ->.
Qed.

Lemma indexed_has (g : GADDAG) (w : word) :
  w <> [] -> indexed (nodes g) (_root g) w -> _has g w = true.
Proof.
  intros Hne Hi. apply has_ends_at.
  specialize (Hi (length w)). rewrite take_ge, drop_ge in Hi by done.
  apply Hi. destruct w; [done|simpl; lia].
Qed.

(** A path never comes back to the trie of reversed prefixes. *)
Lemma follow_off_trie (h : arena) (root : nat) (ks : list kind) (cs : word) :
  Inv h root ks ->
  forall i j ki, ks !! i = Some ki -> (forall u, ki <> Trie u) ->
    follow h i cs = Some j ->
    exists kj, ks !! j = Some kj /\ forall u, kj <> Trie u.
Proof.
  intros HI. induction cs as [|c r IH]; intros i j ki Hi Hk Hf; simpl in Hf.
  - injection Hf as <-. eauto.
  - destruct (edge h i c) as [n|] eqn:E; [|done].
    destruct (inv_edge _ _ _ HI _ _ _ E) as (k1 & k2 & Hk1 & Hk2 & Hok).
    rewrite Hi in Hk1. injection Hk1 as <-.
    eapply (IH n j k2); [done| |done].
    destruct ki as [u|p|]; simpl in Hok; [by destruct (Hk u)| |done].
    destruct Hok as [_ [-> | ->]]; done.
Qed.

Lemma follow_trie_kind (h : arena) (root : nat) (ks : list kind) (cs : word) :
  Inv h root ks ->
  forall i j u v, ks !! i = Some (Trie u) -> follow h i cs = Some j ->
    ks !! j = Some (Trie v) -> v = u ++ cs.
Proof.
  intros HI. induction cs as [|c r IH]; intros i j u v Hi Hf Hj; simpl in Hf.
  - injection Hf as <-. rewrite Hi in Hj. injection Hj as <-. by rewrite app_nil_r.
  - destruct (edge h i c) as [n|] eqn:E; [|done].
    destruct (inv_edge _ _ _ HI _ _ _ E) as (k1 & k2 & Hk1 & Hk2 & Hok).
    rewrite Hi in Hk1. injection Hk1 as <-. simpl in Hok.
    destruct (decide (c = plus)) as [->|Hc]; subst k2.
    + destruct (follow_off_trie h root ks r HI n j _ Hk2 ltac:(done) Hf)
        as (kj & Hkj & Hno).
      rewrite Hj in Hkj. injection Hkj as <-. by destruct (Hno v).
    + rewrite (IH n j _ v Hk2 Hf Hj). by rewrite <- app_assoc.
Qed.

Lemma follow_trie (h : arena) (root : nat) (ks : list kind) (cs : word) :
  Inv h root ks -> plus ∉ cs ->
  forall i j u, ks !! i = Some (Trie u) -> follow h i cs = Some j ->
    ks !! j = Some (Trie (u ++ cs)).
Proof.
  intros HI. induction cs as [|c r IH]; intros Hp i j u Hi Hf; simpl in Hf.
  - injection Hf as <-. by rewrite app_nil_r.
  - apply not_in_app_cons in Hp as [Hc Hp].
    destruct (edge h i c) as [n|] eqn:E; [|done].
    destruct (inv_edge _ _ _ HI _ _ _ E) as (k1 & k2 & Hk1 & Hk2 & Hok).
    rewrite Hi in Hk1. injection Hk1 as <-. unfold okedge in Hok.
    rewrite decide_False in Hok by done. subst k2.
    rewrite (IH Hp n j _ Hk2 Hf). by rewrite <- app_assoc.
Qed.

(** The node behind the split marker of a path from the root. *)
Lemma follow_plus_kind (h : arena) (root : nat) (ks : list kind) (cs : word)
    (n p : nat) :
  Inv h root ks ->
  follow h root cs = Some n -> edge h n plus = Some p ->
  ks !! n = Some (Trie cs) /\ ks !! p = Some (Plus (rev cs)).
Proof.
  intros HI F E.
  destruct (inv_edge _ _ _ HI _ _ _ E) as (kn & kp & Hkn & Hkp & Hok).
  destruct kn as [u|q|]; unfold okedge in Hok; [|by destruct Hok|done].
  rewrite decide_True in Hok by done. subst kp.
  pose proof (follow_trie_kind _ _ _ _ HI _ _ _ _ (inv_root _ _ _ HI) F Hkn) as ->.
  done.
Qed.

(** A membership test that succeeds found the end mark of its word. *)
Lemma has_marked (g : GADDAG) (ks : list kind) (W : list word) (w : word) :
  Inv (nodes g) (_root g) ks -> marked (nodes g) ks W ->
  _has g w = true -> w ∈ W.
Proof.
  intros HI HS H. unfold _has in H.
  destruct (follow (nodes g) (_root g) (rev w)) as [n|] eqn:F; [|done].
  destruct (edge (nodes g) n plus) as [p|] eqn:E; [|done].
  destruct (follow_plus_kind _ _ _ _ _ _ HI F E) as [_ Hp].
  rewrite rev_involutive in Hp.
  destruct (HS p H) as [Hl|(q & Hq & Hin)]; rewrite Hp in *; [done|].
  by injection Hq as ->.
Qed.

Lemma marked_mono (h : arena) (ks : list kind) (W W' : list word) :
  (forall w, w ∈ W -> w ∈ W') -> marked h ks W -> marked h ks W'.
Proof.
  intros Hsub HS j He. destruct (HS j He) as [?|(p & ? & ?)]; [by left|].
  right. eauto.
Qed.

Lemma marked_new_gaddag : marked (nodes new_gaddag) [Trie []] [].
Proof. intros [|[|j]] He; done. Qed.

Lemma add_word_changed (g g' : GADDAG) (w : word) :
  _add_word g w = (g', Ok true) -> _changed g' = true.
Proof.
  unfold _add_word. destruct (__contains__ g w); [done|].
  destruct (add_path (nodes g) (_root g) (rev w)) as [h1 n].
  destruct (add_path _ _ _) as [h3 n'].
  destruct (add_edge h3 n' plus None false) as [h4 node].
  destruct (last w); [|done].
  destruct (add_word_loop _ _ _ _ _) as [h6 [?|?|]]; [|done|done].
  by intros [= <-].
Qed.

(** The build of a list of words.  Every end mark stands for a word of the
    list; where the words are their own lower case, every word of the list
    is indexed. *)
Lemma build_from_lexicon (ws : list word) :
  forall (g : GADDAG) (ks : list kind) (W : list word),
    Inv (nodes g) (_root g) ks ->
    marked (nodes g) ks W ->
    Forall (fun w => w <> [] /\ plus ∉ w) ws ->
    exists g' ks',
      build_from g ws = (g', Ok tt)
      /\ _root g' = _root g
      /\ grows (_root g) (nodes g) ks (nodes g') ks'
      /\ marked (nodes g') ks' (W ++ ws)
      /\ (g' = g \/ _changed g' = true)
      /\ (Forall (fun w => lower_word w = w) ws ->
          (forall w, w ∈ W -> indexed (nodes g) (_root g) w) ->
          forall w, w ∈ W ++ ws -> indexed (nodes g') (_root g) w).
Proof.
  induction ws as [|w ws IH]; intros g ks W HI HS Hws.
  - exists g, ks. split_and!; [done|done|by apply grows_refl| |by left|].
    + by rewrite app_nil_r.
    + intros _ Hidx w. rewrite app_nil_r. apply Hidx.
  - apply Forall_cons in Hws as [[Hne Hp] Hws].
    rewrite build_from_cons. unfold add at 1.
    destruct (__contains__ g w) eqn:Ein.
    + assert (_add_word g w = (g, Ok false)) as Hadd.
      { unfold _add_word. by rewrite Ein. }
      rewrite Hadd.
      destruct (IH g ks W HI HS Hws) as (g' & ks' & Hb & Hr & Hg & HS' & Hch & Hc).
      exists g', ks'. split_and!; [done|done|done| |done|].
      * eapply marked_mono; [|exact HS']. intros v Hv.
        apply elem_of_app in Hv as [Hv|Hv]; apply elem_of_app; [by left|].
        right. by apply elem_of_cons; right.
      * intros Hlow Hidx v Hv. apply Forall_cons in Hlow as [Hlow Hlows].
        apply Hc; [done|done|].
        apply elem_of_app in Hv as [Hv|Hv]; apply elem_of_app; [by left|].
        apply elem_of_cons in Hv as [->|Hv]; [|by right].
        left. unfold __contains__ in Ein. rewrite Hlow in Ein.
        exact (has_marked g ks W w HI HS Ein).
    + destruct (add_word_spec g ks w HI Hp Hne Ein)
        as (g1 & ks1 & Hadd & Hr1 & Hg1 & Hidx1 & Hm1).
      rewrite Hadd.
      assert (marked (nodes g1) ks1 (W ++ [w])) as HS1.
      { intros j He.
        destruct (Hm1 j He) as [Hold|[Hk|Hk]]; [|right|by left].
        - destruct (HS j Hold) as [Hk|(p & Hk & Hin)].
          + left. exact (grows_kind _ _ _ _ _ _ _ Hg1 Hk).
          + right. exists p. split; [exact (grows_kind _ _ _ _ _ _ _ Hg1 Hk)|].
            apply elem_of_app. by left.
        - exists w. split; [done|]. apply elem_of_app. right.
          by apply list_elem_of_singleton. }
      destruct (IH g1 ks1 (W ++ [w])) as (g' & ks' & Hb & Hr & Hg & HS' & Hch & Hc);
        [rewrite Hr1; apply (proj1 Hg1)|done|done|].
      rewrite Hr1 in Hg, Hc.
      exists g', ks'. split_and!; [done|congruence|eapply grows_trans; eauto| | |].
      * by rewrite <- app_assoc in HS'.
      * right. destruct Hch as [->|Hch]; [|done].
        eapply add_word_changed; eauto.
      * intros Hlow Hidx v Hv. apply Forall_cons in Hlow as [Hlow Hlows].
        apply Hc; [done| |by rewrite <- app_assoc].
        intros v' Hv'. apply elem_of_app in Hv' as [Hv'|Hv'].
        -- eapply indexed_ext; [apply Hg1|]. by apply Hidx.
        -- apply list_elem_of_singleton in Hv' as ->. done.
Qed.

Lemma lowercase_words_valid (ws : list word) :
  lowercase_words ws -> Forall (fun w => w <> [] /\ plus ∉ w) ws.
Proof.
  intros H. eapply Forall_impl; [exact H|]. intros w (Hne & Hal & _).
  split; [done|by apply letters_no_plus].
Qed.

Lemma letters_valid (ws : list word) :
  Forall (fun w => w <> [] /\ Forall (fun c => is_alpha c = true) w) ws ->
  Forall (fun w => w <> [] /\ plus ∉ w) ws.
Proof.
  intros H. eapply Forall_impl; [exact H|]. intros w (Hne & Hal).
  split; [done|by apply letters_no_plus].
Qed.

(** The graph built from a list of lower-case words holds that list. *)
Lemma build_lexicon (ws : list word) :
  lowercase_words ws ->
  exists ks, snd (build ws) = Ok tt /\ lexicon (fst (build ws)) ks ws
             /\ (fst (build ws) = new_gaddag \/ _changed (fst (build ws)) = true).
Proof.
  intros Hws. pose proof (lowercase_words_valid ws Hws) as Hv.
  destruct (build_from_lexicon ws new_gaddag [Trie []] [] Inv_new_gaddag
              marked_new_gaddag Hv) as (g' & ks' & Hb & Hr & Hg & HS & Hch & Hc).
  unfold build. rewrite Hb. simpl. exists ks'. split; [done|].
  split; [|done]. constructor.
  - rewrite Hr. apply Hg.
  - exact HS.
  - intros w Hw. exact (proj1 (Forall_forall _ _) Hv w Hw).
  - rewrite Hr. apply Hc.
    + eapply Forall_impl; [exact Hws|]. by intros w (_ & _ & H).
    + intros w Hw. by apply elem_of_nil in Hw.
Qed.

Lemma lexicon_has (g : GADDAG) (ks : list kind) (W : list word) (w : word) :
  lexicon g ks W -> _has g w = true <-> w ∈ W.
Proof.
  intros HL. split.
  - apply (has_marked g ks W w (lex_inv _ _ _ HL) (lex_marked _ _ _ HL)).
  - intros Hw. apply indexed_has.
    + apply (lex_words _ _ _ HL w Hw).
    + by apply (lex_indexed _ _ _ HL).
Qed.

Lemma forallb_Forall {A} (f : A -> bool) (l : list A) :
  forallb f l = true -> Forall (fun x => f x = true) l.
Proof.
  induction l as [|a l IH]; simpl; [constructor|].
  intros [? ?]%andb_true_iff. constructor; auto.
Qed.

Lemma letters_words_check (ws : list word) :
  letters_wordsb ws = true ->
  Forall (fun w => w <> [] /\ Forall (fun c => is_alpha c = true) w) ws.
Proof.
  intros H. apply forallb_Forall in H. eapply Forall_impl; [exact H|].
  intros w [Hne Hal]%andb_true_iff. split.
  - by destruct w.
  - by apply forallb_Forall.
Qed.

Lemma lowercase_words_check (ws : list word) :
  lowercase_wordsb ws = true -> lowercase_words ws.
Proof.
  intros H. apply forallb_Forall in H. eapply Forall_impl; [exact H|].
  intros w [[Hne Hal]%andb_true_iff Hlow]%andb_true_iff. split_and!.
  - by destruct w.
  - by apply forallb_Forall.
  - by apply bool_decide_eq_true in Hlow.
Qed.
(** ** Membership and insertion on a built lexicon *)

(** The round trip for a lexicon of lower-case words: the build raises
    nothing, and the membership test [in] holds of exactly the words whose
    lower case is in the list. *)
Theorem build_lowercase_round_trip (ws : list word) (v : word) :
  lowercase_words ws ->
  snd (build ws) = Ok tt
  /\ (__contains__ (fst (build ws)) v = true <-> lower_word v ∈ ws).
Proof.
  intros Hws. destruct (build_lexicon ws Hws) as (ks & Hb & HL & _).
  split; [done|]. unfold __contains__. by apply lexicon_has with ks.
Qed.

Lemma build_lowercase_round_trip_witness :
  snd (build heart_words) = Ok tt
  /\ (__contains__ (fst (build heart_words)) (chars "EMBER") = true
      <-> lower_word (chars "EMBER") ∈ heart_words).
Proof.
  apply (build_lowercase_round_trip heart_words (chars "EMBER")).
  apply lowercase_words_check. vm_compute. reflexivity.
Defined.

(** For words of letters in any case, the build raises nothing (the
    AttributeError of [_add_word] is never met), and [is_in], which does
    not change the case, reports only words that were added. *)
Theorem is_in_only_added (ws : list word) (v : word) :
  Forall (fun w => w <> [] /\ Forall (fun c => is_alpha c = true) w) ws ->
  snd (build ws) = Ok tt
  /\ (is_in (fst (build ws)) v = true -> v ∈ ws).
Proof.
  intros Hws.
  destruct (build_from_lexicon ws new_gaddag [Trie []] [] Inv_new_gaddag
              marked_new_gaddag (letters_valid ws Hws))
    as (g' & ks' & Hb & Hr & Hg & HS & _ & _).
  unfold build. rewrite Hb. simpl. split; [done|].
  unfold is_in. intros H. rewrite <- Hr in Hg.
  exact (has_marked g' ks' _ v (proj1 Hg) HS H).
Qed.

Lemma is_in_only_added_witness :
  snd (build (map chars ["Ab"; "cD"; "ab"]%string)) = Ok tt
  /\ (is_in (fst (build (map chars ["Ab"; "cD"; "ab"]%string))) (chars "cD") = true
      -> chars "cD" ∈ map chars ["Ab"; "cD"; "ab"]%string).
Proof.
  apply (is_in_only_added (map chars ["Ab"; "cD"; "ab"]%string) (chars "cD")).
  apply letters_words_check. vm_compute. reflexivity.
Defined.

(** What [add] returns tells whether the word was new: on a lexicon of
    lower-case words, [add] of a lower-case word returns True when the word
    is not in the list and False when it is; in the second case the graph
    is left as it was, and in both the word is in the graph afterwards. *)
Theorem add_reports_new (ws : list word) (w : word) :
  lowercase_words (ws ++ [w]) ->
  snd (add (fst (build ws)) w) = Ok (bool_decide (w ∉ ws))
  /\ (w ∈ ws -> fst (add (fst (build ws)) w) = fst (build ws))
  /\ __contains__ (fst (add (fst (build ws)) w)) w = true.
Proof.
  intros Hall. apply Forall_app in Hall as [Hws Hw].
  apply Forall_singleton in Hw as (Hne & Hal & Hlow).
  destruct (build_lexicon ws Hws) as (ks & Hb & HL & _).
  set (g := fst (build ws)) in *.
  pose proof (lexicon_has g ks ws w HL) as Hhas.
  assert (__contains__ g w = _has g w) as Hc.
  { unfold __contains__. by rewrite Hlow. }
  unfold add. destruct (_has g w) eqn:E.
  - assert (w ∈ ws) as Hin by (by apply Hhas).
    assert (_add_word g w = (g, Ok false)) as ->.
    { unfold _add_word. by rewrite Hc. }
    simpl. rewrite bool_decide_eq_false_2 by (intros H; by apply H).
    split_and!; [done|done|]. by rewrite Hc.
  - assert (w ∉ ws) as Hin.
    { intros Hin. apply Hhas in Hin. congruence. }
    destruct (add_word_spec g ks w (lex_inv _ _ _ HL) (letters_no_plus _ Hal) Hne Hc)
      as (g1 & ks1 & -> & Hr1 & Hg1 & Hidx1 & _).
    simpl. rewrite bool_decide_eq_true_2 by done.
    split_and!; [done|done|]. unfold __contains__. rewrite Hlow.
    apply indexed_has; [done|]. by rewrite Hr1.
Qed.

Lemma add_reports_new_witness :
  snd (add (fst (build heart_words)) (chars "ember"))
  = Ok (bool_decide (chars "ember" ∉ heart_words))
  /\ (chars "ember" ∈ heart_words ->
      fst (add (fst (build heart_words)) (chars "ember")) = fst (build heart_words))
  /\ __contains__ (fst (add (fst (build heart_words)) (chars "ember")))
       (chars "ember") = true.
Proof.
  apply (add_reports_new heart_words (chars "ember")).
  apply lowercase_words_check. vm_compute. reflexivity.
Defined.

(** [add] of the empty word: the call raises IndexError, at [word[-1]],
    after it has put the end mark of the empty word on the graph; the
    empty word, which was not in the graph, is in it afterwards. *)
Theorem add_empty_word (ws : list word) :
  Forall (fun w => w <> [] /\ Forall (fun c => is_alpha c = true) w) ws ->
  __contains__ (fst (build ws)) [] = false
  /\ snd (add (fst (build ws)) []) = Raise IndexError
  /\ __contains__ (fst (add (fst (build ws)) [])) [] = true.
Proof.
  intros Hws.
  destruct (build_from_lexicon ws new_gaddag [Trie []] [] Inv_new_gaddag
              marked_new_gaddag (letters_valid ws Hws))
    as (g' & ks' & Hb & Hr & Hg & HS & _ & _).
  unfold build. rewrite Hb. simpl. simpl in Hr, Hg, HS.
  assert (Inv (nodes g') (_root g') ks') as HI by (rewrite Hr; apply Hg).
  assert (__contains__ g' [] = false) as Hno.
  { destruct (__contains__ g' []) eqn:E; [|done].
    apply (has_marked g' ks' ws [] HI HS) in E.
    apply (proj1 (Forall_forall _ _) Hws) in E. by destruct E. }
  split; [done|].
  unfold add, _add_word. rewrite Hno. simpl.
  pose proof (ks_lt _ _ _ _ _ HI (inv_root _ _ _ HI)) as Hroot.
  set (h := nodes g') in *. set (root := _root g') in *.
  assert (exists j, edge (add_end h root plus) root plus = Some j
                    /\ is_end (add_end h root plus) j = true) as (j & Ej & Hj).
  { unfold add_end. destruct (edge h root plus) as [j|] eqn:E.
    - exists j. rewrite edge_set_end. split; [done|].
      destruct (inv_edge _ _ _ HI _ _ _ E) as (_ & kj & _ & Hkj & _).
      rewrite is_end_set_end by exact (ks_lt _ _ _ _ _ HI Hkj).
      by rewrite decide_True.
    - unfold add_edge. rewrite E. simpl. exists (length h).
      rewrite edge_set_edge by (rewrite length_app; simpl; lia).
      rewrite decide_True by done. split; [done|].
      rewrite is_end_set_edge, is_end_app. by rewrite decide_True. }
  unfold add_edge. rewrite Ej. simpl. split; [done|].
  unfold __contains__, _has. simpl. by rewrite Ej.
Qed.

Lemma add_empty_word_witness :
  __contains__ (fst (build heart_words)) [] = false
  /\ snd (add (fst (build heart_words)) []) = Raise IndexError
  /\ __contains__ (fst (add (fst (build heart_words)) [])) [] = true.
Proof.
  apply (add_empty_word heart_words).
  apply letters_words_check. vm_compute. reflexivity.
Defined.
(** ** What the crawl of a built lexicon yields *)

Lemma for_each_elem {A S I} (body : A -> S -> outcome (list I * S)) (l : list A) :
  forall s ys s' v, for_each body l s = Ok (ys, s') -> v ∈ ys ->
    exists a s1 ys1 s1', a ∈ l /\ body a s1 = Ok (ys1, s1') /\ v ∈ ys1.
Proof.
  induction l as [|a l IH]; intros s ys s' v H Hv.
  - injection H as <- <-. by apply elem_of_nil in Hv.
  - rewrite for_each_cons in H.
    destruct (body a s) as [[ys1 s1]|e|] eqn:E1; [|done|done].
    destruct (for_each body l s1) as [[ys2 s2]|e|] eqn:E2; [|done|done].
    injection H as <- <-. apply elem_of_app in Hv as [Hv|Hv].
    + exists a, s, ys1, s1. split_and!; [apply list_elem_of_here|done|done].
    + destruct (IH _ _ _ _ E2 Hv) as (a' & s1' & ys1' & s1'' & Ha & Hb & Hv').
      exists a', s1', ys1', s1''. split_and!; [by apply list_elem_of_further|done|done].
Qed.

(** Every word that a crawl yields is the word of a path to an end node. *)
Lemma crawl_sound (h : arena) (fuel : nat) :
  (forall i, NoDup (Node.labels (node_at h i))) ->
  forall (node : nat) (p : word) (F : list word) (b : bool) (ys F' : list word),
    _crawl fuel h node p F b = Ok (ys, F') ->
    forall v, v ∈ ys ->
      exists cs e, follow h node cs = Some e /\ is_end h e = true
                   /\ v = fst (run (p, b) cs).
Proof.
  intros Hnd.
  induction fuel as [|fuel IH]; intros node p F b ys F' H v Hv; [done|].
  rewrite crawl_S in H.
  destruct (if is_end h node && negb (seen p F) then ([p], p :: F) else ([], F))
    as [first found1] eqn:Efirst.
  apply bind_Ok in H as ([rest found2] & Hfor & [= <- <-]).
  apply elem_of_app in Hv as [Hv|Hv].
  - destruct (is_end h node) eqn:Eend; simpl in Efirst.
    + destruct (negb (seen p F)); injection Efirst as <- <-;
        [|by apply elem_of_nil in Hv].
      apply list_elem_of_singleton in Hv as ->. by exists [], node.
    + injection Efirst as <- <-. by apply elem_of_nil in Hv.
  - destruct (for_each_elem _ _ _ _ _ _ Hfor Hv)
      as ([c next] & s1 & ys1 & s1' & Ha & Hb & Hv1).
    destruct (IH _ _ _ _ _ _ Hb v Hv1) as (cs & e & Hf & He & ->).
    assert (edge h node c = Some next) as E.
    { apply elem_get; [apply Hnd|done]. }
    exists (c :: cs), e. simpl. rewrite E.
    split_and!; [done|done|]. by destruct (extend (p, b) c).
Qed.

(** The words of a crawl keep the word they start with. *)
Lemma run_sandwich (cs : word) :
  forall (p : word) (b : bool),
    exists pre suf, fst (run (p, b) cs) = pre ++ p ++ suf
                    /\ (b = true -> pre = []).
Proof.
  induction cs as [|c cs IH]; intros p b.
  - exists [], []. simpl. by rewrite app_nil_r.
  - rewrite run_cons. unfold extend. simpl.
    destruct (eqc c plus).
    + destruct (IH p true) as (pre & suf & -> & Hb). exists pre, suf.
      split; [done|]. intros _. by apply Hb.
    + destruct b.
      * destruct (IH (p ++ [c]) true) as (pre & suf & -> & Hb).
        rewrite (Hb eq_refl). exists [], (c :: suf). split; [|done].
        simpl. by rewrite <- app_assoc.
      * destruct (IH (c :: p) false) as (pre & suf & -> & Hb).
        exists (pre ++ [c]), suf. split; [|done]. by rewrite <- app_assoc.
Qed.

Lemma coherent_step (h : arena) (root : nat) (ks : list kind) (i j : nat)
    (ki : kind) (pw : word * bool) (c : ascii) :
  Inv h root ks -> ks !! i = Some ki -> coherent h ks ki pw ->
  edge h i c = Some j ->
  exists kj, ks !! j = Some kj /\ coherent h ks kj (extend pw c).
Proof.
  intros HI Hi Hc E.
  destruct (inv_edge _ _ _ HI _ _ _ E) as (k1 & kj & Hk1 & Hkj & Hok).
  rewrite Hi in Hk1. injection Hk1 as <-. exists kj. split; [done|].
  destruct ki as [u|p|]; unfold okedge in Hok; simpl in Hc; [| |done].
  - subst pw. unfold extend, eqc. cbn [fst snd].
    case_bool_decide as Hc';
      [subst c; rewrite decide_True in Hok by done
      |rewrite decide_False in Hok by done]; subst kj; simpl; [done|].
    by rewrite rev_app_distr.
  - subst pw. destruct Hok as [Hne Hkind]. unfold extend, eqc. cbn [fst snd].
    rewrite bool_decide_eq_false_2 by done.
    destruct Hkind as [-> | ->]; simpl; [done|]. split; [done|].
    apply (inv_leaf _ _ _ HI i p c j); done.
Qed.

Lemma coherent_run (h : arena) (root : nat) (ks : list kind) (cs : word) :
  Inv h root ks ->
  forall i e ki pw, ks !! i = Some ki -> coherent h ks ki pw ->
    follow h i cs = Some e ->
    exists ke, ks !! e = Some ke /\ coherent h ks ke (run pw cs).
Proof.
  intros HI. induction cs as [|c cs IH]; intros i e ki pw Hi Hc Hf; simpl in Hf.
  - injection Hf as <-. eauto.
  - destruct (edge h i c) as [j|] eqn:E; [|done].
    destruct (coherent_step _ _ _ _ _ _ _ _ HI Hi Hc E) as (kj & Hkj & Hcj).
    rewrite run_cons. eauto.
Qed.

Lemma coherent_end (h : arena) (ks : list kind) (W : list word) (e : nat)
    (ke : kind) (pw : word * bool) :
  marked h ks W -> ks !! e = Some ke -> coherent h ks ke pw ->
  is_end h e = true -> fst pw ∈ W.
Proof.
  intros HS He Hc Hend.
  destruct (HS e Hend) as [Hl|(p & Hp & Hin)]; rewrite He in *.
  - injection Hl as ->. destruct Hc as (_ & j & Hj & Hjend).
    destruct (HS j Hjend) as [Hl|(p & Hp & Hin)]; rewrite Hj in *; [done|].
    by injection Hp as <-.
  - injection Hp as ->. simpl in Hc. by subst pw.
Qed.

(** The crawl of a lexicon from a node that agrees with the word [p]. *)
Lemma crawl_lexicon (g : GADDAG) (ks : list kind) (W : list word) (n0 : nat)
    (k0 : kind) (p : word) (b : bool) :
  lexicon g ks W -> ks !! n0 = Some k0 -> coherent (nodes g) ks k0 (p, b) ->
  exists n, forall fuel, n <= fuel ->
    exists ys F',
      _crawl fuel (nodes g) n0 p [] b = Ok (ys, F')
      /\ NoDup ys
      /\ (forall v, v ∈ ys ->
            v ∈ W /\ exists pre suf, v = pre ++ p ++ suf /\ (b = true -> pre = []))
      /\ (forall cs e, follow (nodes g) n0 cs = Some e ->
            is_end (nodes g) e = true -> fst (run (p, b) cs) ∈ ys).
Proof.
  intros HL Hk0 Hc0. pose proof (lex_inv _ _ _ HL) as HI.
  set (L := max_list (kind_len <$> ks)).
  exists (2 * L + 3). intros fuel Hfuel.
  destruct (crawl_returns _ _ _ L HI (kinds_bounded ks) fuel n0 k0 p [] b Hk0)
    as [[ys F'] Hcrawl].
  { pose proof (rank_le L k0). lia. }
  exists ys, F'. split; [done|].
  destruct (crawl_post _ _ _ _ _ _ _ _ Hcrawl) as [(M & Hnd & _) Hreach].
  split; [done|]. split.
  - intros v Hv.
    destruct (crawl_sound _ _ (inv_nodup _ _ _ HI) _ _ _ _ _ _ Hcrawl v Hv)
      as (cs & e & Hf & He & ->).
    split; [|apply run_sandwich].
    destruct (coherent_run _ _ _ _ HI _ _ _ _ Hk0 Hc0 Hf) as (ke & Hke & Hce).
    exact (coherent_end _ _ _ _ _ _ (lex_marked _ _ _ HL) Hke Hce He).
  - intros cs e Hf He. specialize (Hreach cs e Hf He).
    apply M in Hreach as [H|H]; [by apply elem_of_nil in H|done].
Qed.

Lemma not_in_rev (c : ascii) (w : word) : c ∉ w -> c ∉ rev w.
Proof. intros H Hin. apply H. by apply list_elem_of_In, in_rev, list_elem_of_In. Qed.

Lemma lexicon_root_path (g : GADDAG) (ks : list kind) (W : list word)
    (a b : word) :
  lexicon g ks W -> a ++ b ∈ W -> a <> [] ->
  exists n st e,
    follow (nodes g) (_root g) (rev a) = Some n
    /\ edge (nodes g) n plus = Some st
    /\ follow (nodes g) st b = Some e /\ is_end (nodes g) e = true.
Proof.
  intros HL Hin Ha.
  destruct (lex_indexed _ _ _ HL _ Hin (length a)) as (e & Hf & He).
  { rewrite length_app. destruct a; [done|]. simpl. lia. }
  rewrite take_app_length, drop_app_length, follow_app in Hf.
  destruct (follow (nodes g) (_root g) (rev a)) as [n|]; [|done].
  simpl in Hf. destruct (edge (nodes g) n plus) as [st|] eqn:E; [|done].
  by exists n, st, e.
Qed.

(** [contains] on a lexicon of lower-case words, for a string that occurs
    in some word of it: the sequence holds the words of the lexicon that
    contain the string, each once, and nothing else. *)
Theorem contains_exact (ws : list word) (s w0 pre0 suf0 : word) :
  lowercase_words ws -> w0 ∈ ws -> w0 = pre0 ++ s ++ suf0 ->
  exists n, forall fuel, n <= fuel ->
    exists ys,
      iterate fuel (contains (fst (build ws)) s) = Ok ys
      /\ NoDup ys
      /\ (forall v, v ∈ ys <-> v ∈ ws /\ exists pre suf, v = pre ++ s ++ suf).
Proof.
  intros Hws Hw0 Hsplit.
  destruct (build_lexicon ws Hws) as (ks & _ & HL & _).
  set (g := fst (build ws)) in *.
  pose proof (lex_inv _ _ _ HL) as HI.
  assert (plus ∉ s) as Hps.
  { destruct (lex_words _ _ _ HL _ Hw0) as [_ Hp]. subst w0.
    rewrite !not_elem_of_app in Hp. tauto. }
  assert (forall v pre suf, v ∈ ws -> v = pre ++ s ++ suf ->
            exists n0 cs e,
              follow (nodes g) (_root g) (rev s) = Some n0
              /\ follow (nodes g) n0 cs = Some e /\ is_end (nodes g) e = true
              /\ fst (run (s, false) cs) = v) as Hpath.
  { intros v pre suf Hv ->.
    destruct (lex_words _ _ _ HL _ Hv) as [Hne Hp].
    rewrite !not_elem_of_app in Hp. destruct Hp as (Hpre & Hs & Hsuf).
    destruct (decide (pre ++ s = [])) as [Hnil|Hnil].
    - apply app_eq_nil in Hnil as [-> ->]. simpl in *.
      destruct (lexicon_root_path g ks ws suf [] HL) as (n & st & e & Hf & Hst & He & Hend);
        [by rewrite app_nil_r|done|].
      simpl in He. injection He as <-.
      exists (_root g), (rev suf ++ [plus]), st. split_and!; [done| |done|].
      + rewrite follow_app, Hf. simpl. by rewrite Hst.
      + rewrite run_app, run_prepend by done. simpl. by rewrite app_nil_r.
    - destruct (lexicon_root_path g ks ws (pre ++ s) suf HL)
        as (n & st & e & Hf & Hst & He & Hend); [by rewrite <- app_assoc|done|].
      rewrite rev_app_distr, follow_app in Hf.
      destruct (follow (nodes g) (_root g) (rev s)) as [n0|] eqn:E0; [|done].
      exists n0, (rev pre ++ plus :: suf), e. split_and!; [done| |done|].
      + rewrite follow_app, Hf. simpl. by rewrite Hst.
      + rewrite run_app, run_prepend, run_cons by done.
        unfold extend at 1. simpl. rewrite run_append by done. simpl.
        by rewrite <- app_assoc. }
  destruct (Hpath w0 pre0 suf0 Hw0 Hsplit) as (n0 & _ & _ & Hn0 & _).
  pose proof (follow_trie _ _ _ _ HI (not_in_rev _ _ Hps)
                _ _ _ (inv_root _ _ _ HI) Hn0) as Hk0.
  destruct (crawl_lexicon g ks ws n0 _ s false HL Hk0) as [n Hn].
  { simpl. by rewrite rev_involutive. }
  exists n. intros fuel Hfuel.
  destruct (Hn fuel Hfuel) as (ys & F' & Hcrawl & Hnd & Hsound & Hcomplete).
  unfold contains. rewrite Hn0. unfold iterate, crawl_body. rewrite Hcrawl. simpl.
  exists ys. split_and!; [done|done|]. intros v. split.
  - intros Hv. destruct (Hsound v Hv) as (Hin & pre & suf & -> & _). eauto.
  - intros (Hv & pre & suf & Heq).
    destruct (Hpath v pre suf Hv Heq) as (n0' & cs & e & Hn0' & Hf & He & <-).
    rewrite Hn0 in Hn0'. injection Hn0' as <-. by eapply Hcomplete.
Qed.

Lemma contains_exact_witness :
  exists n, forall fuel, n <= fuel ->
    exists ys,
      iterate fuel (contains (fst (build heart_words)) (chars "re")) = Ok ys
      /\ NoDup ys
      /\ (forall v, v ∈ ys <->
            v ∈ heart_words /\ exists pre suf, v = pre ++ chars "re" ++ suf).
Proof.
  apply (contains_exact heart_words (chars "re") (chars "trend") (chars "t")
           (chars "nd")).
  - apply lowercase_words_check. vm_compute. reflexivity.
  - apply (bool_decide_unpack _). vm_compute. reflexivity.
  - reflexivity.
Defined.

(** [starts_with] on a lexicon of lower-case words, for a prefix that is
    not empty: the sequence holds the words of the lexicon that start with
    the prefix, each once, and nothing else; it is empty when there is no
    such word. *)
Theorem starts_with_exact (ws : list word) (p : word) :
  lowercase_words ws -> p <> [] ->
  exists n, forall fuel, n <= fuel ->
    exists ys,
      iterate fuel (starts_with (fst (build ws)) p) = Ok ys
      /\ NoDup ys
      /\ (forall v, v ∈ ys <-> v ∈ ws /\ exists suf, v = p ++ suf).
Proof.
  intros Hws Hp.
  destruct (build_lexicon ws Hws) as (ks & _ & HL & _).
  set (g := fst (build ws)) in *.
  pose proof (lex_inv _ _ _ HL) as HI.
  unfold starts_with.
  destruct (follow (nodes g) (_root g) (rev p)) as [n0|] eqn:E0.
  2:{ exists 0. intros fuel _. exists []. split_and!; [done|apply NoDup_nil_2|].
      intros v. split; [by intros H%elem_of_nil|]. intros (Hv & suf & ->).
      destruct (lexicon_root_path g ks ws p suf HL Hv Hp) as (n & ? & ? & Hf & _).
      congruence. }
  destruct (edge (nodes g) n0 plus) as [st|] eqn:Est.
  2:{ exists 0. intros fuel _. exists []. split_and!; [done|apply NoDup_nil_2|].
      intros v. split; [by intros H%elem_of_nil|]. intros (Hv & suf & ->).
      destruct (lexicon_root_path g ks ws p suf HL Hv Hp) as (n & ? & ? & Hf & He & _).
      congruence. }
  destruct (follow_plus_kind _ _ _ _ _ _ HI E0 Est) as [_ Hkst].
  rewrite rev_involutive in Hkst.
  destruct (crawl_lexicon g ks ws st _ p true HL Hkst) as [n Hn]; [done|].
  exists n. intros fuel Hfuel.
  destruct (Hn fuel Hfuel) as (ys & F' & Hcrawl & Hnd & Hsound & Hcomplete).
  unfold iterate, crawl_body. rewrite Hcrawl. simpl.
  exists ys. split_and!; [done|done|]. intros v. split.
  - intros Hv. destruct (Hsound v Hv) as (Hin & pre & suf & -> & Hpre).
    pose proof (Hpre eq_refl) as ->. split; [done|]. by exists suf.
  - intros (Hv & suf & ->).
    destruct (lexicon_root_path g ks ws p suf HL Hv Hp)
      as (n' & st' & e & Hf & Hst & He & Hend).
    rewrite E0 in Hf. injection Hf as <-. rewrite Est in Hst. injection Hst as <-.
    specialize (Hcomplete suf e He Hend).
    rewrite run_append in Hcomplete; [done|].
    destruct (lex_words _ _ _ HL _ Hv) as [_ Hpl].
    rewrite not_elem_of_app in Hpl. tauto.
Qed.

Lemma starts_with_exact_witness :
  exists n, forall fuel, n <= fuel ->
    exists ys,
      iterate fuel (starts_with (fst (build heart_words)) (chars "tr")) = Ok ys
      /\ NoDup ys
      /\ (forall v, v ∈ ys <-> v ∈ heart_words /\ exists suf, v = chars "tr" ++ suf).
Proof.
  apply (starts_with_exact heart_words (chars "tr")).
  - apply lowercase_words_check. vm_compute. reflexivity.
  - discriminate.
Defined.
(** ** The crawl that prepends: [_crawl_end] *)

Lemma crawl_end_S (fuel : nat) (h : arena) (node : nat) (pw : word) :
  _crawl_end (S fuel) h node pw
  = '(rest, _) ←
      for_each (fun '(char, next_node) (_ : unit) =>
          if eqc char plus then Ok ([], tt)
          else ws ← _crawl_end fuel h next_node (char :: pw); mret (ws, tt))
        (Node._edges (node_at h node)) tt;
    mret (match edge h node plus with
          | Some p => if is_end h p then [pw] else []
          | None => []
          end ++ rest).
Proof. reflexivity. Qed.

Lemma app_cons_inj_mid (a b p : word) (c c' : ascii) :
  a ++ c :: p = b ++ c' :: p -> a = b /\ c = c'.
Proof.
  intros H. apply app_inj_2 in H as [-> [= ->]]; done.
Qed.

(** The words of [_crawl_end]: one for every path without the split marker
    that ends at a node whose split marker leads to an end node; each is
    the path, read backwards, in front of the word at the start. *)
Lemma crawl_end_spec (h : arena) :
  (forall i, NoDup (Node.labels (node_at h i))) ->
  forall (fuel node : nat) (pw : word) (ys : list word),
    _crawl_end fuel h node pw = Ok ys ->
    NoDup ys
    /\ forall v, v ∈ ys <->
         exists cs n p, plus ∉ cs /\ follow h node cs = Some n
                        /\ edge h n plus = Some p /\ is_end h p = true
                        /\ v = rev cs ++ pw.
Proof.
  intros Hnd. induction fuel as [|fuel IH]; intros node pw ys H; [done|].
  rewrite crawl_end_S in H.
  apply bind_Ok in H as ([rest []] & Hfor & [= <-]).
  assert (forall es rest',
            NoDup (map fst es) ->
            for_each (fun '(char, next_node) (_ : unit) =>
                if eqc char plus then Ok ([], tt)
                else ws ← _crawl_end fuel h next_node (char :: pw); mret (ws, tt))
              es tt = Ok (rest', tt) ->
            NoDup rest'
            /\ forall v, v ∈ rest' <->
                 exists c next cs n p,
                   (c, next) ∈ es /\ c <> plus /\ plus ∉ cs
                   /\ follow h next cs = Some n
                   /\ edge h n plus = Some p /\ is_end h p = true
                   /\ v = rev cs ++ c :: pw) as Hloop.
  { clear Hfor rest. induction es as [|[c next] es IHes]; intros rest' Hes Hfor.
    - injection Hfor as <-. split; [apply NoDup_nil_2|].
      intros v. split; [by intros ?%elem_of_nil|].
      by intros (? & ? & ? & ? & ? & ?%elem_of_nil & _).
    - rewrite for_each_cons in Hfor. simpl in Hes. apply NoDup_cons in Hes as [Hc Hes].
      destruct (if eqc c plus then Ok ([], tt)
                else ws ← _crawl_end fuel h next (c :: pw); mret (ws, tt))
        as [[ys1 []]|e|] eqn:E1; [|done|done].
      destruct (for_each _ es tt) as [[ys2 []]|e|] eqn:E2; [|done|done].
      injection Hfor as <-.
      destruct (IHes ys2 Hes eq_refl) as [Hnd2 Hin2].
      assert (NoDup ys1
              /\ forall v, v ∈ ys1 <->
                   c <> plus /\ exists cs n p,
                     plus ∉ cs /\ follow h next cs = Some n
                     /\ edge h n plus = Some p /\ is_end h p = true
                     /\ v = rev cs ++ c :: pw) as [Hnd1 Hin1].
      { unfold eqc in E1. case_bool_decide as Hcp.
        - injection E1 as <-. split; [apply NoDup_nil_2|].
          intros v. split; [by intros ?%elem_of_nil|]. by intros [? _].
        - apply bind_Ok in E1 as (ws & Hcrawl & [= <-]).
          destruct (IH _ _ _ Hcrawl) as [Hnd1 Hin1]. split; [done|].
          intros v. rewrite Hin1. split.
          + intros (cs & n & p & ?). split; [done|]. by exists cs, n, p.
          + intros (_ & cs & n & p & ?). by exists cs, n, p. }
      split.
      + apply NoDup_app. split_and!; [done| |done].
        intros v Hv1 Hv2. apply Hin1 in Hv1 as (_ & cs1 & _ & _ & _ & _ & _ & _ & ->).
        apply Hin2 in Hv2 as (c' & next' & cs2 & _ & _ & Hin' & _ & _ & _ & _ & _ & Heq).
        apply app_cons_inj_mid in Heq as [_ ->].
        apply Hc. apply list_elem_of_fmap. by exists (c', next').
      + intros v. rewrite elem_of_app, Hin1, Hin2. split.
        * intros [(Hcp & cs & n & p & ?)|(c' & next' & cs & n & p & Hin' & ?)].
          -- exists c, next, cs, n, p. split; [apply list_elem_of_here|done].
          -- exists c', next', cs, n, p. split; [by apply list_elem_of_further|done].
        * intros (c' & next' & cs & n & p & Hin' & Hrest).
          apply elem_of_cons in Hin' as [[= -> ->]|Hin'].
          -- left. split; [tauto|]. exists cs, n, p. tauto.
          -- right. by exists c', next', cs, n, p. }
  destruct (Hloop _ _ (Hnd node) Hfor) as [Hndr Hinr]. split.
  - apply NoDup_app. split_and!; [|  |done].
    + destruct (edge h node plus) as [p|]; [|apply NoDup_nil_2].
      destruct (is_end h p); [apply NoDup_singleton|apply NoDup_nil_2].
    + intros v Hv1 Hv2.
      assert (v = pw) as ->.
      { destruct (edge h node plus) as [p|]; [|by apply elem_of_nil in Hv1].
        destruct (is_end h p); [|by apply elem_of_nil in Hv1].
        by apply list_elem_of_singleton in Hv1. }
      apply Hinr in Hv2 as (c & next & cs & _ & _ & _ & _ & _ & _ & _ & _ & Heq).
      apply (f_equal length) in Heq. rewrite length_app in Heq. simpl in Heq. lia.
  - intros v. rewrite elem_of_app, Hinr. split.
    + intros [Hv|(c & next & cs & n & p & Hin & Hcp & Hp & Hf & He & Hend & ->)].
      * destruct (edge h node plus) as [p|] eqn:E; [|by apply elem_of_nil in Hv].
        destruct (is_end h p) eqn:Ep; [|by apply elem_of_nil in Hv].
        apply list_elem_of_singleton in Hv as ->.
        exists [], node, p. split_and!; [apply not_elem_of_nil|done..].
      * exists (c :: cs), n, p. split_and!; [|  |done|done|].
        -- apply not_elem_of_cons. split; [congruence|done].
        -- assert (edge h node c = Some next) as E.
           { apply elem_get; [apply Hnd|done]. }
           simpl. by rewrite E.
        -- simpl. by rewrite <- app_assoc.
    + intros ([|c cs] & n & p & Hp & Hf & He & Hend & ->).
      * left. injection Hf as <-. rewrite He, Hend. apply list_elem_of_here.
      * right. simpl in Hf. destruct (edge h node c) as [next|] eqn:E; [|done].
        apply not_elem_of_cons in Hp as [Hcp Hp].
        exists c, next, cs, n, p. split_and!; [by apply get_Some_elem|done..|].
        simpl. by rewrite <- app_assoc.
Qed.

(** With fuel above the rank of the node, [_crawl_end] returns. *)
Lemma crawl_end_returns (h : arena) (root : nat) (ks : list kind) (L : nat) :
  Inv h root ks -> Forall (fun k => kind_len k <= L) ks ->
  forall (fuel node : nat) (k : kind) (p : word),
    ks !! node = Some k -> rank L k < fuel ->
    exists ys, _crawl_end fuel h node p = Ok ys.
Proof.
  intros HI HL. induction fuel as [|fuel IH]; intros node k p Hk Hr; [lia|].
  rewrite crawl_end_S.
  destruct (for_each_Ok
              (fun '(char, next_node) (_ : unit) =>
                 if eqc char plus then Ok ([], tt)
                 else ws ← _crawl_end fuel h next_node (char :: p); mret (ws, tt))
              (Node._edges (node_at h node))) with (s := tt) as [[rest []] ->].
  - intros [c next] s Hin. destruct (eqc c plus); [by eexists|].
    assert (edge h node c = Some next) as He.
    { apply elem_get; [apply (inv_nodup _ _ _ HI)|done]. }
    destruct (inv_edge _ _ _ HI _ _ _ He) as (k1 & k2 & Hk1 & Hk2 & _).
    destruct (IH next k2 (c :: p)) as [ws ->]; [done| |by eexists].
    pose proof (rank_edge _ _ _ L _ _ _ _ _ HI HL He Hk Hk2). lia.
  - by eexists.
Qed.

(** [_crawl_end] on a lexicon, from the node of a path [u] from the root:
    the words of the lexicon that end with the word at the start. *)
Lemma crawl_end_lexicon (g : GADDAG) (ks : list kind) (W : list word) (s : word)
    (n0 : nat) :
  lexicon g ks W -> follow (nodes g) (_root g) (rev s) = Some n0 ->
  exists n, forall fuel, n <= fuel ->
    exists ys,
      _crawl_end fuel (nodes g) n0 s = Ok ys
      /\ NoDup ys
      /\ (forall v, v ∈ ys <-> v ∈ W /\ exists pre, v = pre ++ s).
Proof.
  intros HL Hn0. pose proof (lex_inv _ _ _ HL) as HI.
  set (L := max_list (kind_len <$> ks)).
  exists (2 * L + 3). intros fuel Hfuel.
  destruct (follow_kind _ _ _ _ HI _ n0 _ (inv_root _ _ _ HI) Hn0) as [k0 Hk0].
  destruct (crawl_end_returns _ _ _ L HI (kinds_bounded ks) fuel n0 k0 s Hk0)
    as [ys Hcrawl].
  { pose proof (rank_le L k0). lia. }
  exists ys. split; [done|].
  destruct (crawl_end_spec _ (inv_nodup _ _ _ HI) _ _ _ _ Hcrawl) as [Hnd Hin].
  split; [done|]. intros v. rewrite Hin. split.
  - intros (cs & n & p & Hp & Hf & He & Hend & ->).
    assert (follow (nodes g) (_root g) (rev s ++ cs) = Some n) as Hroot.
    { by rewrite follow_app, Hn0. }
    destruct (follow_plus_kind _ _ _ _ _ _ HI Hroot He) as [_ Hkp].
    rewrite rev_app_distr, rev_involutive in Hkp.
    split; [|by exists (rev cs)].
    destruct (lex_marked _ _ _ HL p Hend) as [Hl|(q & Hq & Hqin)];
      rewrite Hkp in *; [done|]. by injection Hq as <-.
  - intros (Hv & pre & ->).
    destruct (lex_words _ _ _ HL _ Hv) as [Hne Hpl].
    destruct (lexicon_root_path g ks W (pre ++ s) [] HL)
      as (n & st & e & Hf & Hst & He & Hend); [by rewrite app_nil_r|done|].
    simpl in He. injection He as <-.
    rewrite rev_app_distr, follow_app, Hn0 in Hf.
    exists (rev pre), n, st. split_and!; [|done|done|done|by rewrite rev_involutive].
    apply not_in_rev. rewrite not_elem_of_app in Hpl. tauto.
Qed.

(** [ends_with] on a lexicon of lower-case words: the sequence holds the
    words of the lexicon that end with the suffix, each once, and nothing
    else; it is empty when there is no such word. *)
Theorem ends_with_exact (ws : list word) (s : word) :
  lowercase_words ws ->
  exists n, forall fuel, n <= fuel ->
    exists ys,
      iterate fuel (ends_with (fst (build ws)) s) = Ok ys
      /\ NoDup ys
      /\ (forall v, v ∈ ys <-> v ∈ ws /\ exists pre, v = pre ++ s).
Proof.
  intros Hws.
  destruct (build_lexicon ws Hws) as (ks & _ & HL & _).
  set (g := fst (build ws)) in *.
  unfold ends_with, iterate, crawl_end_body.
  destruct (follow (nodes g) (_root g) (rev s)) as [n0|] eqn:E0.
  - exact (crawl_end_lexicon g ks ws s n0 HL E0).
  - exists 0. intros fuel _. exists []. split_and!; [done|apply NoDup_nil_2|].
    intros v. split; [by intros H%elem_of_nil|]. intros (Hv & pre & ->).
    destruct (lex_words _ _ _ HL _ Hv) as [Hne _].
    destruct (lexicon_root_path g ks ws (pre ++ s) [] HL)
      as (n & st & e & Hf & _); [by rewrite app_nil_r|done|].
    rewrite rev_app_distr, follow_app, E0 in Hf. done.
Qed.

Lemma ends_with_exact_witness :
  exists n, forall fuel, n <= fuel ->
    exists ys,
      iterate fuel (ends_with (fst (build heart_words)) (chars "r")) = Ok ys
      /\ NoDup ys
      /\ (forall v, v ∈ ys <-> v ∈ heart_words /\ exists pre, v = pre ++ chars "r").
Proof.
  apply (ends_with_exact heart_words (chars "r")).
  apply lowercase_words_check. vm_compute. reflexivity.
Defined.

(** Iterating a lexicon of lower-case words gives every word of the list
    once, and [len] is the number of distinct words of the list. *)
Theorem len_counts_words (ws : list word) :
  lowercase_words ws ->
  exists n, forall fuel, n <= fuel ->
    (exists ys, iterate fuel (__iter__ (fst (build ws))) = Ok ys
                /\ NoDup ys /\ forall v, v ∈ ys <-> v ∈ ws)
    /\ __len__ fuel (fst (build ws)) 0 = Ok (length (remove_dups ws)).
Proof.
  intros Hws.
  destruct (build_lexicon ws Hws) as (ks & _ & HL & Hch).
  set (g := fst (build ws)) in *.
  destruct (crawl_end_lexicon g ks ws [] (_root g) HL eq_refl) as [n Hn].
  exists n. intros fuel Hfuel.
  destruct (Hn fuel Hfuel) as (ys & Hcrawl & Hnd & Hin).
  assert (forall v, v ∈ ys <-> v ∈ ws) as Hin'.
  { intros v. rewrite Hin. split; [tauto|]. intros Hv. split; [done|].
    exists v. by rewrite app_nil_r. }
  assert (iterate fuel (__iter__ g) = Ok ys) as Hiter by exact Hcrawl.
  split; [by exists ys|].
  assert (length ys = length (remove_dups ws)) as Hlen.
  { apply Permutation_length, NoDup_Permutation; [done|apply NoDup_remove_dups|].
    intros v. by rewrite Hin', elem_of_remove_dups. }
  unfold __len__. destruct (_changed g) eqn:Ec.
  - rewrite Hiter. simpl. by rewrite Hlen.
  - destruct Hch as [Hnew|Hch]; [|congruence].
    destruct ws as [|w ws']; [done|]. exfalso.
    assert (_has g w = true) as Hw.
    { apply (lexicon_has g ks _ w HL), list_elem_of_here. }
    apply Forall_cons in Hws as [(Hne & _) _].
    rewrite Hnew in Hw. unfold _has in Hw. simpl in Hw.
    destruct (rev w) as [|c r] eqn:Er; [|done].
    apply (f_equal (@rev ascii)) in Er. rewrite rev_involutive in Er. done.
Qed.

Lemma len_counts_words_witness :
  exists n, forall fuel, n <= fuel ->
    (exists ys, iterate fuel (__iter__ (fst (build (heart_words ++ heart_words)))) = Ok ys
                /\ NoDup ys /\ forall v, v ∈ ys <-> v ∈ heart_words ++ heart_words)
    /\ __len__ fuel (fst (build (heart_words ++ heart_words))) 0
       = Ok (length (remove_dups (heart_words ++ heart_words))).
Proof.
  apply (len_counts_words (heart_words ++ heart_words)).
  apply lowercase_words_check. vm_compute. reflexivity.
Defined.
(** ** The crawl for a pattern: [_crawl_find_lett_patt] *)

Lemma crawl_find_S (fuel : nat) (h : arena) (node : nat) (pw : word)
    (letters : list ascii) (pattern : word) (F : list word) (b : bool) :
  _crawl_find_lett_patt (S fuel) h node pw letters pattern F b
  = let '(first, found1) :=
      if is_end h node && negb (seen pw F) && gaddag_check_pattern pw pattern
      then ([pw], pw :: F) else ([], F) in
    '(rest, found2) ←
      for_each (fun '(char, next_node) found =>
          if eqc char plus
          then _crawl_find_lett_patt fuel h next_node pw letters pattern found true
          else if mem char letters && (length pw <? length pattern)
          then
            new_letters ← get_newlist char letters (nonempty letters);
            _crawl_find_lett_patt fuel h next_node
              (if b then pw ++ [char] else char :: pw) new_letters pattern found b
          else Ok ([], found))
        (Node._edges (node_at h node)) found1;
    mret (first ++ rest, found2).
Proof. reflexivity. Qed.

Lemma get_newlist_mem (c : ascii) (l : list ascii) :
  mem c l = true ->
  exists l', get_newlist c l (nonempty l) = Ok l' /\ remove_first c l = Some l'.
Proof.
  intros Hm. unfold get_newlist. rewrite Hm.
  assert (c ∈ l) as Hin by (by apply bool_decide_eq_true in Hm).
  destruct (remove_first_is_Some c l Hin) as [l' Hl'].
  destruct l as [|x l]; [by apply elem_of_nil in Hin|].
  exists l'. cbn [nonempty negb orb]. rewrite bool_decide_eq_false_2 by done.
  by rewrite Hl'.
Qed.

Lemma path_letters_cons (c : ascii) (cs : word) :
  path_letters (c :: cs)
  = if eqc c plus then path_letters cs else c :: path_letters cs.
Proof.
  unfold path_letters, eqc. rewrite filter_cons.
  case_decide; case_bool_decide; done.
Qed.

Lemma path_letters_none (cs : word) : plus ∉ cs -> path_letters cs = cs.
Proof.
  intros H. unfold path_letters. apply filter_all, Forall_forall.
  intros c Hc ->. done.
Qed.

Lemma path_letters_app (a b : word) :
  path_letters (a ++ b) = path_letters a ++ path_letters b.
Proof. apply filter_app. Qed.

(** The word of a path has the letters of the start and of the path. *)
Lemma run_letters (cs : word) :
  forall (p : word) (b : bool), fst (run (p, b) cs) ≡ₚ p ++ path_letters cs.
Proof.
  induction cs as [|c cs IH]; intros p b.
  - simpl. by rewrite app_nil_r.
  - rewrite run_cons, path_letters_cons. unfold extend. cbn [fst snd].
    destruct (eqc c plus); [apply IH|]. destruct b; rewrite IH.
    + by rewrite <- app_assoc.
    + simpl. by rewrite Permutation_middle.
Qed.

Lemma check_pattern_length (v pattern : word) :
  gaddag_check_pattern v pattern = true -> length v = length pattern.
Proof.
  unfold gaddag_check_pattern. intros [H _]%andb_true_iff.
  by apply bool_decide_eq_true in H.
Qed.

(** What [_crawl_find_lett_patt] yields is new and distinct, and its set
    ends with every word that matches the pattern and whose path the
    letters allow. *)
Lemma crawl_find_post (h : arena) (pattern : word) (fuel : nat) :
  forall (node : nat) (pw : word) (letters : list ascii) (F : list word) (b : bool)
         (ys F' : list word),
    _crawl_find_lett_patt fuel h node pw letters pattern F b = Ok (ys, F') ->
    post F ys F'
    /\ (forall cs e, follow h node cs = Some e -> is_end h e = true ->
          path_letters cs ⊆+ letters ->
          gaddag_check_pattern (fst (run (pw, b) cs)) pattern = true ->
          fst (run (pw, b) cs) ∈ F').
Proof.
  induction fuel as [|fuel IH]; intros node pw letters F b ys F' H; [done|].
  rewrite crawl_find_S in H.
  destruct (if is_end h node && negb (seen pw F) && gaddag_check_pattern pw pattern
            then ([pw], pw :: F) else ([], F))
    as [first found1] eqn:Efirst.
  assert (post F first found1
          /\ (is_end h node = true -> gaddag_check_pattern pw pattern = true ->
              pw ∈ found1)) as [P1 Hp].
  { destruct (is_end h node) eqn:Eend; simpl in Efirst.
    - unfold seen in Efirst. case_bool_decide as Hseen; simpl in Efirst.
      + injection Efirst as <- <-. split; [apply post_nil|done].
      + destruct (gaddag_check_pattern pw pattern); injection Efirst as <- <-.
        * split; [|intros _ _; apply list_elem_of_here].
          split_and!.
          -- intros v. rewrite elem_of_cons, list_elem_of_singleton. tauto.
          -- apply NoDup_singleton.
          -- intros v ->%list_elem_of_singleton. done.
        * split; [apply post_nil|done].
    - injection Efirst as <- <-. split; [apply post_nil|done]. }
  apply bind_Ok in H as ([rest found2] & Hfor & [= <- <-]).
  eapply (for_each_post _
            (fun a v => exists cs e,
               follow h (snd a) cs = Some e /\ is_end h e = true
               /\ path_letters (fst a :: cs) ⊆+ letters
               /\ gaddag_check_pattern v pattern = true
               /\ v = fst (run (extend (pw, b) (fst a)) cs))) in Hfor.
  - destruct Hfor as [P2 T2]. split; [eapply post_app; eauto|].
    intros [|c cs] e Hf He Hsub Hchk.
    + injection Hf as <-. apply (proj1 P2). left. by apply Hp.
    + simpl in Hf. destruct (edge h node c) as [next|] eqn:Eedge; [|done].
      apply (T2 (c, next)); [by apply get_Some_elem|].
      exists cs, e. split_and!; done.
  - intros [c next] s ys' s' _ Hbody. cbn [fst snd].
    unfold extend. cbn [fst snd].
    destruct (eqc c plus) eqn:Ec.
    + destruct (IH _ _ _ _ _ _ _ Hbody) as [P R]. split; [done|].
      intros v (cs & e & Hf & He & Hsub & Hchk & ->).
      rewrite path_letters_cons, Ec in Hsub. by apply (R cs e).
    + destruct (mem c letters && (length pw <? length pattern)) eqn:Econd.
      * apply andb_true_iff in Econd as [Hmem Hlen].
        destruct (get_newlist_mem c letters Hmem) as (l' & Hget & Hrem).
        rewrite Hget in Hbody. simpl in Hbody.
        destruct (IH _ _ _ _ _ _ _ Hbody) as [P R]. split; [done|].
        intros v (cs & e & Hf & He & Hsub & Hchk & ->).
        rewrite path_letters_cons, Ec in Hsub.
        rewrite (remove_first_Some _ _ _ Hrem) in Hsub.
        apply (submseteq_app_inv_l _ _ [c]) in Hsub.
        destruct b; by apply (R cs e).
      * injection Hbody as <- <-. split; [apply post_nil|].
        intros v (cs & e & Hf & He & Hsub & Hchk & ->). exfalso.
        rewrite path_letters_cons, Ec in Hsub.
        apply andb_false_iff in Econd as [Hmem|Hlen].
        -- apply bool_decide_eq_false in Hmem. apply Hmem.
           apply submseteq_cons_l in Hsub as (k' & Hk' & _).
           rewrite Hk'. apply list_elem_of_here.
        -- apply check_pattern_length in Hchk.
           cbn [fst snd] in Hchk. unfold extend in Hchk. cbn [fst snd] in Hchk.
           assert (run (if b then (pw ++ [c], true) else (c :: pw, false)) cs
                   = run (if b then pw ++ [c] else c :: pw, b) cs) as Hrun
             by (by destruct b).
           rewrite Hrun in Hchk.
           pose proof (Permutation_length (run_letters cs (if b then pw ++ [c] else c :: pw) b)) as Hl.
           rewrite Hl, length_app in Hchk.
           apply Nat.ltb_ge in Hlen. destruct b; [rewrite length_app in Hchk|];
             simpl in Hchk; lia.
Qed.

(** Every word that [_crawl_find_lett_patt] yields matches the pattern and
    is the word of a path to an end node that the letters allow. *)
Lemma crawl_find_sound (h : arena) (pattern : word) (fuel : nat) :
  (forall i, NoDup (Node.labels (node_at h i))) ->
  forall (node : nat) (pw : word) (letters : list ascii) (F : list word) (b : bool)
         (ys F' : list word),
    _crawl_find_lett_patt fuel h node pw letters pattern F b = Ok (ys, F') ->
    forall v, v ∈ ys ->
      exists cs e, follow h node cs = Some e /\ is_end h e = true
                   /\ path_letters cs ⊆+ letters
                   /\ gaddag_check_pattern v pattern = true
                   /\ v = fst (run (pw, b) cs).
Proof.
  intros Hnd.
  induction fuel as [|fuel IH]; intros node pw letters F b ys F' H v Hv; [done|].
  rewrite crawl_find_S in H.
  destruct (if is_end h node && negb (seen pw F) && gaddag_check_pattern pw pattern
            then ([pw], pw :: F) else ([], F))
    as [first found1] eqn:Efirst.
  apply bind_Ok in H as ([rest found2] & Hfor & [= <- <-]).
  apply elem_of_app in Hv as [Hv|Hv].
  - destruct (is_end h node) eqn:Eend; simpl in Efirst.
    + destruct (negb (seen pw F)); simpl in Efirst.
      * destruct (gaddag_check_pattern pw pattern) eqn:Echk;
          injection Efirst as <- <-; [|by apply elem_of_nil in Hv].
        apply list_elem_of_singleton in Hv as ->. exists [], node.
        split_and!; [done|done|apply submseteq_nil_l|done|done].
      * injection Efirst as <- <-. by apply elem_of_nil in Hv.
    + injection Efirst as <- <-. by apply elem_of_nil in Hv.
  - destruct (for_each_elem _ _ _ _ _ _ Hfor Hv)
      as ([c next] & s1 & ys1 & s1' & Ha & Hb & Hv1).
    assert (edge h node c = Some next) as E.
    { apply elem_get; [apply Hnd|done]. }
    destruct (eqc c plus) eqn:Ec.
    + destruct (IH _ _ _ _ _ _ _ Hb v Hv1) as (cs & e & Hf & He & Hsub & Hchk & ->).
      exists (c :: cs), e. cbn [follow]. rewrite E, path_letters_cons, Ec.
      split_and!; [done..|]. rewrite run_cons. unfold extend. by rewrite Ec.
    + destruct (mem c letters && (length pw <? length pattern)) eqn:Econd.
      * apply andb_true_iff in Econd as [Hmem Hlen].
        destruct (get_newlist_mem c letters Hmem) as (l' & Hget & Hrem).
        rewrite Hget in Hb. simpl in Hb.
        destruct (IH _ _ _ _ _ _ _ Hb v Hv1) as (cs & e & Hf & He & Hsub & Hchk & ->).
        exists (c :: cs), e. cbn [follow]. rewrite E, path_letters_cons, Ec.
        split_and!; [done|done| |done|].
        -- rewrite (remove_first_Some _ _ _ Hrem). by apply submseteq_skip.
        -- rewrite run_cons. unfold extend. rewrite Ec. cbn [fst snd].
           by destruct b.
      * injection Hb as <- <-. by apply elem_of_nil in Hv1.
Qed.

(** With fuel above the rank of the node, the crawl returns. *)
Lemma crawl_find_returns (h : arena) (root : nat) (ks : list kind) (L : nat)
    (pattern : word) :
  Inv h root ks -> Forall (fun k => kind_len k <= L) ks ->
  forall (fuel node : nat) (k : kind) (p : word) (letters : list ascii)
         (F : list word) (b : bool),
    ks !! node = Some k -> rank L k < fuel ->
    exists r, _crawl_find_lett_patt fuel h node p letters pattern F b = Ok r.
Proof.
  intros HI HL. induction fuel as [|fuel IH]; intros node k p letters F b Hk Hr; [lia|].
  rewrite crawl_find_S.
  destruct (if is_end h node && negb (seen p F) && gaddag_check_pattern p pattern
            then ([p], p :: F) else ([], F)) as [first found1].
  match goal with
  | |- context [for_each ?body ?l ?st] =>
      destruct (for_each_Ok body l) with (s := st) as [[rest found2] ->]
  end.
  - intros [c next] s Hin.
    assert (edge h node c = Some next) as He.
    { apply elem_get; [apply (inv_nodup _ _ _ HI)|done]. }
    destruct (inv_edge _ _ _ HI _ _ _ He) as (k1 & k2 & Hk1 & Hk2 & _).
    pose proof (rank_edge _ _ _ L _ _ _ _ _ HI HL He Hk Hk2).
    destruct (eqc c plus); [eapply (IH next k2); [done|lia]|].
    destruct (mem c letters && (length p <? length pattern)) eqn:Econd;
      [|by eexists].
    apply andb_true_iff in Econd as [Hmem Hlen].
    destruct (get_newlist_mem c letters Hmem) as (l' & -> & Hrem). simpl.
    eapply (IH next k2); [done|lia].
  - by eexists.
Qed.


Lemma check_pattern_spec (v pattern : word) :
  gaddag_check_pattern v pattern = true
  <-> length v = length pattern
      /\ forall i x p, v !! i = Some x -> pattern !! i = Some p ->
           p = dash \/ x = p.
Proof.
  unfold gaddag_check_pattern. rewrite andb_true_iff, bool_decide_eq_true.
  apply and_iff_compat_l. rewrite forallb_forall. split.
  - intros H i x p Hx Hp.
    assert ((x, p) ∈ zip v pattern) as Hin.
    { apply list_elem_of_lookup. exists i. by apply lookup_zip_with_Some; eauto. }
    apply list_elem_of_In, H in Hin. apply orb_true_iff in Hin as [Hd|He].
    + left. by apply bool_decide_eq_true in Hd.
    + right. by apply bool_decide_eq_true in He.
  - intros H [x p] Hin. apply list_elem_of_In, list_elem_of_lookup in Hin as [i Hi].
    apply lookup_zip_with_Some in Hi as (x' & p' & [= <- <-] & Hx & Hp).
    apply orb_true_iff. unfold eqc. rewrite !bool_decide_eq_true.
    by apply (H i).
Qed.

(** [find_lett_patt] on a graph that insertions built: the search returns,
    its words are distinct words of the list, and each matches the pattern
    and takes its letters from the list that the call extended. *)
Lemma find_lett_patt_graph (g : GADDAG) (ks : list kind) (W : list word) :
  Inv (nodes g) (_root g) ks -> marked (nodes g) ks W ->
  exists n, forall (letters : list ascii) (pattern : word) fuel, n <= fuel ->
    exists ys,
      iterate fuel (snd (find_lett_patt g letters pattern)) = Ok ys
      /\ NoDup ys
      /\ (forall v, v ∈ ys ->
            v ∈ W /\ gaddag_check_pattern v pattern = true
            /\ v ⊆+ fst (find_lett_patt g letters pattern))
      /\ (forall cs e, follow (nodes g) (_root g) cs = Some e ->
            is_end (nodes g) e = true ->
            path_letters cs ⊆+ fst (find_lett_patt g letters pattern) ->
            gaddag_check_pattern (fst (run ([], false) cs)) pattern = true ->
            fst (run ([], false) cs) ∈ ys).
Proof.
  intros HI HS. set (L := max_list (kind_len <$> ks)).
  exists (2 * L + 3). intros letters pattern fuel Hfuel.
  unfold find_lett_patt, iterate. cbn [fst snd].
  set (letters' := append_alpha letters pattern).
  destruct (crawl_find_returns _ _ _ L pattern HI (kinds_bounded ks) fuel (_root g)
              _ [] letters' [] false (inv_root _ _ _ HI)) as [[ys F'] Hcrawl].
  { simpl. lia. }
  rewrite Hcrawl. simpl. exists ys. split; [done|].
  destruct (crawl_find_post _ _ _ _ _ _ _ _ _ _ Hcrawl) as [(M & Hnd & _) Hreach].
  split; [done|]. split.
  - intros v Hv.
    destruct (crawl_find_sound _ _ _ (inv_nodup _ _ _ HI) _ _ _ _ _ _ _ Hcrawl v Hv)
      as (cs & e & Hf & He & Hsub & Hchk & ->).
    split_and!; [|done|].
    + destruct (coherent_run _ _ _ _ HI _ _ _ ([], false) (inv_root _ _ _ HI)
                  eq_refl Hf) as (ke & Hke & Hce).
      exact (coherent_end _ _ _ _ _ _ HS Hke Hce He).
    + by rewrite (run_letters cs [] false).
  - intros cs e Hf He Hsub Hchk.
    specialize (Hreach cs e Hf He Hsub Hchk).
    apply M in Hreach as [H|H]; [by apply elem_of_nil in H|done].
Qed.

(** [find_lett_patt] on a lexicon of lower-case words: the search returns
    the words of the lexicon that have the length of the pattern, agree
    with it wherever it is not ["-"], and take their letters from [letters]
    and the letters of the pattern, each once, and nothing else. *)
Theorem find_lett_patt_exact (ws : list word) (letters : list ascii)
    (pattern : word) :
  lowercase_words ws ->
  exists n, forall fuel, n <= fuel ->
    exists ys,
      iterate fuel (snd (find_lett_patt (fst (build ws)) letters pattern)) = Ok ys
      /\ NoDup ys
      /\ (forall v, v ∈ ys <->
            v ∈ ws
            /\ length v = length pattern
            /\ (forall i x p, v !! i = Some x -> pattern !! i = Some p ->
                  p = dash \/ x = p)
            /\ v ⊆+ letters ++ filter (fun c => is_alpha c = true) pattern).
Proof.
  intros Hws.
  destruct (build_lexicon ws Hws) as (ks & _ & HL & _).
  set (g := fst (build ws)) in *.
  destruct (find_lett_patt_graph g ks ws (lex_inv _ _ _ HL)
              (lex_marked _ _ _ HL)) as [n Hn].
  exists n. intros fuel Hfuel.
  destruct (Hn letters pattern fuel Hfuel) as (ys & Hit & Hnd & Hsound & Hcomplete).
  exists ys. split_and!; [done|done|].
  assert (fst (find_lett_patt g letters pattern)
          = letters ++ filter (fun c => is_alpha c = true) pattern) as Hl
    by apply append_alpha_spec.
  rewrite Hl in *. intros v. split.
  - intros Hv. destruct (Hsound v Hv) as (Hin & Hchk & Hsub).
    apply check_pattern_spec in Hchk as [Hlen Hpat]. done.
  - intros (Hv & Hlen & Hpat & Hsub).
    destruct (lex_words _ _ _ HL _ Hv) as [Hne Hpl].
    destruct (lexicon_root_path g ks ws v [] HL)
      as (n' & st & e & Hf & Hst & He & Hend); [by rewrite app_nil_r|done|].
    simpl in He. injection He as <-.
    assert (fst (run ([], false) (rev v ++ [plus])) = v) as Hrun.
    { rewrite run_app, run_prepend by done. simpl. by rewrite app_nil_r. }
    rewrite <- Hrun. apply (Hcomplete _ st).
    + rewrite follow_app, Hf. simpl. by rewrite Hst.
    + done.
    + rewrite path_letters_app, path_letters_none by by apply not_in_rev.
      simpl. rewrite app_nil_r. by rewrite <- (Permutation_rev v).
    + rewrite Hrun. by apply check_pattern_spec.
Qed.

Lemma find_lett_patt_exact_witness :
  exists n, forall fuel, n <= fuel ->
    exists ys,
      iterate fuel (snd (find_lett_patt (fst (build heart_words))
                           (chars "trnd") (chars "--e--"))) = Ok ys
      /\ NoDup ys
      /\ (forall v, v ∈ ys <->
            v ∈ heart_words
            /\ length v = length (chars "--e--")
            /\ (forall i x p, v !! i = Some x -> chars "--e--" !! i = Some p ->
                  p = dash \/ x = p)
            /\ v ⊆+ chars "trnd" ++ filter (fun c => is_alpha c = true) (chars "--e--")).
Proof.
  apply (find_lett_patt_exact heart_words (chars "trnd") (chars "--e--")).
  apply lowercase_words_check. vm_compute. reflexivity.
Defined.
(** ** The solver: counting letters *)

Lemma count_app x l1 l2 : count x (l1 ++ l2) = count x l1 + count x l2.
Proof. unfold count. by rewrite filter_app, length_app. Qed.

Lemma count_remove_first x z l l' :
  remove_first z l = Some l' ->
  count x l = count x l' + (if decide (z = x) then 1 else 0).
Proof.
  intros H. rewrite (count_perm x _ _ (remove_first_Some _ _ _ H)), count_cons. lia.
Qed.

Lemma count_pos_elem x l : 0 < count x l -> x ∈ l.
Proof.
  induction l as [|a l IH]; [by cbv; lia|].
  rewrite count_cons. case_decide as E.
  - subst. intros _. apply list_elem_of_here.
  - intros H. apply list_elem_of_further, IH. lia.
Qed.

Lemma submseteq_count x (X Y : list ascii) : X ⊆+ Y -> count x X <= count x Y.
Proof.
  intros [k Hk]%submseteq_Permutation.
  rewrite (count_perm _ _ _ Hk), count_app. lia.
Qed.

Lemma count_submseteq (X Y : list ascii) :
  (forall x, count x X <= count x Y) -> X ⊆+ Y.
Proof.
  revert Y. induction X as [|a X IH]; intros Y H; [apply submseteq_nil_l|].
  assert (a ∈ Y) as Ha.
  { apply count_pos_elem. specialize (H a). rewrite count_cons, decide_True in H by done.
    lia. }
  apply elem_of_Permutation in Ha as [Y' HY'].
  rewrite HY'. apply submseteq_skip, IH. intros x. specialize (H x).
  rewrite (count_perm _ _ _ HY'), !count_cons in H. lia.
Qed.

Lemma remove_all_ok (R pool : list ascii) :
  R ⊆+ pool -> exists l, remove_all R pool = Ok l.
Proof.
  revert pool. induction R as [|x R IH]; intros pool H; [by eexists|].
  simpl. apply submseteq_cons_l in H as (k & Hk & Hsub).
  destruct (remove_first_is_Some x pool) as [l Hl].
  { rewrite Hk. apply list_elem_of_here. }
  rewrite Hl. apply IH.
  apply remove_first_Some in Hl. rewrite Hk in Hl.
  apply Permutation_cons_inv in Hl. by rewrite <- Hl.
Qed.

(** [get_letters] removes what [removed_at] lists, position by position. *)
Lemma get_letters_fold (w pattern : word) (row : nat) (idx : list nat) :
  Forall (fun i => i < length w /\ i < length pattern) idx ->
  forall pool,
    fold_outcome (fun new_letters i =>
        wi ← index w i; pi ← index pattern i;
        if eqc wi pi then Ok new_letters
        else
          match remove_first wi new_letters with
          | None => Raise ValueError
          | Some l1 =>
              if i =? row then Ok l1
              else match remove_first wi l1 with
                   | None => Raise ValueError
                   | Some l2 => Ok l2
                   end
          end) idx pool
    = remove_all (concat (map (removed_at w pattern row) idx)) pool.
Proof.
  induction idx as [|i idx IH]; intros Hidx pool; [done|].
  apply Forall_cons in Hidx as [[Hw Hp] Hidx].
  destruct (lookup_lt_is_Some_2 w i Hw) as [a Ha].
  destruct (lookup_lt_is_Some_2 pattern i Hp) as [p Hpp].
  cbn [fold_outcome map concat]. unfold removed_at at 1, index.
  rewrite Ha, Hpp. cbn [mbind outcome_bind].
  destruct (eqc a p); [by apply IH|].
  destruct (i =? row).
  - simpl. destruct (remove_first a pool); [by apply IH|done].
  - simpl. destruct (remove_first a pool) as [l1|]; [|done].
    destruct (remove_first a l1); [by apply IH|done].
Qed.

(** ** The solver: [check_pattern] and [get_letters] *)

Lemma length5 {A} (l : list A) :
  length l = 5 -> exists a0 a1 a2 a3 a4, l = [a0; a1; a2; a3; a4].
Proof.
  destruct l as [|a0 [|a1 [|a2 [|a3 [|a4 [|]]]]]]; try done. by eexists _, _, _, _, _.
Qed.

Lemma dashed_fold (w pattern : word) :
  length w = 5 -> length pattern = 5 ->
  fold_outcome (fun w' i =>
      wi ← index w' i; pi ← index pattern i;
      if eqc wi pi then assign w' i dash else Ok w') (seq 0 5) w
  = Ok (dashed w pattern).
Proof.
  intros (a0 & a1 & a2 & a3 & a4 & ->)%length5 (p0 & p1 & p2 & p3 & p4 & ->)%length5.
  unfold dashed. cbn [zip_with seq fold_outcome].
  unfold index, assign.
  cbn [lookup list_lookup mbind outcome_bind length].
  destruct (eqc a0 p0); [rewrite decide_True by lia|];
    cbn [mbind outcome_bind list_insert insert lookup list_lookup length];
    (destruct (eqc a1 p1); [rewrite decide_True by lia|]);
    cbn [mbind outcome_bind list_insert insert lookup list_lookup length];
    (destruct (eqc a2 p2); [rewrite decide_True by lia|]);
    cbn [mbind outcome_bind list_insert insert lookup list_lookup length];
    (destruct (eqc a3 p3); [rewrite decide_True by lia|]);
    cbn [mbind outcome_bind list_insert insert lookup list_lookup length];
    (destruct (eqc a4 p4); [rewrite decide_True by lia|]);
    reflexivity.
Qed.

Lemma dashed_length (w pattern : word) :
  length w = length pattern -> length (dashed w pattern) = length w.
Proof. intros H. unfold dashed. rewrite length_zip_with. lia. Qed.

Lemma dashed_lookup (w pattern : word) (i : nat) (a p : ascii) :
  w !! i = Some a -> pattern !! i = Some p ->
  dashed w pattern !! i = Some (if eqc a p then dash else a).
Proof.
  intros Ha Hp. unfold dashed. apply lookup_zip_with_Some. eauto.
Qed.

Lemma remove_first_app (c : ascii) (l1 l2 r1 : list ascii) :
  remove_first c l1 = Some r1 -> remove_first c (l1 ++ l2) = Some (r1 ++ l2).
Proof.
  revert r1. induction l1 as [|x l1 IH]; intros r1 H; [done|].
  simpl in *. destruct (eqc x c); [by injection H as <-|].
  destruct (remove_first c l1) as [r|]; [|done].
  injection H as <-. by rewrite (IH r).
Qed.

Lemma remove_first_length (c : ascii) (l r : list ascii) :
  remove_first c l = Some r -> length l = S (length r).
Proof. intros H. by rewrite (Permutation_length (remove_first_Some _ _ _ H)). Qed.

(** The loop of [check_pattern] that compares the counts. *)
Lemma check_loop (w3 pool : list ascii) (idx : list nat) :
  Forall (fun i => i < length w3) idx ->
  forall b0,
    exists b,
      fold_outcome (fun ok i =>
          if ok : bool then
            wi ← index w3 i;
            mret (negb (is_alpha wi && (count wi pool <? count wi w3)))
          else Ok false) idx b0 = Ok b
      /\ (b = true -> b0 = true
          /\ forall i, i ∈ idx ->
               exists y, w3 !! i = Some y
                         /\ (is_alpha y = true -> count y w3 <= count y pool)).
Proof.
  induction idx as [|i idx IH]; intros Hidx b0.
  - exists b0. split; [done|]. intros ->. split; [done|].
    intros i Hi. by apply elem_of_nil in Hi.
  - apply Forall_cons in Hidx as [Hi Hidx].
    destruct (lookup_lt_is_Some_2 w3 i Hi) as [y Hy].
    cbn [fold_outcome]. destruct b0.
    + unfold index. rewrite Hy. cbn [mbind outcome_bind mret outcome_ret].
      destruct (IH Hidx (negb (is_alpha y && (count y pool <? count y w3))))
        as (b & Hb & Hall).
      exists b. split; [done|]. intros ->. destruct (Hall eq_refl) as [Hneg Hrest].
      split; [done|]. intros j [->|Hj]%elem_of_cons; [|by apply Hrest].
      exists y. split; [done|]. intros Hal. rewrite Hal in Hneg. simpl in Hneg.
      apply negb_true_iff, Nat.ltb_ge in Hneg. done.
    + cbn [mbind outcome_bind].
      destruct (IH Hidx false) as (b & Hb & Hall).
      exists b. split; [done|]. intros ->. by destruct (Hall eq_refl).
Qed.

Lemma seq_bound (n : nat) (m : nat) : n <= m -> Forall (fun i => i < m) (seq 0 n).
Proof. intros H. apply Forall_forall. intros i Hi%elem_of_seq. lia. Qed.

(** [check_pattern] on a word of five letters returns, and when it returns
    True the counts of the letters it looks at are within the pool. *)
Lemma check_pattern_spec5 (row : nat) (w pool pattern : word) :
  length w = 5 -> length pattern = 5 -> row < 5 ->
  exists b c r1,
    Solver.check_pattern row w pool pattern = Ok b
    /\ dashed w pattern !! row = Some c
    /\ remove_first c (dashed w pattern) = Some r1
    /\ (b = true ->
        forall i, i < 5 ->
          exists y, (r1 ++ dashed w pattern) !! i = Some y
                    /\ (is_alpha y = true ->
                        count y (r1 ++ dashed w pattern) <= count y pool)).
Proof.
  intros Hw Hp Hrow. unfold Solver.check_pattern.
  rewrite (dashed_fold w pattern Hw Hp). cbn [mbind outcome_bind].
  set (w1 := dashed w pattern).
  assert (length w1 = 5) as Hw1 by (unfold w1; rewrite dashed_length; lia).
  destruct (lookup_lt_is_Some_2 w1 row) as [c Hc]; [lia|].
  destruct (remove_first_is_Some c w1) as [r1 Hr1].
  { by eapply list_elem_of_lookup_2. }
  unfold index. rewrite (lookup_app_l_Some _ _ _ _ Hc). cbn [mbind outcome_bind].
  rewrite (remove_first_app _ _ w1 _ Hr1). cbn [mbind outcome_bind].
  pose proof (remove_first_length _ _ _ Hr1) as Hlen.
  destruct (check_loop (r1 ++ w1) pool (seq 0 5)) with (b0 := true) as (b & Hb & Hall).
  { apply seq_bound. rewrite length_app. lia. }
  exists b, c, r1. split; [exact Hb|]. split; [done|]. split; [done|].
  intros ->. destruct (Hall eq_refl) as [_ Hi]. intros i Hlt. apply Hi.
  apply elem_of_seq. lia.
Qed.

Lemma count_not_in x (l : list ascii) : x ∉ l -> count x l = 0.
Proof.
  induction l as [|a l IH]; [done|]. intros [Hne Hl]%not_elem_of_cons.
  rewrite count_cons, decide_False by done. by rewrite IH.
Qed.

Lemma count_filter_le x (P : ascii -> Prop) `{!forall c, Decision (P c)}
    (l : list ascii) :
  count x (filter P l) <= count x l.
Proof.
  induction l as [|a l IH]; [done|]. rewrite filter_cons.
  destruct (decide (P a)); rewrite !count_cons; lia.
Qed.

(** A word that agrees with the pattern has each letter at least as often
    as the pattern, and more often when it has the letter where the
    pattern has another character. *)
Lemma count_match_le (x : ascii) (w : word) :
  x <> dash ->
  forall pattern,
    length w = length pattern ->
    (forall i a p, w !! i = Some a -> pattern !! i = Some p -> p = dash \/ a = p) ->
    count x pattern <= count x w
    /\ forall row p, w !! row = Some x -> pattern !! row = Some p -> p <> x ->
         count x pattern < count x w.
Proof.
  intros Hx. induction w as [|a w IH]; intros [|p pattern] Hlen Hm; try done.
  simpl in Hlen. destruct (IH pattern) as [Hle Hlt]; [lia| |].
  { intros i a' p' Ha Hp. by apply (Hm (S i)). }
  rewrite !count_cons.
  assert (p = x -> a = x) as Hpx.
  { intros ->. destruct (Hm 0 a x eq_refl eq_refl) as [?|?]; done. }
  split.
  - destruct (decide (p = x)) as [Ep|Ep]; destruct (decide (a = x)) as [Ea|Ea];
      try lia. exfalso. auto.
  - intros [|row] p' Hw Hp' Hne; simpl in Hw, Hp'.
    + injection Hw as ->. injection Hp' as <-.
      destruct (decide (p = x)) as [Ep|Ep]; [done|].
      destruct (decide (x = x)) as [Ea|Ea]; [lia|done].
    + specialize (Hlt row p' Hw Hp' Hne).
      destruct (decide (p = x)) as [Ep|Ep]; destruct (decide (a = x)) as [Ea|Ea];
        try lia. exfalso. auto.
Qed.

Lemma removed_count (a p x : ascii) (i row : nat) :
  a <> dash -> x <> dash ->
  count x (if eqc a p then [] else if i =? row then [a] else [a; a])
  + (if i =? row
     then (if decide ((if eqc a p then dash else a) = x) then 1 else 0) else 0)
  = 2 * (if decide ((if eqc a p then dash else a) = x) then 1 else 0).
Proof.
  intros Ha Hx. destruct (eqc a p).
  - rewrite decide_False by congruence. by destruct (i =? row).
  - destruct (i =? row); rewrite !count_cons; case_decide; simpl; lia.
Qed.

Lemma removed_elem (w pattern : word) (row : nat) (idx : list nat) (x : ascii) :
  x ∈ concat (map (removed_at w pattern row) idx) -> x ∈ w.
Proof.
  induction idx as [|i idx IH]; simpl; [by intros ?%elem_of_nil|].
  intros [H|H]%elem_of_app; [|by apply IH].
  unfold removed_at in H.
  destruct (w !! i) as [a|] eqn:Ea; [|by apply elem_of_nil in H].
  destruct (pattern !! i) as [p|]; [|by apply elem_of_nil in H].
  destruct (eqc a p); [by apply elem_of_nil in H|].
  assert (x = a) as ->.
  { destruct (i =? row); repeat (apply elem_of_cons in H as [H|H]; [done|]);
      by apply elem_of_nil in H. }
  by eapply list_elem_of_lookup_2.
Qed.

(** The letters that [get_letters] removes are those that [check_pattern]
    counted. *)
Lemma removed_counts (w pattern : word) (row : nat) (c x : ascii) :
  length w = 5 -> length pattern = 5 -> row < 5 ->
  dash ∉ w -> x <> dash ->
  dashed w pattern !! row = Some c ->
  count x (concat (map (removed_at w pattern row) (seq 0 5)))
  + (if decide (c = x) then 1 else 0)
  = 2 * count x (dashed w pattern).
Proof.
  intros (a0 & a1 & a2 & a3 & a4 & ->)%length5 (p0 & p1 & p2 & p3 & p4 & ->)%length5.
  intros Hrow Hd Hx Hc.
  rewrite !not_elem_of_cons in Hd. destruct Hd as (H0 & H1 & H2 & H3 & H4 & _).
  pose proof (removed_count a0 p0 x 0 row ltac:(done) Hx) as E0.
  pose proof (removed_count a1 p1 x 1 row ltac:(done) Hx) as E1.
  pose proof (removed_count a2 p2 x 2 row ltac:(done) Hx) as E2.
  pose proof (removed_count a3 p3 x 3 row ltac:(done) Hx) as E3.
  pose proof (removed_count a4 p4 x 4 row ltac:(done) Hx) as E4.
  unfold dashed in *. cbn [zip_with] in *.
  cbn [seq map concat]. unfold removed_at. cbn [lookup list_lookup].
  rewrite !count_app, !count_cons.
  change (count x []) with 0.
  destruct row as [|[|[|[|[|]]]]]; try lia;
    cbn [lookup list_lookup] in Hc; injection Hc as <-;
    cbn [Nat.eqb] in *; lia.
Qed.

(** After [check_pattern] has accepted a word that the search found,
    [get_letters] finds every letter it removes. *)
Lemma get_letters_total (w pool pattern : word) (row : nat) :
  length w = 5 -> length pattern = 5 -> row < 5 ->
  Forall (fun c => is_alpha c = true) w ->
  gaddag_check_pattern w pattern = true ->
  w ⊆+ pool ++ filter (fun c => is_alpha c = true) pattern ->
  Solver.check_pattern row w pool pattern = Ok true ->
  exists l, Solver.get_letters w pool row pattern = Ok l.
Proof.
  intros Hw Hp Hrow Hal Hchk Hsub Hcp.
  assert (dash ∉ w) as Hd.
  { intros Hin. apply (proj1 (Forall_forall _ _) Hal) in Hin.
    by rewrite is_alpha_dash in Hin. }
  unfold Solver.get_letters. rewrite get_letters_fold.
  2:{ apply Forall_forall. intros i Hi%elem_of_seq. lia. }
  apply remove_all_ok, count_submseteq. intros x.
  set (R := concat (map (removed_at w pattern row) (seq 0 5))).
  destruct (decide (x ∈ R)) as [HxR|HxR]; [|rewrite count_not_in by done; lia].
  assert (x ∈ w) as Hxw by (by eapply removed_elem).
  assert (x <> dash) as Hxd by congruence.
  assert (is_alpha x = true) as Hxa by exact (proj1 (Forall_forall _ _) Hal x Hxw).
  destruct (check_pattern_spec5 row w pool pattern Hw Hp Hrow)
    as (b & c & r1 & Hb & Hc & Hr1 & Hall).
  rewrite Hcp in Hb. injection Hb as <-. specialize (Hall eq_refl).
  pose proof (removed_counts w pattern row c x Hw Hp Hrow Hd Hxd Hc) as HR.
  fold R in HR.
  pose proof (count_remove_first x c _ _ Hr1) as Hcnt.
  set (w1 := dashed w pattern) in *.
  assert (count x (r1 ++ w1) = count x R) as Hw3.
  { rewrite count_app. lia. }
  destruct (decide (x ∈ r1)) as [Hin|Hnin].
  - apply list_elem_of_lookup in Hin as [i Hi].
    pose proof (lookup_lt_Some _ _ _ Hi) as Hlt.
    pose proof (remove_first_length _ _ _ Hr1) as Hlen.
    assert (length w1 = 5) as Hw1 by (unfold w1; rewrite dashed_length; lia).
    destruct (Hall i) as (y & Hy & Hle); [lia|].
    rewrite lookup_app_l in Hy by done. rewrite Hi in Hy. injection Hy as <-.
    rewrite <- Hw3. by apply Hle.
  - rewrite (count_not_in x r1) in Hcnt by done.
    assert (0 < count x R) as Hpos.
    { destruct (count x R) eqn:E; [|lia]. by apply count_zero_not_in in E. }
    assert (c = x) as ->.
    { destruct (decide (c = x)); [done|]. lia. }
    rewrite decide_True in HR, Hcnt by done.
    (* the letter at [row], which the pool must hold *)
    destruct (lookup_lt_is_Some_2 w row) as [a Ha]; [lia|].
    destruct (lookup_lt_is_Some_2 pattern row) as [p Hpp]; [lia|].
    unfold w1 in Hc. rewrite (dashed_lookup _ _ _ _ _ Ha Hpp) in Hc.
    injection Hc as Hc. unfold eqc in Hc. case_bool_decide as Hap; [done|]. subst a.
    apply check_pattern_spec in Hchk as [Hlen Hm].
    destruct (count_match_le x w Hxd pattern Hlen Hm) as [_ Hlt].
    specialize (Hlt row p Ha Hpp ltac:(congruence)).
    pose proof (submseteq_count x _ _ Hsub) as Hs. rewrite count_app in Hs.
    pose proof (count_filter_le x (fun c => is_alpha c = true) pattern).
    lia.
Qed.

(** ** The solver: grids of five by five *)

Lemma five_row (g : grid) (r : nat) :
  five_by_five g -> r < 5 -> exists row, g !! r = Some row /\ length row = 5.
Proof.
  intros [Hl Hr] Hlt. destruct (lookup_lt_is_Some_2 g r) as [row Hrow]; [lia|].
  exists row. split; [done|].
  exact (proj1 (Forall_forall _ _) Hr row (list_elem_of_lookup_2 _ _ _ Hrow)).
Qed.

Lemma five_cell (g : grid) (r c : nat) :
  five_by_five g -> r < 5 -> c < 5 -> exists x, at_ g r c = Some x.
Proof.
  intros Hg Hr Hc. destruct (five_row g r Hg Hr) as (row & Hrow & Hlen).
  unfold at_. rewrite Hrow. apply lookup_lt_is_Some_2. lia.
Qed.

Lemma at_row (g : grid) (r c : nat) (row : list ascii) :
  g !! r = Some row -> at_ g r c = row !! c.
Proof. intros H. unfold at_. by rewrite H. Qed.

(** A row of a grid is the word that its five cells spell. *)
Lemma row_eq (g : grid) (r : nat) (row w : word) :
  g !! r = Some row -> length row = 5 -> length w = 5 ->
  (forall i, i < 5 -> at_ g r i = w !! i) -> row = w.
Proof.
  intros Hrow Hl Hw H. apply list_eq. intros i.
  destruct (decide (i < 5)) as [Hi|Hi].
  - rewrite <- (H i Hi). by rewrite (at_row _ _ _ _ Hrow).
  - rewrite !lookup_ge_None_2; [done|lia|lia].
Qed.

Lemma set_cell_total (sol : grid) (r c : nat) (v : ascii) :
  five_by_five sol -> r < 5 -> c < 5 ->
  exists sol', set_cell sol r c v = Ok sol' /\ five_by_five sol'.
Proof.
  intros Hg Hr Hc. destruct (five_row sol r Hg Hr) as (row & Hrow & Hlen).
  unfold set_cell, index, assign. rewrite Hrow. cbn [mbind outcome_bind].
  rewrite decide_True by lia. cbn [mbind outcome_bind mret outcome_ret].
  eexists. split; [done|]. destruct Hg as [Hl Hrows]. split.
  - by rewrite length_insert.
  - apply Forall_insert; [done|]. by rewrite length_insert.
Qed.

(** The loop of [traverse] that puts the cells from [row] on back to what
    [init_grid] has. *)
Lemma reset_total (row : nat) (init_ : grid) (ps : list (nat * nat)) :
  five_by_five init_ ->
  Forall (fun p => fst p < 5 /\ snd p < 5) ps ->
  forall sol, five_by_five sol ->
    exists sol1,
      fold_outcome (Solver.reset_cell row init_) ps sol = Ok sol1
      /\ five_by_five sol1
      /\ forall r c,
           at_ sol1 r c
           = if bool_decide ((r, c) ∈ ps) && ((row <=? r) && (row <=? c))
             then at_ init_ r c else at_ sol r c.
Proof.
  intros Hinit. induction ps as [|[rw col] ps IH]; intros Hps sol Hsol.
  - exists sol. split_and!; [done|done|]. intros r c.
    rewrite bool_decide_eq_false_2; [done|]. by intros ?%elem_of_nil.
  - apply Forall_cons in Hps as [[Hrw Hcol] Hps]. simpl in Hrw, Hcol.
    cbn [fold_outcome].
    change (Solver.reset_cell row init_ sol (rw, col))
      with (if (row <=? rw) && (row <=? col)
            then v ← cell init_ rw col; set_cell sol rw col v else Ok sol).
    destruct ((row <=? rw) && (row <=? col)) eqn:Econd.
    + destruct (five_cell init_ rw col Hinit Hrw Hcol) as [x Hx].
      assert (cell init_ rw col = Ok x) as ->.
      { unfold cell, index. unfold at_ in Hx.
        destruct (init_ !! rw) as [rowi|]; [|done]. cbn [mbind outcome_bind].
        by rewrite Hx. }
      cbn [mbind outcome_bind].
      destruct (set_cell_total sol rw col x Hsol Hrw Hcol) as (sol' & Hset & Hsol').
      rewrite Hset. cbn [mbind outcome_bind].
      destruct (IH Hps sol' Hsol') as (sol1 & Hfold & Hsol1 & Hat).
      exists sol1. split_and!; [done|done|]. intros r c. rewrite Hat.
      destruct (set_cell_spec _ _ _ _ _ Hset) as [Hnew Hold].
      destruct (decide ((r, c) = (rw, col))) as [[= -> ->]|Hne].
      * rewrite (bool_decide_eq_true_2 ((rw, col) ∈ (rw, col) :: ps))
          by apply list_elem_of_here.
        rewrite Econd. simpl. rewrite Hnew, <- Hx.
        by destruct (bool_decide ((rw, col) ∈ ps)).
      * rewrite (Hold r c Hne).
        assert (bool_decide ((r, c) ∈ (rw, col) :: ps) = bool_decide ((r, c) ∈ ps))
          as ->; [|done].
        apply bool_decide_ext. rewrite elem_of_cons. tauto.
    + cbn [mbind outcome_bind].
      destruct (IH Hps sol Hsol) as (sol1 & Hfold & Hsol1 & Hat).
      exists sol1. split_and!; [done|done|]. intros r c. rewrite Hat.
      destruct (decide ((r, c) = (rw, col))) as [[= -> ->]|Hne].
      * rewrite Econd, !andb_false_r. done.
      * assert (bool_decide ((r, c) ∈ (rw, col) :: ps) = bool_decide ((r, c) ∈ ps))
          as ->; [|done].
        apply bool_decide_ext. rewrite elem_of_cons. tauto.
Qed.

Lemma reset_positions (row : nat) (init_ sol : grid) :
  five_by_five init_ -> five_by_five sol ->
  exists sol1,
    fold_outcome (Solver.reset_cell row init_) positions sol = Ok sol1
    /\ five_by_five sol1
    /\ (forall r c, r < 5 -> c < 5 -> row <= r -> row <= c ->
          at_ sol1 r c = at_ init_ r c)
    /\ (forall r c, r < row \/ c < row -> at_ sol1 r c = at_ sol r c).
Proof.
  intros Hinit Hsol.
  destruct (reset_total row init_ positions Hinit positions_bound sol Hsol)
    as (sol1 & Hfold & Hsol1 & Hat).
  exists sol1. split_and!; [done|done| |].
  - intros r c Hr Hc Hrr Hrc. rewrite Hat.
    rewrite bool_decide_eq_true_2 by by apply elem_of_positions.
    by rewrite (proj2 (Nat.leb_le _ _) Hrr), (proj2 (Nat.leb_le _ _) Hrc).
  - intros r c Hlt. rewrite Hat.
    destruct Hlt as [Hlt|Hlt]; apply Nat.leb_gt in Hlt; rewrite Hlt;
      by rewrite ?andb_false_r.
Qed.

(** [set_word] on a grid of five by five, for a word of five letters. *)
Lemma set_word_total (w : word) (row : nat) (sol : grid) :
  five_by_five sol -> length w = 5 -> row < 5 ->
  exists sol', Solver.set_word w row sol = Ok sol' /\ five_by_five sol'.
Proof.
  intros Hsol Hw Hrow. unfold Solver.set_word.
  assert (Forall (fun i => i < 5) (seq 0 5)) as Hidx by (by apply seq_bound).
  revert sol Hsol. induction (seq 0 5) as [|i idx IH]; intros sol Hsol.
  - by exists sol.
  - apply Forall_cons in Hidx as [Hi Hidx]. cbn [fold_outcome].
    destruct (lookup_lt_is_Some_2 w i) as [x Hx]; [lia|].
    assert (index w i = Ok x) as Hix by (unfold index; by rewrite Hx).
    destruct (set_cell_total sol row i x Hsol Hrow Hi) as (s1 & H1 & Hs1).
    destruct (set_cell_total s1 i row x Hs1 Hi Hrow) as (s2 & H2 & Hs2).
    cbn beta. rewrite Hix. cbn [mbind outcome_bind]. rewrite H1.
    cbn [mbind outcome_bind]. rewrite H2. cbn [mbind outcome_bind]. by apply IH.
Qed.

Lemma transpose_at (g : grid) (r c : nat) :
  five_by_five g -> r < 5 -> c < 5 ->
  at_ (Solver.transpose g) r c = at_ g c r.
Proof.
  intros [(r0 & r1 & r2 & r3 & r4 & ->)%length5 Hrows] Hr Hc.
  repeat (apply Forall_cons in Hrows as [?%length5 Hrows]).
  repeat match goal with H : exists _, _ |- _ => destruct H as [? H] end. subst.
  destruct r as [|[|[|[|[|]]]]]; try lia;
    destruct c as [|[|[|[|[|]]]]]; try lia; reflexivity.
Qed.

Lemma transpose_five (g : grid) :
  five_by_five g -> five_by_five (Solver.transpose g).
Proof.
  intros [(r0 & r1 & r2 & r3 & r4 & ->)%length5 Hrows].
  repeat (apply Forall_cons in Hrows as [?%length5 Hrows]).
  repeat match goal with H : exists _, _ |- _ => destruct H as [? H] end. subst.
  split; [done|]. repeat constructor.
Qed.

(** A full symmetric grid passes [check_muddle]. *)
Lemma check_muddle_complete (g : grid) :
  five_by_five g ->
  (forall r c, r < 5 -> c < 5 ->
     exists x, at_ g r c = Some x /\ at_ g c r = Some x /\ x <> dash) ->
  Solver.check_muddle g = true.
Proof.
  intros Hg Hsym. unfold Solver.check_muddle.
  assert (existsb (mem dash) g = false) as ->.
  { apply not_true_is_false. intros [row [Hin Hd]]%existsb_exists.
    apply list_elem_of_In, list_elem_of_lookup in Hin as [r Hr].
    apply bool_decide_eq_true, list_elem_of_lookup in Hd as [c Hc].
    pose proof (lookup_lt_Some _ _ _ Hr) as Hlr. destruct Hg as [Hl Hrows].
    pose proof (proj1 (Forall_forall _ _) Hrows row (list_elem_of_lookup_2 _ _ _ Hr))
      as Hrl.
    simpl in Hrl.
    pose proof (lookup_lt_Some _ _ _ Hc) as Hlc.
    destruct (Hsym r c) as (x & Hx & _ & Hne); [lia|lia|].
    rewrite (at_row _ _ _ _ Hr), Hc in Hx. congruence. }
  pose proof (transpose_five g Hg) as Ht.
  apply andb_true_iff. split.
  - apply bool_decide_eq_true. destruct Hg as [-> _]. by destruct Ht as [-> _].
  - apply forallb_forall. intros row Hin.
    apply list_elem_of_In, list_elem_of_lookup in Hin as [r Hr].
    apply bool_decide_eq_true.
    pose proof (lookup_lt_Some _ _ _ Hr) as Hlr.
    assert (r < 5) as Hr5 by (destruct Hg as [Hl _]; lia).
    destruct (five_row _ r Ht Hr5) as (trow & Htrow & Hlen).
    destruct (five_row _ r Hg Hr5) as (row' & Hrow' & Hlen').
    rewrite Hr in Hrow'. injection Hrow' as <-.
    assert (trow = row) as <-; [|by eapply list_elem_of_lookup_2].
    eapply (row_eq _ r); [done|done|done|].
    intros i Hi. rewrite (transpose_at g r i Hg Hr5 Hi).
    destruct (Hsym r i Hr5 Hi) as (x & Hx & Hx' & _).
    rewrite Hx'. by rewrite <- Hx, (at_row _ _ _ _ Hr).
Qed.

Lemma filter_outcome_total {A} (test : A -> outcome bool) (l : list A) :
  (forall a, a ∈ l -> exists b, test a = Ok b) ->
  exists l', filter_outcome test l = Ok l'
             /\ forall a, a ∈ l' -> a ∈ l /\ test a = Ok true.
Proof.
  induction l as [|a l IH]; intros H.
  - exists []. split; [done|]. by intros a ?%elem_of_nil.
  - destruct (H a (list_elem_of_here _ _)) as [b Hb].
    destruct IH as (l' & Hl' & Hin).
    { intros a' Ha'. apply H. by apply list_elem_of_further. }
    cbn [filter_outcome]. rewrite Hb, Hl'. cbn [mbind outcome_bind mret outcome_ret].
    eexists. split; [done|]. intros a' Ha'. destruct b.
    + apply elem_of_cons in Ha' as [->|Ha'].
      * split; [apply list_elem_of_here|done].
      * destruct (Hin a' Ha'). split; [by apply list_elem_of_further|done].
    + destruct (Hin a' Ha'). split; [by apply list_elem_of_further|done].
Qed.

Lemma fold_M_total {S A X} (body : X -> A -> M S X) (I : X -> Prop) (J : S -> Prop)
    (l : list A) :
  (forall x a s, a ∈ l -> I x -> J s ->
     exists s' x', body x a s = (s', Ok x') /\ I x' /\ J s') ->
  forall x s, I x -> J s ->
    exists s' x', Solver.fold_M body l x s = (s', Ok x') /\ I x' /\ J s'.
Proof.
  induction l as [|a l IH]; intros Hbody x s Hx Hs.
  - by exists s, x.
  - destruct (Hbody x a s (list_elem_of_here _ _) Hx Hs) as (s1 & x1 & Hb & Hx1 & Hs1).
    cbn [Solver.fold_M]. rewrite M_bind_eq, Hb.
    apply IH; [|done|done].
    intros x' a' s' Ha'. apply Hbody. by apply list_elem_of_further.
Qed.


(** ** The solver: [traverse] *)

Lemma partial_frame (W : list word) (init_ : grid) (k : nat) (sol sol' : grid) :
  partial W init_ k sol -> five_by_five sol' ->
  (forall r c, r < k \/ c < k -> at_ sol' r c = at_ sol r c) ->
  partial W init_ k sol'.
Proof.
  intros [Hs Hf Hw Hi] Hs' Hfr. constructor; [done| | |].
  - intros r c Hr Hc Hlt. rewrite (Hfr r c Hlt), (Hfr c r ltac:(tauto)). by apply Hf.
  - intros r Hr Hr5. destruct (Hw r Hr Hr5) as (w & Hrow & Hin).
    destruct (five_row sol' r Hs' Hr5) as (row' & Hrow' & Hlen').
    destruct (five_row sol r Hs Hr5) as (w' & Hw' & Hlen).
    rewrite Hrow in Hw'. injection Hw' as <-.
    exists w. split; [|done]. rewrite Hrow'. f_equal.
    eapply (row_eq _ r); [done|done|done|].
    intros i Hi5. rewrite Hfr by tauto. by apply at_row.
  - intros r c x Hr Hrc Hc Hx Hne. rewrite Hfr by tauto. by apply Hi.
Qed.

Lemma partial_zero (W : list word) (init_ sol : grid) :
  five_by_five sol -> partial W init_ 0 sol.
Proof. intros H. constructor; [done|intros; lia..]. Qed.

(** [set_word] for a word that agrees with the row it goes to. *)
Lemma partial_step (W : list word) (init_ : grid) (row : nat) (w : word)
    (sol0 sol' : grid) :
  partial W init_ row sol0 -> row < 5 ->
  w ∈ W -> length w = 5 -> dash ∉ w ->
  (forall i x, i < row -> at_ sol0 row i = Some x -> w !! i = Some x) ->
  (forall c x, row <= c -> c < 5 -> at_ init_ row c = Some x -> x <> dash ->
     w !! c = Some x) ->
  Solver.set_word w row sol0 = Ok sol' -> five_by_five sol' ->
  partial W init_ (S row) sol'
  /\ (forall r c, r < row \/ c < row -> at_ sol' r c = at_ sol0 r c).
Proof.
  intros HP Hrow Hin Hlen Hd Hleft Hright Hset Hs'.
  destruct (set_word_spec _ _ _ _ Hset) as [Hold Hnew].
  pose proof HP as [Hs Hf Hw Hi].
  assert (forall r c, r < 5 -> c < 5 -> r < row \/ c < row ->
            at_ sol' r c = at_ sol0 r c) as Hframe5.
  { intros r c Hr5 Hc5 Hlt.
    destruct (decide (r = row)) as [->|Hr]; [|destruct (decide (c = row)) as [->|Hc]].
    - destruct Hlt as [?|Hlt]; [lia|].
      destruct (Hnew c Hc5) as (x & Hx & Hrc & _).
      destruct (five_cell sol0 row c Hs Hrow Hc5) as [y Hy].
      rewrite (Hleft c y Hlt Hy) in Hx. injection Hx as <-. by rewrite Hrc, Hy.
    - destruct Hlt as [Hlt|?]; [|lia].
      destruct (Hnew r Hr5) as (x & Hx & _ & Hcr).
      destruct (Hf r row Hr5 Hrow ltac:(tauto)) as (y & Hy & Hy' & _).
      rewrite (Hleft r y Hlt Hy') in Hx. injection Hx as <-. by rewrite Hcr, Hy.
    - by apply Hold. }
  assert (forall r c, r < row \/ c < row -> at_ sol' r c = at_ sol0 r c) as Hframe.
  { intros r c Hlt.
    destruct (decide (r < 5)) as [Hr5|Hr5]; [destruct (decide (c < 5)) as [Hc5|Hc5]|].
    - by apply Hframe5.
    - apply Hold; lia.
    - apply Hold; lia. }
  split; [|done]. constructor; [done| | |].
  - intros r c Hr5 Hc5 Hlt.
    destruct (decide (r = row)) as [->|Hr]; [|destruct (decide (c = row)) as [->|Hc]].
    + destruct (Hnew c Hc5) as (x & Hx & Hrc & Hcr). exists x.
      split_and!; [done|done|]. intros ->. apply Hd. by eapply list_elem_of_lookup_2.
    + destruct (Hnew r Hr5) as (x & Hx & Hrc & Hcr). exists x.
      split_and!; [done|done|]. intros ->. apply Hd. by eapply list_elem_of_lookup_2.
    + assert (r < row \/ c < row) as Hlt' by lia.
      rewrite (Hframe r c Hlt'), (Hframe c r ltac:(tauto)). by apply Hf.
  - intros r Hr Hr5. destruct (five_row sol' r Hs' Hr5) as (row' & Hrow' & Hlen').
    destruct (decide (r = row)) as [->|Hne].
    + exists w. split; [|done]. rewrite Hrow'. f_equal.
      eapply (row_eq _ row); [done|done|done|].
      intros i Hi5. destruct (Hnew i Hi5) as (x & Hx & Hrc & _). by rewrite Hrc.
    + destruct (Hw r ltac:(lia) Hr5) as (w' & Hw' & Hin').
      destruct (five_row sol0 r Hs Hr5) as (w'' & Hw'' & Hlen'').
      rewrite Hw' in Hw''. injection Hw'' as <-.
      exists w'. split; [|done]. rewrite Hrow'. f_equal.
      eapply (row_eq _ r); [done|done|done|].
      intros i Hi5. rewrite Hframe by lia. by apply at_row.
  - intros r c x Hr Hrc Hc Hx Hne.
    destruct (decide (r = row)) as [->|Hne'].
    + destruct (Hnew c Hc) as (y & Hy & Hcell & _).
      rewrite (Hright c x Hrc Hc Hx Hne) in Hy. injection Hy as <-. done.
    + rewrite Hframe by lia. apply Hi; [lia|done..].
Qed.

Lemma traverse_spec (g : GADDAG) (W : list word) (singles_ : list ascii)
    (init_ : grid) (N : nat) :
  (forall letters pattern fuel, N <= fuel ->
     exists ys,
       iterate fuel (snd (find_lett_patt g letters pattern)) = Ok ys
       /\ forall v, v ∈ ys ->
            v ∈ W /\ gaddag_check_pattern v pattern = true
            /\ v ⊆+ fst (find_lett_patt g letters pattern)) ->
  (forall w, w ∈ W -> Forall (fun c => is_alpha c = true) w) ->
  five_by_five init_ ->
  forall (fuel row : nat) (pool : list ascii) (sol : grid) (sols : list entry),
    row <= 5 -> N + 6 <= fuel + row ->
    partial W init_ row sol -> Forall (solved W init_) sols ->
    exists sols' sol',
      Solver.traverse g singles_ init_ fuel row pool sol sols = (sols', Ok sol')
      /\ Forall (solved W init_) sols'
      /\ five_by_five sol'
      /\ (forall r c, r < row \/ c < row -> at_ sol' r c = at_ sol r c).
Proof.
  intros Hfind Halpha Hinit.
  induction fuel as [|fuel IH]; intros row pool sol sols Hrow Hfuel HP Hsols; [lia|].
  rewrite traverse_S.
  destruct (decide (row = 5)) as [->|Hne].
  - assert (Solver.check_muddle sol = true) as ->.
    { apply check_muddle_complete; [apply HP|].
      intros r c Hr Hc. apply (part_filled _ _ _ _ HP); [done|done|lia]. }
    simpl. exists (sols ++ [Grid sol]), sol. split_and!; [done| |apply HP|done].
    apply Forall_app. split; [done|]. by apply Forall_singleton.
  - assert (row < 5) as Hrow5 by lia.
    rewrite (proj2 (Nat.ltb_ge 4 row)) by lia. cbn [andb].
    destruct (reset_positions row init_ sol Hinit (part_shape _ _ _ _ HP))
      as (sol1 & Hreset & Hs1 & Hnew1 & Hold1).
    rewrite Hreset, pure_bind.
    destruct (five_row sol1 row Hs1 Hrow5) as (pat & Hpat & Hpatlen).
    assert (Solver.get_pattern row sol1 = Ok pat) as ->.
    { unfold Solver.get_pattern, index. by rewrite Hpat. }
    rewrite pure_bind.
    destruct (Hfind pool pat fuel ltac:(lia)) as (ys & -> & Hys).
    rewrite pure_bind. cbn zeta.
    set (possibles := filter (fun w => Solver.check_singles singles_ row w = true) ys).
    assert (forall w, w ∈ possibles -> w ∈ ys) as Hposs.
    { intros w Hw. by apply list_elem_of_filter in Hw as [_ ?]. }
    assert (forall w, w ∈ ys -> length w = 5) as Hlen5.
    { intros w Hw. destruct (Hys w Hw) as (_ & Hchk & _).
      apply check_pattern_length in Hchk. lia. }
    destruct (filter_outcome_total
                (fun w => Solver.check_pattern row w pool pat) possibles)
      as (possibles' & -> & Hposs').
    { intros w Hw.
      destruct (check_pattern_spec5 row w pool pat) as (b & _ & _ & Hb & _);
        [by apply Hlen5, Hposs|done|done|]. by exists b. }
    rewrite pure_bind.
    (* the loop over the words *)
    destruct (fold_M_total
                (fun sol w =>
                   let sol0 := if row =? 0 then init_ else sol in
                   sol1 ← Solver.pure (Solver.set_word w row sol0);
                   new_letters ← Solver.pure (Solver.get_letters w pool row pat);
                   Solver.traverse g singles_ init_ fuel (S row) new_letters sol1)
                (fun acc => five_by_five acc
                            /\ forall r c, r < row \/ c < row ->
                                  at_ acc r c = at_ sol1 r c)
                (Forall (solved W init_)) possibles')
      with (x := sol1) (s := sols) as (sols' & sol' & Hfold & [Hs' Hfr'] & Hsols');
      [|done|done|].
    + intros acc w sols0 Hw [Hacc Hfr] Hsols0.
      destruct (Hposs' w Hw) as [Hwp Hcp].
      destruct (Hys w (Hposs w Hwp)) as (HwW & Hchk & Hsub).
      pose proof (Hlen5 w (Hposs w Hwp)) as Hwlen.
      pose proof (Halpha w HwW) as Hwal.
      assert (dash ∉ w) as Hwd.
      { intros Hin. apply (proj1 (Forall_forall _ _) Hwal) in Hin.
        by rewrite is_alpha_dash in Hin. }
      cbn zeta.
      set (sol0 := if row =? 0 then init_ else acc).
      assert (partial W init_ row sol0
              /\ forall r c, r < row \/ c < row -> at_ sol0 r c = at_ sol1 r c)
        as [HP0 Hfr0].
      { unfold sol0. destruct (row =? 0) eqn:E0.
        - apply Nat.eqb_eq in E0 as ->. split; [by apply partial_zero|].
          intros r c Hlt. lia.
        - split; [|done]. apply (partial_frame W init_ row sol); [done|done|].
          intros r c Hlt. rewrite Hfr by done. by apply Hold1. }
      destruct (set_word_total w row sol0 (part_shape _ _ _ _ HP0) Hwlen Hrow5)
        as (sol2 & Hset & Hs2).
      rewrite Hset, pure_bind.
      destruct (get_letters_total w pool pat row Hwlen Hpatlen Hrow5 Hwal Hchk)
        as [new_letters Hget]; [|done|].
      { by rewrite <- append_alpha_spec. }
      rewrite Hget, pure_bind.
      apply check_pattern_spec in Hchk as [_ Hmatch].
      destruct (partial_step W init_ row w sol0 sol2 HP0 Hrow5 HwW Hwlen Hwd)
        as [HP2 Hfr2]; [| |done|done|].
      { intros i x Hi Hx. rewrite Hfr0 in Hx by lia.
        rewrite (at_row _ _ _ _ Hpat) in Hx.
        destruct (lookup_lt_is_Some_2 w i) as [a Ha]; [lia|].
        destruct (Hmatch i a x Ha Hx) as [->| ->]; [|done]. exfalso.
        destruct (part_filled _ _ _ _ HP0 row i Hrow5 ltac:(lia) ltac:(lia))
          as (y & Hy & _ & Hyd).
        rewrite Hfr0, (at_row _ _ _ _ Hpat), Hx in Hy by lia. congruence. }
      { intros c x Hc Hc5 Hx Hxd.
        rewrite <- (Hnew1 row c Hrow5 Hc5 ltac:(lia) Hc), (at_row _ _ _ _ Hpat) in Hx.
        destruct (lookup_lt_is_Some_2 w c) as [a Ha]; [lia|].
        destruct (Hmatch c a x Ha Hx) as [->| ->]; done. }
      destruct (IH (S row) new_letters sol2 sols0 ltac:(lia) ltac:(lia) HP2 Hsols0)
        as (sols1 & sol3 & Htr & Hsols1 & Hs3 & Hfr3).
      exists sols1, sol3. split_and!; [done|done| |done].
      intros r c Hlt. rewrite Hfr3 by lia. rewrite Hfr2 by done. by apply Hfr0.
    + exists sols', sol'. split_and!; [done|done|done|].
      intros r c Hlt. rewrite Hfr' by done. by apply Hold1.
Qed.

(** ** The solver: [solve] *)

Lemma write_lengths (g : list nat) (r c : nat) (v : ascii) (s s' : dstate)
    (o : outcome unit) :
  Solver.write g r c v s = (s', o) -> map length (fst s') = map length (fst s).
Proof.
  unfold Solver.write, index, assign.
  destruct (g !! r) as [a|]; cbn [mbind outcome_bind]; [|by intros [= <- _]].
  destruct (fst s !! a) as [row|] eqn:Erow; cbn [mbind outcome_bind];
    [|by intros [= <- _]].
  case_decide; cbn [mbind outcome_bind mret outcome_ret]; [|by intros [= <- _]].
  intros [= <- _]. cbn [fst].
  change (map length) with (fmap (M := list) (@length ascii)).
  rewrite list_fmap_insert, length_insert. apply list_insert_id.
  by rewrite list_lookup_fmap, Erow.
Qed.

Lemma bind_lengths {A B} (m : M dstate A) (k : A -> M dstate B) :
  (forall s s' o, m s = (s', o) -> map length (fst s') = map length (fst s)) ->
  (forall a s s' o, k a s = (s', o) -> map length (fst s') = map length (fst s)) ->
  forall s s' o, (m ≫= k) s = (s', o) ->
    map length (fst s') = map length (fst s).
Proof.
  intros Hm Hk s s' o. rewrite M_bind_eq.
  destruct (m s) as [s1 [a|e|]] eqn:E; pose proof (Hm _ _ _ E) as H1.
  - intros H2%Hk. congruence.
  - by intros [= <- _].
  - by intros [= <- _].
Qed.

Lemma read_lengths (g : list nat) (r c : nat) (s s' : dstate) (o : outcome ascii) :
  Solver.read g r c s = (s', o) -> map length (fst s') = map length (fst s).
Proof. rewrite read_spec. by intros [= <- _]. Qed.

Lemma ret_lengths {A} (a : A) (s s' : dstate) (o : outcome A) :
  mret (M := M dstate) a s = (s', o) -> map length (fst s') = map length (fst s).
Proof. by intros [= <- _]. Qed.

Lemma mirror_lengths (g : list nat) (r c : nat) (s s' : dstate) (o : outcome unit) :
  Solver.mirror g r c s = (s', o) -> map length (fst s') = map length (fst s).
Proof.
  unfold Solver.mirror. apply bind_lengths; [apply read_lengths|]. intros v.
  apply bind_lengths; [apply write_lengths|]. intros _.
  apply bind_lengths; [apply read_lengths|]. intros z s1 s2 o2.
  unfold Solver.remove_letter. destruct (remove_first z (snd s1));
    by intros [= <- _].
Qed.

Lemma diagonal_step_lengths (g : list nat) (rc : nat * nat) (s s' : dstate)
    (o : outcome unit) :
  Solver.diagonal_step g rc s = (s', o) ->
  map length (fst s') = map length (fst s).
Proof.
  destruct rc as [row col]. unfold Solver.diagonal_step.
  apply bind_lengths; [apply read_lengths|]. intros x.
  apply bind_lengths.
  { destruct (is_alpha x); [|apply ret_lengths].
    apply bind_lengths; [apply read_lengths|]. intros y. apply ret_lengths. }
  intros [|]; [apply mirror_lengths|].
  apply bind_lengths; [apply read_lengths|]. intros y.
  apply bind_lengths.
  { destruct (is_alpha y); [|apply ret_lengths].
    apply bind_lengths; [apply read_lengths|]. intros y'. apply ret_lengths. }
  intros [|]; [apply mirror_lengths|apply ret_lengths].
Qed.

Lemma for_lengths (g : list nat) (ps : list (nat * nat)) (s s' : dstate)
    (o : outcome unit) :
  for_ ps (Solver.diagonal_step g) s = (s', o) ->
  map length (fst s') = map length (fst s).
Proof.
  revert s. induction ps as [|p ps IH]; intros s; [by intros [= <- _]|].
  rewrite for_cons.
  destruct (Solver.diagonal_step g p s) as [s1 [[]|e|]] eqn:E;
    pose proof (diagonal_step_lengths _ _ _ _ _ E) as H1.
  - intros H2%IH. congruence.
  - by intros [= <- _].
  - by intros [= <- _].
Qed.

Lemma deref_five (st st' : list (list ascii)) (g : list nat) :
  map length st' = map length st ->
  five_by_five (Solver.deref st g) -> five_by_five (Solver.deref st' g).
Proof.
  intros Hl [Hlen Hrows]. unfold Solver.deref in *. split.
  - by rewrite length_map in *.
  - apply Forall_forall. intros row Hin.
    apply list_elem_of_fmap in Hin as (a & -> & Ha).
    assert (length (default [] (st' !! a)) = length (default [] (st !! a))) as ->.
    { assert (map length st' !! a = map length st !! a) as E by (by rewrite Hl).
      change (map length) with (fmap (M := list) (@length ascii)) in E.
      rewrite !list_lookup_fmap in E.
      destruct (st' !! a), (st !! a); simpl in *; congruence. }
    apply (proj1 (Forall_forall _ _) Hrows). apply list_elem_of_fmap. eauto.
Qed.

(** [check_diagonal] keeps the cells that are filled and the lengths of
    the rows. *)
Lemma check_diagonal_keeps (g : list nat) (s : dstate) :
  NoDup g -> shape5 (fst s) g ->
  exists s',
    Solver.check_diagonal g s = (s', Ok g)
    /\ map length (fst s') = map length (fst s)
    /\ forall r c x, cellv (fst s) g r c = Some x -> x <> dash ->
         cellv (fst s') g r c = Some x.
Proof.
  intros Hnd Hsh.
  destruct (diagonal_loop_spec g positions s Hnd Hsh positions_bound)
    as (s' & o & Hfor & Hev & Ho & _).
  pose proof (for_lengths _ _ _ _ _ Hfor) as Hlen.
  assert (forall r c x, cellv (fst s) g r c = Some x -> x <> dash ->
            cellv (fst s') g r c = Some x) as Hcells.
  { intros r c x Hx Hne. destruct Hev as (Hc & _).
    destruct (Hc r c) as [->|[Hd _]]; [done|]. congruence. }
  unfold Solver.check_diagonal. rewrite Hfor.
  destruct Ho as [->|[-> _]]; eexists; (split; [done|]); split; done.
Qed.

Lemma lower_five (p : list word) : five_by_five p -> five_by_five (map lower_word p).
Proof.
  intros [Hl Hr]. split; [by rewrite length_map|].
  apply Forall_forall. intros row Hin.
  apply list_elem_of_fmap in Hin as (w & -> & Hw). unfold lower_word.
  rewrite length_map. exact (proj1 (Forall_forall _ _) Hr w Hw).
Qed.

(** [solve] on a lexicon that [add] built, for a pattern of five by five:
    the call returns, and every grid it returns is a solution for the
    lexicon and for the grid [init_] that [check_diagonal] leaves, which
    has the filled cells of the pattern. *)
Lemma solve_spec (ws rack patterns : list word) :
  Forall (fun w => w <> [] /\ Forall (fun c => is_alpha c = true) w) ws ->
  five_by_five patterns ->
  exists n, forall fuel, n <= fuel ->
    exists sols init_,
      snd (Solver.solve fuel
             (Solver.set_problem (Solver.init (fst (build ws))) rack patterns))
      = Ok sols
      /\ five_by_five init_
      /\ (forall r c x, at_ (map lower_word patterns) r c = Some x -> x <> dash ->
            at_ init_ r c = Some x)
      /\ Forall (solved ws init_) sols.
Proof.
  intros Hws H5.
  destruct (build_from_lexicon ws new_gaddag [Trie []] [] Inv_new_gaddag
              marked_new_gaddag (letters_valid ws Hws))
    as (g & ks & Hb & Hr & Hg & HS & _ & _).
  assert (fst (build ws) = g) as -> by (unfold build; by rewrite Hb).
  simpl in HS. rewrite <- Hr in Hg. destruct Hg as (HI & _ & _).
  destruct (find_lett_patt_graph g ks ws HI HS) as [N HN].
  exists (N + 6). intros fuel Hfuel.
  remember (Solver.set_problem (Solver.init g) rack patterns) as s1 eqn:Es1.
  assert (Solver.graph s1 = g) as Hgraph by (by subst s1).
  destruct (check_diagonal_keeps (Solver.start_grid s1)
              (Solver.rows s1, Solver.letters s1))
    as (d & Hcd & Hlen & Hcells).
  { subst s1. apply set_problem_NoDup. } { subst s1. by apply set_problem_shape5. }
  set (init_ := Solver.deref (fst d) (Solver.start_grid s1)).
  assert (five_by_five init_) as Hinit.
  { apply (deref_five (Solver.rows s1)); [done|].
    subst s1. rewrite set_problem_deref. by apply lower_five. }
  assert (forall r c x, at_ (map lower_word patterns) r c = Some x -> x <> dash ->
            at_ init_ r c = Some x) as Hpat.
  { intros r c x Hx Hne. unfold init_. rewrite at_deref. apply Hcells; [|done].
    cbn [fst]. subst s1. by rewrite set_problem_cellv. }
  unfold Solver.solve, Solver.try_grid. simpl. rewrite Hcd. simpl.
  destruct (nonempty (snd d)).
  - fold init_. rewrite Hgraph.
    destruct (traverse_spec g ws (Solver.singles s1) init_ N) with
      (fuel := fuel) (row := 0) (pool := snd d) (sol := init_) (sols := @nil entry)
      as (sols & sol' & Htr & Hsols & _); [| |done|lia|lia| |constructor|].
    + intros letters pattern fuel' Hf.
      destruct (HN letters pattern fuel' Hf) as (ys & Hit & _ & Hsound & _). eauto.
    + intros w Hw. by destruct (proj1 (Forall_forall _ _) Hws w Hw).
    + by apply partial_zero.
    + rewrite Htr. simpl. exists sols, init_. done.
  - simpl. exists [ERROR], init_. split_and!; [done|done|done|].
    by repeat constructor.
Qed.

(** [solve] returns: on a lexicon that [add] built from words of letters,
    and for a pattern of five rows of five cells, the search ends and no
    exception leaves it, whatever the rack. *)
Theorem solve_returns (ws rack patterns : list word) :
  Forall (fun w => w <> [] /\ Forall (fun c => is_alpha c = true) w) ws ->
  five_by_five patterns ->
  exists n, forall fuel, n <= fuel ->
    exists sols,
      snd (Solver.solve fuel
             (Solver.set_problem (Solver.init (fst (build ws))) rack patterns))
      = Ok sols.
Proof.
  intros Hws H5. destruct (solve_spec ws rack patterns Hws H5) as [n Hn].
  exists n. intros fuel Hfuel.
  destruct (Hn fuel Hfuel) as (sols & init_ & Hsolve & _). eauto.
Qed.

Lemma solve_returns_witness :
  exists n, forall fuel, n <= fuel ->
    exists sols,
      snd (Solver.solve fuel
             (Solver.set_problem (Solver.init (fst (build heart_words)))
                heart_words empty_pattern))
      = Ok sols.
Proof.
  apply (solve_returns heart_words heart_words empty_pattern).
  - apply letters_words_check. vm_compute. reflexivity.
  - split; [reflexivity|]. repeat constructor.
Defined.

(** Every grid that [solve] returns has five rows, and each of its rows
    and each of its columns spells a word of the lexicon. *)
Theorem solve_rows_are_words (ws rack patterns : list word) :
  Forall (fun w => w <> [] /\ Forall (fun c => is_alpha c = true) w) ws ->
  five_by_five patterns ->
  exists n, forall fuel, n <= fuel ->
    exists sols,
      snd (Solver.solve fuel
             (Solver.set_problem (Solver.init (fst (build ws))) rack patterns))
      = Ok sols
      /\ forall g, Grid g ∈ sols ->
           length g = 5
           /\ forall r, r < 5 ->
                exists w, w ∈ ws /\ g !! r = Some w
                          /\ forall c, c < 5 -> at_ g c r = w !! c.
Proof.
  intros Hws H5. destruct (solve_spec ws rack patterns Hws H5) as [n Hn].
  exists n. intros fuel Hfuel.
  destruct (Hn fuel Hfuel) as (sols & init_ & Hsolve & _ & _ & Hsols).
  exists sols. split; [done|]. intros g Hg.
  pose proof (proj1 (Forall_forall _ _) Hsols _ Hg) as HP. simpl in HP.
  split; [apply (part_shape _ _ _ _ HP)|]. intros r Hr.
  destruct (part_words _ _ _ _ HP r Hr Hr) as (w & Hrow & Hw).
  exists w. split_and!; [done|done|]. intros c Hc.
  destruct (part_filled _ _ _ _ HP r c Hr Hc ltac:(lia)) as (x & Hx & Hx' & _).
  rewrite Hx', <- Hx. by apply at_row.
Qed.

Lemma solve_rows_are_words_witness :
  exists n, forall fuel, n <= fuel ->
    exists sols,
      snd (Solver.solve fuel
             (Solver.set_problem (Solver.init (fst (build heart_words)))
                heart_words empty_pattern))
      = Ok sols
      /\ forall g, Grid g ∈ sols ->
           length g = 5
           /\ forall r, r < 5 ->
                exists w, w ∈ heart_words /\ g !! r = Some w
                          /\ forall c, c < 5 -> at_ g c r = w !! c.
Proof.
  apply (solve_rows_are_words heart_words heart_words empty_pattern).
  - apply letters_words_check. vm_compute. reflexivity.
  - split; [reflexivity|]. repeat constructor.
Defined.

(** Every grid that [solve] returns keeps the pattern on and above the
    diagonal: a cell there that the pattern fills (in lower case) has the
    same character in the grid, and so has its mirror cell. *)
Theorem solve_keeps_pattern (ws rack patterns : list word) :
  Forall (fun w => w <> [] /\ Forall (fun c => is_alpha c = true) w) ws ->
  five_by_five patterns ->
  exists n, forall fuel, n <= fuel ->
    exists sols,
      snd (Solver.solve fuel
             (Solver.set_problem (Solver.init (fst (build ws))) rack patterns))
      = Ok sols
      /\ forall g r c x, Grid g ∈ sols -> r <= c -> c < 5 ->
           at_ (map lower_word patterns) r c = Some x -> x <> dash ->
           at_ g r c = Some x /\ at_ g c r = Some x.
Proof.
  intros Hws H5. destruct (solve_spec ws rack patterns Hws H5) as [n Hn].
  exists n. intros fuel Hfuel.
  destruct (Hn fuel Hfuel) as (sols & init_ & Hsolve & _ & Hpat & Hsols).
  exists sols. split; [done|]. intros g r c x Hg Hrc Hc Hx Hne.
  pose proof (proj1 (Forall_forall _ _) Hsols _ Hg) as HP. simpl in HP.
  pose proof (part_init _ _ _ _ HP r c x ltac:(lia) Hrc Hc (Hpat r c x Hx Hne) Hne)
    as Hcell.
  split; [done|].
  destruct (part_filled _ _ _ _ HP r c ltac:(lia) Hc ltac:(lia)) as (y & Hy & Hy' & _).
  congruence.
Qed.

Lemma solve_keeps_pattern_witness :
  exists n, forall fuel, n <= fuel ->
    exists sols,
      snd (Solver.solve fuel
             (Solver.set_problem (Solver.init (fst (build heart_words)))
                heart_words pattern_a_at_0_2))
      = Ok sols
      /\ forall g r c x, Grid g ∈ sols -> r <= c -> c < 5 ->
           at_ (map lower_word pattern_a_at_0_2) r c = Some x -> x <> dash ->
           at_ g r c = Some x /\ at_ g c r = Some x.
Proof.
  apply (solve_keeps_pattern heart_words heart_words pattern_a_at_0_2).
  - apply letters_words_check. vm_compute. reflexivity.
  - split; [reflexivity|]. repeat constructor.
Defined.

Example solve_heart_with_pattern :
  snd (Solver.solve 20 (Solver.set_problem (Solver.init heart_lexicon)
                          heart_words pattern_a_at_0_2))
  = Ok [Grid heart_words].
Proof. vm_compute. reflexivity. Qed.

(** ** The crawls with a length *)

Lemma crawl_end_no_S (fuel : nat) (h : arena) (node : nat) (pw : word) (no : Z) :
  _crawl_end_no (S fuel) h node pw no
  = '(rest, _) ←
      for_each (fun '(char, next_node) (_ : unit) =>
          if negb (eqc char plus) && (Z.of_nat (length pw) <? no)%Z
          then ws ← _crawl_end_no fuel h next_node (char :: pw) no;
               mret (filter (fun w => Z.of_nat (length w) = no) ws, tt)
          else Ok ([], tt))
        (Node._edges (node_at h node)) tt;
    mret (match edge h node plus with
          | Some p => if is_end h p then [pw] else []
          | None => []
          end ++ rest).
Proof. reflexivity. Qed.

(** The words of [_crawl_end_no]: the word at the start when it is a word,
    and the words of the length [no] that end with it. *)
Lemma crawl_end_no_spec (h : arena) (no : Z) :
  (forall i, NoDup (Node.labels (node_at h i))) ->
  forall (fuel node : nat) (pw : word) (ys : list word),
    _crawl_end_no fuel h node pw no = Ok ys ->
    NoDup ys
    /\ forall v, v ∈ ys <->
         exists cs n p, plus ∉ cs /\ follow h node cs = Some n
                        /\ edge h n plus = Some p /\ is_end h p = true
                        /\ v = rev cs ++ pw
                        /\ (cs = [] \/ Z.of_nat (length v) = no).
Proof.
  intros Hnd. induction fuel as [|fuel IH]; intros node pw ys H; [done|].
  rewrite crawl_end_no_S in H.
  apply bind_Ok in H as ([rest []] & Hfor & [= <-]).
  assert (forall es rest',
            NoDup (map fst es) ->
            for_each (fun '(char, next_node) (_ : unit) =>
                if negb (eqc char plus) && (Z.of_nat (length pw) <? no)%Z
                then ws ← _crawl_end_no fuel h next_node (char :: pw) no;
                     mret (filter (fun w => Z.of_nat (length w) = no) ws, tt)
                else Ok ([], tt))
              es tt = Ok (rest', tt) ->
            NoDup rest'
            /\ forall v, v ∈ rest' <->
                 exists c next cs n p,
                   (c, next) ∈ es /\ c <> plus /\ plus ∉ cs
                   /\ follow h next cs = Some n
                   /\ edge h n plus = Some p /\ is_end h p = true
                   /\ v = rev cs ++ c :: pw
                   /\ Z.of_nat (length v) = no) as Hloop.
  { clear Hfor rest. induction es as [|[c next] es IHes]; intros rest' Hes Hfor.
    - injection Hfor as <-. split; [apply NoDup_nil_2|].
      intros v. split; [by intros ?%elem_of_nil|].
      by intros (? & ? & ? & ? & ? & ?%elem_of_nil & _).
    - rewrite for_each_cons in Hfor. simpl in Hes. apply NoDup_cons in Hes as [Hc Hes].
      destruct (if negb (eqc c plus) && (Z.of_nat (length pw) <? no)%Z
                then ws ← _crawl_end_no fuel h next (c :: pw) no;
                     mret (filter (fun w => Z.of_nat (length w) = no) ws, tt)
                else Ok ([], tt))
        as [[ys1 []]|e|] eqn:E1; [|done|done].
      destruct (for_each _ es tt) as [[ys2 []]|e|] eqn:E2; [|done|done].
      injection Hfor as <-.
      destruct (IHes ys2 Hes eq_refl) as [Hnd2 Hin2].
      assert (NoDup ys1
              /\ forall v, v ∈ ys1 <->
                   c <> plus /\ exists cs n p,
                     plus ∉ cs /\ follow h next cs = Some n
                     /\ edge h n plus = Some p /\ is_end h p = true
                     /\ v = rev cs ++ c :: pw
                     /\ Z.of_nat (length v) = no) as [Hnd1 Hin1].
      { destruct (negb (eqc c plus) && (Z.of_nat (length pw) <? no)%Z) eqn:Econd.
        - apply andb_true_iff in Econd as [Hcp Hlt].
          apply negb_true_iff, bool_decide_eq_false in Hcp.
          apply bind_Ok in E1 as (ws & Hcrawl & [= <-]).
          destruct (IH _ _ _ Hcrawl) as [Hnd1 Hin1].
          split; [by apply NoDup_filter|].
          intros v. rewrite list_elem_of_filter, Hin1. split.
          + intros (Hlen & cs & n & p & Hp & Hf & He & Hend & -> & _).
            split; [done|]. by exists cs, n, p.
          + intros (_ & cs & n & p & Hp & Hf & He & Hend & -> & Hlen).
            split; [done|]. exists cs, n, p. split_and!; auto.
        - injection E1 as <-. split; [apply NoDup_nil_2|].
          intros v. split; [by intros ?%elem_of_nil|].
          intros (Hcp & cs & n & p & _ & _ & _ & _ & -> & Hlen). exfalso.
          apply andb_false_iff in Econd as [Hc'|Hlt].
          + apply negb_false_iff, bool_decide_eq_true in Hc'. done.
          + apply Z.ltb_ge in Hlt. rewrite length_app in Hlen. simpl in Hlen. lia. }
      split.
      + apply NoDup_app. split_and!; [done| |done].
        intros v Hv1 Hv2.
        apply Hin1 in Hv1 as (_ & cs1 & _ & _ & _ & _ & _ & _ & -> & _).
        apply Hin2 in Hv2
          as (c' & next' & cs2 & _ & _ & Hin' & _ & _ & _ & _ & _ & Heq & _).
        apply app_cons_inj_mid in Heq as [_ ->].
        apply Hc. apply list_elem_of_fmap. by exists (c', next').
      + intros v. rewrite elem_of_app, Hin1, Hin2. split.
        * intros [(Hcp & cs & n & p & ?)|(c' & next' & cs & n & p & Hin' & ?)].
          -- exists c, next, cs, n, p. split; [apply list_elem_of_here|done].
          -- exists c', next', cs, n, p. split; [by apply list_elem_of_further|done].
        * intros (c' & next' & cs & n & p & Hin' & Hrest).
          apply elem_of_cons in Hin' as [[= -> ->]|Hin'].
          -- left. split; [tauto|]. exists cs, n, p. tauto.
          -- right. by exists c', next', cs, n, p. }
  destruct (Hloop _ _ (Hnd node) Hfor) as [Hndr Hinr]. split.
  - apply NoDup_app. split_and!; [|  |done].
    + destruct (edge h node plus) as [p|]; [|apply NoDup_nil_2].
      destruct (is_end h p); [apply NoDup_singleton|apply NoDup_nil_2].
    + intros v Hv1 Hv2.
      assert (v = pw) as ->.
      { destruct (edge h node plus) as [p|]; [|by apply elem_of_nil in Hv1].
        destruct (is_end h p); [|by apply elem_of_nil in Hv1].
        by apply list_elem_of_singleton in Hv1. }
      apply Hinr in Hv2 as (c & next & cs & _ & _ & _ & _ & _ & _ & _ & _ & Heq & _).
      apply (f_equal length) in Heq. rewrite length_app in Heq. simpl in Heq. lia.
  - intros v. rewrite elem_of_app, Hinr. split.
    + intros [Hv|(c & next & cs & n & p & Hin & Hcp & Hp & Hf & He & Hend & -> & Hl)].
      * destruct (edge h node plus) as [p|] eqn:E; [|by apply elem_of_nil in Hv].
        destruct (is_end h p) eqn:Ep; [|by apply elem_of_nil in Hv].
        apply list_elem_of_singleton in Hv as ->.
        exists [], node, p. split_and!; [apply not_elem_of_nil|done..|by left].
      * exists (c :: cs), n, p. split_and!; [|  |done|done| |].
        -- apply not_elem_of_cons. split; [congruence|done].
        -- assert (edge h node c = Some next) as E.
           { apply elem_get; [apply Hnd|done]. }
           simpl. by rewrite E.
        -- simpl. by rewrite <- app_assoc.
        -- right. by rewrite <- Hl.
    + intros ([|c cs] & n & p & Hp & Hf & He & Hend & -> & Hl).
      * left. injection Hf as <-. rewrite He, Hend. apply list_elem_of_here.
      * right. simpl in Hf. destruct (edge h node c) as [next|] eqn:E; [|done].
        apply not_elem_of_cons in Hp as [Hcp Hp].
        destruct Hl as [?|Hl]; [done|].
        exists c, next, cs, n, p. split_and!; [by apply get_Some_elem|done..| |].
        -- simpl. by rewrite <- app_assoc.
        -- rewrite <- Hl. simpl. by rewrite <- app_assoc.
Qed.

Lemma crawl_end_no_returns (h : arena) (root : nat) (ks : list kind) (L : nat)
    (no : Z) :
  Inv h root ks -> Forall (fun k => kind_len k <= L) ks ->
  forall (fuel node : nat) (k : kind) (p : word),
    ks !! node = Some k -> rank L k < fuel ->
    exists ys, _crawl_end_no fuel h node p no = Ok ys.
Proof.
  intros HI HL. induction fuel as [|fuel IH]; intros node k p Hk Hr; [lia|].
  rewrite crawl_end_no_S.
  match goal with
  | |- context [for_each ?body ?l ?st] =>
      destruct (for_each_Ok body l) with (s := st) as [[rest []] ->]
  end.
  - intros [c next] s Hin.
    destruct (negb (eqc c plus) && (Z.of_nat (length p) <? no)%Z); [|by eexists].
    assert (edge h node c = Some next) as He.
    { apply elem_get; [apply (inv_nodup _ _ _ HI)|done]. }
    destruct (inv_edge _ _ _ HI _ _ _ He) as (k1 & k2 & Hk1 & Hk2 & _).
    destruct (IH next k2 (c :: p)) as [ws ->]; [done| |by eexists].
    pose proof (rank_edge _ _ _ L _ _ _ _ _ HI HL He Hk Hk2). lia.
  - by eexists.
Qed.

(** [ends_with_no] on a lexicon of lower-case words: the sequence holds
    the suffix itself when it is a word of the lexicon, whatever its
    length, and the words of the lexicon of the length [no] that end with
    the suffix; each once, and nothing else. *)
Theorem ends_with_no_exact (ws : list word) (s : word) (no : Z) :
  lowercase_words ws ->
  exists n, forall fuel, n <= fuel ->
    exists ys,
      iterate fuel (ends_with_no (fst (build ws)) s no) = Ok ys
      /\ NoDup ys
      /\ (forall v, v ∈ ys <->
            v ∈ ws /\ (exists pre, v = pre ++ s)
            /\ (v = s \/ Z.of_nat (length v) = no)).
Proof.
  intros Hws.
  destruct (build_lexicon ws Hws) as (ks & _ & HL & _).
  set (g := fst (build ws)) in *.
  pose proof (lex_inv _ _ _ HL) as HI.
  unfold ends_with_no, iterate.
  destruct (follow (nodes g) (_root g) (rev s)) as [n0|] eqn:Hn0.
  - set (L := max_list (kind_len <$> ks)).
    exists (2 * L + 3). intros fuel Hfuel.
    destruct (follow_kind _ _ _ _ HI _ n0 _ (inv_root _ _ _ HI) Hn0) as [k0 Hk0].
    destruct (crawl_end_no_returns _ _ _ L no HI (kinds_bounded ks) fuel n0 k0 s Hk0)
      as [ys Hcrawl].
    { pose proof (rank_le L k0). lia. }
    exists ys. split; [done|].
    destruct (crawl_end_no_spec _ no (inv_nodup _ _ _ HI) _ _ _ _ Hcrawl) as [Hnd Hin].
    split; [done|]. intros v. rewrite Hin. split.
    + intros (cs & n & p & Hp & Hf & He & Hend & -> & Hl).
      assert (follow (nodes g) (_root g) (rev s ++ cs) = Some n) as Hroot.
      { by rewrite follow_app, Hn0. }
      destruct (follow_plus_kind _ _ _ _ _ _ HI Hroot He) as [_ Hkp].
      rewrite rev_app_distr, rev_involutive in Hkp.
      split_and!.
      * destruct (lex_marked _ _ _ HL p Hend) as [Hl'|(q & Hq & Hqin)];
          rewrite Hkp in *; [done|]. by injection Hq as <-.
      * by exists (rev cs).
      * destruct Hl as [->|Hl]; [by left|by right].
    + intros (Hv & (pre & ->) & Hl).
      destruct (lex_words _ _ _ HL _ Hv) as [Hne Hpl].
      destruct (lexicon_root_path g ks ws (pre ++ s) [] HL)
        as (n & st & e & Hf & Hst & He & Hend); [by rewrite app_nil_r|done|].
      simpl in He. injection He as <-.
      rewrite rev_app_distr, follow_app, Hn0 in Hf.
      exists (rev pre), n, st.
      split_and!; [|done|done|done|by rewrite rev_involutive|].
      * apply not_in_rev. rewrite not_elem_of_app in Hpl. tauto.
      * destruct Hl as [Hl|Hl]; [|by right]. left.
        apply (f_equal length) in Hl. rewrite length_app in Hl.
        destruct pre; [done|simpl in Hl; lia].
  - exists 0. intros fuel _. exists []. split_and!; [done|apply NoDup_nil_2|].
    intros v. split; [by intros H%elem_of_nil|]. intros (Hv & (pre & ->) & _).
    destruct (lex_words _ _ _ HL _ Hv) as [Hne _].
    destruct (lexicon_root_path g ks ws (pre ++ s) [] HL)
      as (n & st & e & Hf & _); [by rewrite app_nil_r|done|].
    rewrite rev_app_distr, follow_app, Hn0 in Hf. done.
Qed.

Lemma ends_with_no_exact_witness :
  exists n, forall fuel, n <= fuel ->
    exists ys,
      iterate fuel (ends_with_no (fst (build (map chars ["art"; "heart"; "cart"]%string)))
                      (chars "art") 4) = Ok ys
      /\ NoDup ys
      /\ (forall v, v ∈ ys <->
            v ∈ map chars ["art"; "heart"; "cart"]%string
            /\ (exists pre, v = pre ++ chars "art")
            /\ (v = chars "art" \/ Z.of_nat (length v) = 4%Z)).
Proof.
  apply (ends_with_no_exact (map chars ["art"; "heart"; "cart"]%string) (chars "art") 4).
  apply lowercase_words_check. vm_compute. reflexivity.
Defined.

Example ends_with_no_art :
  iterate 20 (ends_with_no (fst (build (map chars ["art"; "heart"; "cart"]%string)))
                (chars "art") 4)
  = Ok (map chars ["art"; "cart"]%string).
Proof. vm_compute. reflexivity. Qed.

Lemma post_no_nil (no : Z) (F : list word) : post_no no F [] F.
Proof.
  split_and!; [apply NoDup_nil_2| |done|by left].
  intros v H. by apply elem_of_nil in H.
Qed.

Lemma post_no_app (no : Z) F ys1 F1 ys2 F2 :
  post_no no F ys1 F1 -> post_no no F1 ys2 F2 -> post_no no F (ys1 ++ ys2) F2.
Proof.
  intros (N1 & Y1 & S1 & G1) (N2 & Y2 & S2 & G2). split_and!.
  - apply NoDup_app. split_and!; [done| |done].
    intros v Hv1 Hv2. destruct (Y1 v Hv1) as [_ H1]. destruct (Y2 v Hv2) as [H2 _]. done.
  - intros v [Hv|Hv]%elem_of_app.
    + destruct (Y1 v Hv). split; [done|]. by apply S2.
    + destruct (Y2 v Hv) as [H2 H3]. split; [|done]. intros HF. by apply H2, S1.
  - intros v Hv. by apply S2, S1.
  - intros v Hv. rewrite elem_of_app.
    destruct (G2 v Hv) as [H1|[H2|H3]]; [|tauto|tauto].
    destruct (G1 v H1) as [?|[?|?]]; tauto.
Qed.

Lemma post_no_filter (no : Z) F ys F' :
  post_no no F ys F' ->
  post_no no F (filter (fun w => Z.of_nat (length w) = no) ys) F'.
Proof.
  intros (N1 & Y1 & S1 & G1). split_and!.
  - by apply NoDup_filter.
  - intros v [_ Hv]%list_elem_of_filter. by apply Y1.
  - done.
  - intros v Hv. rewrite list_elem_of_filter.
    destruct (G1 v Hv) as [?|[?|?]]; [tauto| |tauto].
    destruct (decide (Z.of_nat (length v) = no)); tauto.
Qed.

Lemma for_each_post_no {A} (no : Z)
    (body : A -> list word -> outcome (list word * list word))
    (T : A -> word -> Prop) (l : list A) :
  (forall a s ys s', a ∈ l -> body a s = Ok (ys, s') ->
      post_no no s ys s' /\ (forall v, T a v -> v ∈ s')) ->
  forall s ys s', for_each body l s = Ok (ys, s') ->
    post_no no s ys s' /\ (forall a v, a ∈ l -> T a v -> v ∈ s').
Proof.
  induction l as [|a l IH]; intros Hbody s ys s' H.
  - injection H as <- <-. split; [apply post_no_nil|].
    intros a v Ha. by apply elem_of_nil in Ha.
  - rewrite for_each_cons in H.
    destruct (body a s) as [[ys1 s1]|e|] eqn:E1; [|done|done].
    destruct (for_each body l s1) as [[ys2 s2]|e|] eqn:E2; [|done|done].
    injection H as <- <-.
    destruct (Hbody a s ys1 s1 (list_elem_of_here _ _) E1) as [P1 T1].
    destruct (IH (fun a s ys s' Ha => Hbody a s ys s' (list_elem_of_further _ _ _ Ha))
                s1 ys2 s2 E2) as [P2 T2].
    split; [eapply post_no_app; eauto|].
    intros a' v [->|Ha]%elem_of_cons Hv.
    + destruct P2 as (_ & _ & S2 & _). by apply S2, T1.
    + eapply T2; eauto.
Qed.

Lemma crawl_no_S (fuel : nat) (h : arena) (node : nat) (pw : word) (no : Z)
    (F : list word) (b : bool) :
  _crawl_no (S fuel) h node pw no F b
  = let '(first, found1) :=
      if is_end h node && negb (seen pw F) then ([pw], pw :: F) else ([], F) in
    '(rest, found2) ←
      for_each (fun '(char, next_node) found =>
          if eqc char plus
          then
            '(ws, found') ← _crawl_no fuel h next_node pw no found true;
            mret (filter (fun w => Z.of_nat (length w) = no) ws, found')
          else if (Z.of_nat (length pw) <? no)%Z
          then
            '(ws, found') ← _crawl_no fuel h next_node
                              (if b then pw ++ [char] else char :: pw) no found b;
            mret (filter (fun w => Z.of_nat (length w) = no) ws, found')
          else Ok ([], found))
        (Node._edges (node_at h node)) found1;
    mret (first ++ rest, found2).
Proof. reflexivity. Qed.

Lemma run_length (cs : word) (p : word) (b : bool) :
  length (fst (run (p, b) cs)) = length p + length (path_letters cs).
Proof. by rewrite (Permutation_length (run_letters cs p b)), length_app. Qed.

(** What [_crawl_no] yields and leaves as the set; the set ends with the
    word of every path to an end node that has the length [no]. *)
Lemma crawl_no_post (h : arena) (no : Z) (fuel : nat) :
  forall (node : nat) (pw : word) (F : list word) (b : bool) (ys F' : list word),
    _crawl_no fuel h node pw no F b = Ok (ys, F') ->
    post_no no F ys F'
    /\ (is_end h node = true -> pw ∉ F -> pw ∈ ys)
    /\ (forall cs e, follow h node cs = Some e -> is_end h e = true ->
          Z.of_nat (length (fst (run (pw, b) cs))) = no ->
          fst (run (pw, b) cs) ∈ F').
Proof.
  induction fuel as [|fuel IH]; intros node pw F b ys F' H; [done|].
  rewrite crawl_no_S in H.
  destruct (if is_end h node && negb (seen pw F) then ([pw], pw :: F) else ([], F))
    as [first found1] eqn:Efirst.
  assert (post_no no F first found1
          /\ (is_end h node = true -> pw ∈ found1)
          /\ (is_end h node = true -> pw ∉ F -> pw ∈ first)) as (P1 & Hp & Hq).
  { destruct (is_end h node) eqn:Eend; simpl in Efirst.
    - unfold seen in Efirst. case_bool_decide as Hseen; simpl in Efirst;
        injection Efirst as <- <-.
      + split_and!; [apply post_no_nil|done|done].
      + split_and!; [|intros _; apply list_elem_of_here
                     |intros _ _; apply list_elem_of_here].
        split_and!.
        * apply NoDup_singleton.
        * intros v ->%list_elem_of_singleton. split; [done|apply list_elem_of_here].
        * intros v Hv. by apply list_elem_of_further.
        * intros v [->|Hv]%elem_of_cons; [right; left; apply list_elem_of_here|by left].
    - injection Efirst as <- <-. split_and!; [apply post_no_nil|done|done]. }
  apply bind_Ok in H as ([rest found2] & Hfor & [= <- <-]).
  eapply (for_each_post_no no _
            (fun a v => exists cs e,
               follow h (snd a) cs = Some e /\ is_end h e = true
               /\ Z.of_nat (length v) = no
               /\ v = fst (run (extend (pw, b) (fst a)) cs))) in Hfor.
  - destruct Hfor as [P2 T2]. split_and!; [eapply post_no_app; eauto| |].
    + intros He Hn. apply elem_of_app. left. by apply Hq.
    + intros [|c cs] e Hf He Hlen.
      * injection Hf as <-. destruct P2 as (_ & _ & S2 & _). by apply S2, Hp.
      * simpl in Hf. destruct (edge h node c) as [next|] eqn:Eedge; [|done].
        apply (T2 (c, next)); [by apply get_Some_elem|].
        exists cs, e. split_and!; done.
  - intros [c next] s ys' s' _ Hbody. cbn [fst snd].
    unfold extend. cbn [fst snd].
    destruct (eqc c plus) eqn:Ec.
    + apply bind_Ok in Hbody as ([ws found'] & Hcrawl & [= <- <-]).
      destruct (IH _ _ _ _ _ _ Hcrawl) as (P & _ & R).
      split; [by apply post_no_filter|].
      intros v (cs & e & Hf & He & Hlen & ->). by apply (R cs e).
    + destruct (Z.of_nat (length pw) <? no)%Z eqn:Elt.
      * apply bind_Ok in Hbody as ([ws found'] & Hcrawl & [= <- <-]).
        destruct (IH _ _ _ _ _ _ Hcrawl) as (P & _ & R).
        split; [by apply post_no_filter|].
        intros v (cs & e & Hf & He & Hlen & ->). destruct b; by apply (R cs e).
      * injection Hbody as <- <-. split; [apply post_no_nil|].
        intros v (cs & e & Hf & He & Hlen & ->). exfalso.
        apply Z.ltb_ge in Elt.
        assert (run (if b then (pw ++ [c], true) else (c :: pw, false)) cs
                = run (if b then pw ++ [c] else c :: pw, b) cs) as Hrun
          by (by destruct b).
        rewrite Hrun, run_length in Hlen.
        destruct b; [rewrite length_app in Hlen|]; simpl in Hlen; lia.
Qed.

(** Every word that [_crawl_no] yields is the word of a path to an end
    node; it is the word at the start or has the length [no]. *)
Lemma crawl_no_sound (h : arena) (no : Z) (fuel : nat) :
  (forall i, NoDup (Node.labels (node_at h i))) ->
  forall (node : nat) (pw : word) (F : list word) (b : bool) (ys F' : list word),
    _crawl_no fuel h node pw no F b = Ok (ys, F') ->
    forall v, v ∈ ys ->
      exists cs e, follow h node cs = Some e /\ is_end h e = true
                   /\ v = fst (run (pw, b) cs)
                   /\ (cs = [] \/ Z.of_nat (length v) = no).
Proof.
  intros Hnd.
  induction fuel as [|fuel IH]; intros node pw F b ys F' H v Hv; [done|].
  rewrite crawl_no_S in H.
  destruct (if is_end h node && negb (seen pw F) then ([pw], pw :: F) else ([], F))
    as [first found1] eqn:Efirst.
  apply bind_Ok in H as ([rest found2] & Hfor & [= <- <-]).
  apply elem_of_app in Hv as [Hv|Hv].
  - destruct (is_end h node) eqn:Eend; simpl in Efirst.
    + destruct (negb (seen pw F)); injection Efirst as <- <-;
        [|by apply elem_of_nil in Hv].
      apply list_elem_of_singleton in Hv as ->. exists [], node.
      split_and!; [done|done|done|by left].
    + injection Efirst as <- <-. by apply elem_of_nil in Hv.
  - destruct (for_each_elem _ _ _ _ _ _ Hfor Hv)
      as ([c next] & s1 & ys1 & s1' & Ha & Hb & Hv1).
    assert (edge h node c = Some next) as E.
    { apply elem_get; [apply Hnd|done]. }
    assert (forall pw' b' ws found',
              _crawl_no fuel h next pw' no s1 b' = Ok (ws, found') ->
              v ∈ filter (fun w => Z.of_nat (length w) = no) ws ->
              extend (pw, b) c = (pw', b') ->
              exists cs e, follow h node cs = Some e /\ is_end h e = true
                           /\ v = fst (run (pw, b) cs)
                           /\ (cs = [] \/ Z.of_nat (length v) = no)) as Hsub.
    { intros pw' b' ws found' Hcrawl [Hlen Hin]%list_elem_of_filter Hext.
      destruct (IH _ _ _ _ _ _ Hcrawl v Hin) as (cs & e & Hf & He & -> & _).
      exists (c :: cs), e. cbn [follow]. rewrite E, run_cons, Hext.
      split_and!; [done|done|done|by right]. }
    destruct (eqc c plus) eqn:Ec.
    + apply bind_Ok in Hb as ([ws found'] & Hcrawl & [= <- <-]).
      apply (Hsub _ _ _ _ Hcrawl Hv1). unfold extend. by rewrite Ec.
    + destruct (Z.of_nat (length pw) <? no)%Z.
      * apply bind_Ok in Hb as ([ws found'] & Hcrawl & [= <- <-]).
        apply (Hsub _ _ _ _ Hcrawl Hv1). unfold extend. rewrite Ec. cbn [fst snd].
        by destruct b.
      * injection Hb as <- <-. by apply elem_of_nil in Hv1.
Qed.

Lemma crawl_no_returns (h : arena) (root : nat) (ks : list kind) (L : nat) (no : Z) :
  Inv h root ks -> Forall (fun k => kind_len k <= L) ks ->
  forall (fuel node : nat) (k : kind) (p : word) (F : list word) (b : bool),
    ks !! node = Some k -> rank L k < fuel ->
    exists r, _crawl_no fuel h node p no F b = Ok r.
Proof.
  intros HI HL. induction fuel as [|fuel IH]; intros node k p F b Hk Hr; [lia|].
  rewrite crawl_no_S.
  destruct (if is_end h node && negb (seen p F) then ([p], p :: F) else ([], F))
    as [first found1].
  match goal with
  | |- context [for_each ?body ?l ?st] =>
      destruct (for_each_Ok body l) with (s := st) as [[rest found2] ->]
  end.
  - intros [c next] s Hin.
    assert (edge h node c = Some next) as He.
    { apply elem_get; [apply (inv_nodup _ _ _ HI)|done]. }
    destruct (inv_edge _ _ _ HI _ _ _ He) as (k1 & k2 & Hk1 & Hk2 & _).
    pose proof (rank_edge _ _ _ L _ _ _ _ _ HI HL He Hk Hk2).
    destruct (eqc c plus).
    + destruct (IH next k2 p s true) as [[ws f] ->]; [done|lia|by eexists].
    + destruct (Z.of_nat (length p) <? no)%Z; [|by eexists].
      destruct (IH next k2 (if b then p ++ [c] else c :: p) s b) as [[ws f] ->];
        [done|lia|by eexists].
  - by eexists.
Qed.

(** [starts_with_no] on a lexicon of lower-case words, for a prefix that
    is not empty: the sequence holds the prefix itself when it is a word
    of the lexicon, whatever its length, and the words of the lexicon of
    the length [no] that start with the prefix; each once, and nothing
    else. *)
Theorem starts_with_no_exact (ws : list word) (p : word) (no : Z) :
  lowercase_words ws -> p <> [] ->
  exists n, forall fuel, n <= fuel ->
    exists ys,
      iterate fuel (starts_with_no (fst (build ws)) p no) = Ok ys
      /\ NoDup ys
      /\ (forall v, v ∈ ys <->
            v ∈ ws /\ (exists suf, v = p ++ suf)
            /\ (v = p \/ Z.of_nat (length v) = no)).
Proof.
  intros Hws Hp.
  destruct (build_lexicon ws Hws) as (ks & _ & HL & _).
  set (g := fst (build ws)) in *.
  pose proof (lex_inv _ _ _ HL) as HI.
  unfold starts_with_no.
  destruct (follow (nodes g) (_root g) (rev p)) as [n0|] eqn:E0.
  2:{ exists 0. intros fuel _. exists []. split_and!; [done|apply NoDup_nil_2|].
      intros v. split; [by intros H%elem_of_nil|]. intros (Hv & (suf & ->) & _).
      destruct (lexicon_root_path g ks ws p suf HL Hv Hp) as (n & ? & ? & Hf & _).
      congruence. }
  destruct (edge (nodes g) n0 plus) as [st|] eqn:Est.
  2:{ exists 0. intros fuel _. exists []. split_and!; [done|apply NoDup_nil_2|].
      intros v. split; [by intros H%elem_of_nil|]. intros (Hv & (suf & ->) & _).
      destruct (lexicon_root_path g ks ws p suf HL Hv Hp) as (n & ? & ? & Hf & He & _).
      congruence. }
  destruct (follow_plus_kind _ _ _ _ _ _ HI E0 Est) as [_ Hkst].
  rewrite rev_involutive in Hkst.
  set (L := max_list (kind_len <$> ks)).
  exists (2 * L + 3). intros fuel Hfuel.
  destruct (crawl_no_returns _ _ _ L no HI (kinds_bounded ks) fuel st _ p [] true Hkst)
    as [[ys F'] Hcrawl].
  { pose proof (rank_le L (Plus p)). lia. }
  unfold iterate. rewrite Hcrawl. simpl. exists ys. split; [done|].
  destruct (crawl_no_post _ _ _ _ _ _ _ _ _ Hcrawl) as ((Hnd & _ & _ & Hgain) & Hself & Hreach).
  split; [done|]. intros v. split.
  - intros Hv.
    destruct (crawl_no_sound _ _ _ (inv_nodup _ _ _ HI) _ _ _ _ _ _ Hcrawl v Hv)
      as (cs & e & Hf & He & -> & Hl).
    destruct (coherent_run _ _ _ _ HI _ _ _ (p, true) Hkst eq_refl Hf)
      as (ke & Hke & Hce).
    split_and!.
    + exact (coherent_end _ _ _ _ _ _ (lex_marked _ _ _ HL) Hke Hce He).
    + destruct (run_sandwich cs p true) as (pre & suf & -> & Hpre).
      rewrite (Hpre eq_refl). by exists suf.
    + destruct Hl as [->|Hl]; [by left|by right].
  - intros (Hv & (suf & ->) & Hl).
    destruct (lexicon_root_path g ks ws p suf HL Hv Hp)
      as (n' & st' & e & Hf & Hst & He & Hend).
    rewrite E0 in Hf. injection Hf as <-. rewrite Est in Hst. injection Hst as <-.
    assert (plus ∉ suf) as Hps.
    { destruct (lex_words _ _ _ HL _ Hv) as [_ Hpl].
      rewrite not_elem_of_app in Hpl. tauto. }
    destruct Hl as [Hl|Hl].
    + assert (suf = []) as ->.
      { apply (f_equal length) in Hl. rewrite length_app in Hl.
        destruct suf; [done|simpl in Hl; lia]. }
      rewrite app_nil_r. simpl in He. injection He as <-.
      apply Hself; [done|apply not_elem_of_nil].
    + specialize (Hreach suf e He Hend). rewrite run_append in Hreach by done.
      specialize (Hreach Hl). simpl in Hreach.
      destruct (Hgain _ Hreach) as [H|[H|H]]; [by apply elem_of_nil in H|done|done].
Qed.

Lemma starts_with_no_exact_witness :
  exists n, forall fuel, n <= fuel ->
    exists ys,
      iterate fuel (starts_with_no (fst (build (map chars ["he"; "hear"; "heart"; "herd"]%string)))
                      (chars "he") 4) = Ok ys
      /\ NoDup ys
      /\ (forall v, v ∈ ys <->
            v ∈ map chars ["he"; "hear"; "heart"; "herd"]%string
            /\ (exists suf, v = chars "he" ++ suf)
            /\ (v = chars "he" \/ Z.of_nat (length v) = 4%Z)).
Proof.
  apply (starts_with_no_exact (map chars ["he"; "hear"; "heart"; "herd"]%string)
           (chars "he") 4).
  - apply lowercase_words_check. vm_compute. reflexivity.
  - discriminate.
Defined.

Example starts_with_no_he :
  iterate 20 (starts_with_no (fst (build (map chars ["he"; "hear"; "heart"; "herd"]%string)))
                (chars "he") 4)
  = Ok (map chars ["he"; "hear"; "herd"]%string).
Proof. vm_compute. reflexivity. Qed.
